(** * Remembered set and local slots buffer of the V8 heap

    A shallow embedding of [src/heap/remembered-set.h]: the class template
    [RememberedSet<direction>] and the class [LocalSlotsBuffer], together
    with the properties their specification states about them.

    Conventions of the embedding:
    - [Address] and [uintptr_t] values are integers in [Z]; where the
      source computes in [uintptr_t], [size_t] or [uint32_t] the
      wrap-around is written out ([wrap64], [wrap32]);
    - a method that mutates its receiver becomes a function returning the
      new receiver; a callback that may have side effects is a function
      threading a state of an arbitrary type [S];
    - every operation returns a [Result]: [Ok] with the new state, or
      [Fail] with the reason the C++ program has no defined continuation
      there (a [STATIC_ASSERT] that rejects the instantiation, a [DCHECK]
      that aborts a debug build, an access outside an array or through
      [nullptr]). *)

From stdpp Require Import base tactics option list numbers gmap.

Local Open Scope Z_scope.

(** ** Results of operations *)

Inductive Failure :=
  | StaticAssertFailure   (* STATIC_ASSERT: the instantiation does not compile *)
  | DcheckFailure         (* DCHECK: aborts when DEBUG is defined *)
  | UndefinedBehavior.    (* out-of-bounds access, nullptr dereference *)

Inductive Result (A : Type) :=
  | Ok (a : A)
  | Fail (f : Failure).
Arguments Ok {A} a.
Arguments Fail {A} f.

#[global] Instance Result_ret : MRet Result := λ A a, Ok a.
#[global] Instance Result_bind : MBind Result := λ A B f m,
  match m with
  | Ok a => f a
  | Fail e => Fail e
  end.

(** Monadic left fold: the body of a C++ loop run over the listed
    iterations, stopping at the first failure. *)
Fixpoint foldM {A B : Type} (f : B → A → Result B) (b : B) (l : list A)
  : Result B :=
  match l with
  | [] => Ok b
  | a :: l' => b' ← f b a; foldM f b' l'
  end.

(** ** Machine integers and constants *)

Definition Address := Z.
Definition SlotType := Z.

(** An [Object*] is the word it holds. *)
Definition Object := Z.

Definition wrap64 (z : Z) : Z := z `mod` 2 ^ 64.
Definition wrap32 (z : Z) : Z := z `mod` 2 ^ 32.

Definition INT_MAX : Z := 2 ^ 31 - 1.
Definition INT_MIN : Z := - 2 ^ 31.

(** The build flag [DEBUG] and what the file takes from headers that are
    not part of it: the constants [KB] (globals.h), [Page::kPageSize]
    (spaces.h), [NUMBER_OF_SLOT_TYPES], the number of enumerators of
    [SlotType], and [TypedSlotSet::kMaxOffset] (slot-set.h), and the test
    [Object::IsHeapObject] on the tag bits of a word (objects.h). *)
Class Config := {
  DEBUG : bool;
  KB : Z;
  kPageSize : Z;
  NUMBER_OF_SLOT_TYPES : Z;
  kMaxOffset : Z;
  IsHeapObject : Object → bool;
}.

Inductive PointerDirection := OLD_TO_OLD | OLD_TO_NEW.

#[global] Instance PointerDirection_eq_dec : EqDecision PointerDirection.
Proof. solve_decision. Defined.

Inductive SlotCallbackResult := KEEP_SLOT | REMOVE_SLOT.

#[global] Instance SlotCallbackResult_eq_dec : EqDecision SlotCallbackResult.
Proof. solve_decision. Defined.

Section Checks.
Context `{Config}.

(** [DCHECK(c)]: compiled away unless [DEBUG]; aborts when [c] is false. *)
Definition DCHECK (c : bool) : Result unit :=
  if DEBUG && negb c then Fail DcheckFailure else Ok ().

(** [STATIC_ASSERT(c)] inside a member of a class template: checked when
    the member is instantiated. *)
Definition STATIC_ASSERT (c : bool) : Result unit :=
  if c then Ok () else Fail StaticAssertFailure.

(** [a[i]] on an array held as a list: undefined outside its bounds. *)
Definition array_get {A} (a : list A) (i : Z) : Result A :=
  if bool_decide (0 ≤ i) then
    match a !! Z.to_nat i with
    | Some x => Ok x
    | None => Fail UndefinedBehavior
    end
  else Fail UndefinedBehavior.

(** [a[i] = x]. *)
Definition array_set {A} (a : list A) (i : Z) (x : A) : Result (list A) :=
  if bool_decide (0 ≤ i < Z.of_nat (length a))
  then Ok (<[Z.to_nat i := x]> a)
  else Fail UndefinedBehavior.

(** [*p] for a pointer that may be [nullptr]. *)
Definition deref {A} (p : option A) : Result A :=
  match p with
  | Some x => Ok x
  | None => Fail UndefinedBehavior
  end.

(** [a + b] in [int]: signed overflow is undefined. *)
Definition int_add (a b : Z) : Result Z :=
  if bool_decide (INT_MIN ≤ a + b ≤ INT_MAX)
  then Ok (a + b)
  else Fail UndefinedBehavior.
End Checks.

(** ** LocalSlotsBuffer *)

Module LocalSlotsBuffer.

(** [struct Node]: [buffer] is the array of [kBufferSize] words and
    [count] the number of them in use. The [next] pointer is the tail of
    the list of nodes that [top_] heads: the buffer owns its chain and
    nothing else points into it. *)
Record Node := mkNode { buffer : list Z; count : Z }.

(** The object: [top_] with the chain behind it, newest node first;
    [[]] is [nullptr]. *)
Record t := mk { top_ : list Node }.

(** What a caller records: one call of either overload of [Record]. *)
Inductive SlotRecord :=
  | Untyped (addr : Address)
  | Typed (type : SlotType) (addr : Address).

Definition record_addr (r : SlotRecord) : Address :=
  match r with
  | Untyped addr => addr
  | Typed _ addr => addr
  end.

(** The number of words [Record] asks [EnsureSpaceFor] for. *)
Definition record_size (r : SlotRecord) : Z :=
  match r with
  | Untyped _ => 1
  | Typed _ _ => 2
  end.

Definition is_untyped (r : SlotRecord) : Prop :=
  match r with
  | Untyped _ => True
  | Typed _ _ => False
  end.

(** The locals [typed] and [type] of [Iterate], and the state of the two
    callbacks. [type] is not initialised in the source; it is read only
    after it was assigned. *)
Record Cursor (S : Type) := mkCursor {
  typed : bool;
  type_ : SlotType;
  acc : S;
}.
Arguments mkCursor {S} _ _ _.
Arguments typed {S} _.
Arguments type_ {S} _.
Arguments acc {S} _.

Section Ops.
Context `{Config}.

Definition kBufferSize : Z := 16 * KB.

Definition remaining_free_slots (n : Node) : Z := kBufferSize - count n.

(** [Node(next_node)]: [count(0)]; the words of [buffer] are not
    initialised by the constructor and are never read before they are
    written, they are taken as zero here. *)
Definition new_Node : Node :=
  {| buffer := replicate (Z.to_nat kBufferSize) 0; count := 0 |}.

(** [LocalSlotsBuffer() : top_(new Node(nullptr))]. *)
Definition create : t := {| top_ := [new_Node] |}.

Definition EnsureSpaceFor (cnt : Z) (b : t) : Result t :=
  match top_ b with
  | [] => Fail UndefinedBehavior
  | n :: _ =>
      if remaining_free_slots n <? cnt
      then Ok {| top_ := new_Node :: top_ b |}
      else Ok b
  end.

(** [top_->buffer[top_->count++] = entry]. *)
Definition Insert (entry : Z) (b : t) : Result t :=
  match top_ b with
  | [] => Fail UndefinedBehavior
  | n :: rest =>
      buf ← array_set (buffer n) (count n) entry;
      Ok {| top_ := {| buffer := buf; count := count n + 1 |} :: rest |}
  end.

(** [void Record(Address addr)]. *)
Definition RecordAddress (addr : Address) (b : t) : Result t :=
  b ← EnsureSpaceFor 1 b;
  let entry := addr in
  _ ← DCHECK (NUMBER_OF_SLOT_TYPES <=? entry);
  Insert entry b.

(** [void Record(SlotType type, Address addr)]. *)
Definition RecordTyped (type : SlotType) (addr : Address) (b : t)
  : Result t :=
  b ← EnsureSpaceFor 2 b;
  b ← Insert type b;
  let entry := addr in
  _ ← DCHECK (NUMBER_OF_SLOT_TYPES <=? entry);
  Insert entry b.

Section Iteration.
Context {S : Type}.
Variable untyped_callback : Address → S → S.
Variable typed_callback : SlotType → Address → S → S.

(** The body of the [for] loop, for one [entry]. *)
Definition decode (c : Cursor S) (entry : Z) : Result (Cursor S) :=
  if entry <? NUMBER_OF_SLOT_TYPES then
    _ ← DCHECK (negb (typed c));
    Ok (mkCursor true entry (acc c))
  else
    let addr := entry in
    if typed c
    then Ok (mkCursor false (type_ c) (typed_callback (type_ c) addr (acc c)))
    else Ok (mkCursor (typed c) (type_ c) (untyped_callback addr (acc c))).

(** [for (int i = 0; i < current->count; i++)]. *)
Definition iterate_node (c : Cursor S) (current : Node)
  : Result (Cursor S) :=
  foldM (λ c i, entry ← array_get (buffer current) i; decode c entry)
        c (seqZ 0 (count current)).

(** [while (current != nullptr)], from [top_] along [next]. *)
Definition iterate_chain (c : Cursor S) (b : t) : Result (Cursor S) :=
  foldM iterate_node c (top_ b).

Definition Iterate (b : t) (s : S) : Result S :=
  c ← iterate_chain (mkCursor false 0 s) b;
  Ok (acc c).
End Iteration.

(** A client: the calls of [Record] for a list of records, in order. *)
Definition record (b : t) (r : SlotRecord) : Result t :=
  match r with
  | Untyped addr => RecordAddress addr b
  | Typed type addr => RecordTyped type addr b
  end.

Definition record_all (rs : list SlotRecord) (b : t) : Result t :=
  foldM record b rs.

(** The precondition of [Record] on its arguments: an address is not
    below [NUMBER_OF_SLOT_TYPES], a [SlotType] is one of the
    enumerators. *)
Definition valid_record (r : SlotRecord) : bool :=
  match r with
  | Untyped addr => NUMBER_OF_SLOT_TYPES <=? addr
  | Typed type addr =>
      (0 <=? type) && (type <? NUMBER_OF_SLOT_TYPES)
      && (NUMBER_OF_SLOT_TYPES <=? addr)
  end.

(** The words a record occupies. *)
Definition encode (r : SlotRecord) : list Z :=
  match r with
  | Untyped addr => [addr]
  | Typed type addr => [type; addr]
  end.

(** A node holds the records [rs]: its [buffer] is the whole array and
    the words in use are those of [rs], one record after the other. *)
Definition node_holds (n : Node) (rs : list SlotRecord) : Prop :=
  length (buffer n) = Z.to_nat kBufferSize
  ∧ 0 ≤ count n ≤ kBufferSize
  ∧ take (Z.to_nat (count n)) (buffer n) = rs ≫= encode.

(** A buffer holds, node by node from [top_], the records [rss]. *)
Definition chain_holds (b : t) (rss : list (list SlotRecord)) : Prop :=
  Forall2 node_holds (top_ b) rss ∧ rss ≠ [].

(** The words of a node that are in use, and the entry stream in the
    order [Iterate] reads it. *)
Definition entries (n : Node) : list Z :=
  take (Z.to_nat (count n)) (buffer n).

Definition stream (b : t) : list Z :=
  top_ b ≫= entries.

Definition is_marker (entry : Z) : bool :=
  entry <? NUMBER_OF_SLOT_TYPES.

(** In a list of words, every tag marker is directly followed by a word
    that is not one. *)
Definition markers_paired (l : list Z) : Prop :=
  ∀ (i : nat) (e : Z), l !! i = Some e → is_marker e = true →
    ∃ a, l !! Datatypes.S i = Some a ∧ is_marker a = false.

(** What the callbacks of [Iterate] do for one record. *)
Definition dispatch {S} (ucb : Address → S → S)
    (tcb : SlotType → Address → S → S) (s : S) (r : SlotRecord) : S :=
  match r with
  | Untyped addr => ucb addr s
  | Typed type addr => tcb type addr s
  end.
End Ops.
End LocalSlotsBuffer.

(** ** SlotSet, TypedSlotSet, MemoryChunk and the chunk iterator

    [src/heap/slot-set.h], [src/heap/spaces.h] and [src/heap/heap.h] are
    included by the file but are not part of it. *)

Module SlotSet.

(** Modelled from the spec: the class [SlotSet] of slot-set.h is missing.
    It is the per-unit sparse collection of byte offsets of the spec, with
    set semantics, [insert(offset)], [remove(offset)],
    [remove_range(start, end)] over the half-open range, and
    [iterate(callback) -> retained_count], which applies the callback to
    the address of every recorded slot and drops the slots for which it
    answers remove. The order in which [Iterate] visits the slots is not
    part of the contract; it is the order of [elements] here. *)
Record t := mk { page_start_ : Address; slots : gset Z }.

(** Modelled from the spec: the constructor of [SlotSet] with
    [SetPageStart] is missing; a table holds no slot before the first
    insert. *)
Definition create (page_start : Address) : t :=
  {| page_start_ := page_start; slots := ∅ |}.

(** Modelled from the spec: [SlotSet::Insert] is missing; [insert(offset)]
    records the offset, and inserting a recorded offset again changes
    nothing. *)
Definition Insert (slot_offset : Z) (s : t) : t :=
  {| page_start_ := page_start_ s; slots := {[slot_offset]} ∪ slots s |}.

(** Modelled from the spec: [SlotSet::Remove] is missing; [remove(offset)]
    removes the offset if it is recorded. *)
Definition Remove (slot_offset : Z) (s : t) : t :=
  {| page_start_ := page_start_ s; slots := slots s ∖ {[slot_offset]} |}.

(** Modelled from the spec: [SlotSet::RemoveRange] is missing;
    [remove_range(start, end)] removes every recorded offset of the
    half-open range. *)
Definition RemoveRange (start_offset end_offset : Z) (s : t) : t :=
  {| page_start_ := page_start_ s;
     slots := filter (λ o, ¬ (start_offset ≤ o < end_offset)) (slots s) |}.

Section Iteration.
Context {S : Type}.
Variable callback : Address → S → Result (SlotCallbackResult * S).

(** Modelled from the spec: [SlotSet::Iterate] is missing; this is what
    [iterate(callback)] does for one recorded offset [o]. *)
Definition visit (page_start : Address) (st : Z * gset Z * S) (o : Z)
  : Result (Z * gset Z * S) :=
  let '(new_count, kept, s) := st in
  '(r, s') ← callback (page_start + o) s;
  match r with
  | KEEP_SLOT => Ok (new_count + 1, kept, s')
  | REMOVE_SLOT => Ok (new_count, kept ∖ {[o]}, s')
  end.

(** Modelled from the spec: [SlotSet::Iterate] is missing;
    [iterate(callback) -> retained_count]. *)
Definition Iterate (ss : t) (s : S) : Result (Z * t * S) :=
  '(new_count, kept, s') ←
    foldM (visit (page_start_ ss)) (0, slots ss, s) (elements (slots ss));
  Ok (new_count, {| page_start_ := page_start_ ss; slots := kept |}, s').
End Iteration.

(** The addresses of the recorded slots. *)
Definition addresses (ss : t) : list Address :=
  (λ o, page_start_ ss + o) <$> elements (slots ss).
End SlotSet.

Module TypedSlotSet.

(** Modelled from the spec: the class [TypedSlotSet] of slot-set.h is
    missing. It is the per-region collection of (tag, offset) pairs of the
    spec, with [insert(tag, offset)] and
    [iterate(callback) -> retained_count], whose callback gets the tag and
    the address of the slot and answers keep or remove. *)
Record t := mk { page_start_ : Address; slots : list (SlotType * Z) }.

(** Modelled from the spec: the constructor of [TypedSlotSet] is missing;
    a table holds no slot before the first insert. *)
Definition create (page_start : Address) : t :=
  {| page_start_ := page_start; slots := [] |}.

(** Modelled from the spec: [TypedSlotSet::Insert] is missing;
    [insert(tag, offset)]. *)
Definition Insert (type : SlotType) (offset : Z) (s : t) : t :=
  {| page_start_ := page_start_ s; slots := slots s ++ [(type, offset)] |}.

Section Iteration.
Context {S : Type}.
Variable callback : SlotType → Address → S → Result (SlotCallbackResult * S).

(** Modelled from the spec: [TypedSlotSet::Iterate] is missing; this is
    what [iterate(callback)] does for one recorded pair [e]. *)
Definition visit (page_start : Address)
    (st : Z * list (SlotType * Z) * S) (e : SlotType * Z)
  : Result (Z * list (SlotType * Z) * S) :=
  let '(new_count, kept, s) := st in
  '(r, s') ← callback e.1 (page_start + e.2) s;
  match r with
  | KEEP_SLOT => Ok (new_count + 1, kept ++ [e], s')
  | REMOVE_SLOT => Ok (new_count, kept, s')
  end.

(** Modelled from the spec: [TypedSlotSet::Iterate] is missing;
    [iterate(callback) -> retained_count]. *)
Definition Iterate (ss : t) (s : S) : Result (Z * t * S) :=
  '(new_count, kept, s') ←
    foldM (visit (page_start_ ss)) (0, [], s) (slots ss);
  Ok (new_count, {| page_start_ := page_start_ ss; slots := kept |}, s').
End Iteration.

Definition addresses (ss : t) : list (SlotType * Address) :=
  (λ e, (e.1, page_start_ ss + e.2)) <$> slots ss.
End TypedSlotSet.

Module MemoryChunk.

(** The spaces whose chunks the iterator of the heap walks. *)
Inductive AllocationSpace := OLD_SPACE | CODE_SPACE | MAP_SPACE | LO_SPACE.

(** Modelled from the spec: the class [MemoryChunk] of spaces.h (and its
    subclass [Page]) is missing. It is the region of the spec:
    [base_address()], [size()], [contains(address)], and the three
    optional tables with their accessors, lazy allocation and release.
    A table of slot sets is an array of one [SlotSet] per unit of
    [Page::kPageSize] bytes of the region; [None] is [nullptr]. *)
Record t := mk {
  address : Address;
  size : Z;
  owner : AllocationSpace;
  old_to_old_slots : option (list SlotSet.t);
  old_to_new_slots : option (list SlotSet.t);
  typed_old_to_old_slots : option TypedSlotSet.t;
}.

Definition set_old_to_old_slots (v : option (list SlotSet.t)) (c : t) : t :=
  mk (address c) (size c) (owner c) v (old_to_new_slots c)
     (typed_old_to_old_slots c).

Definition set_old_to_new_slots (v : option (list SlotSet.t)) (c : t) : t :=
  mk (address c) (size c) (owner c) (old_to_old_slots c) v
     (typed_old_to_old_slots c).

Definition set_typed_old_to_old_slots (v : option TypedSlotSet.t) (c : t) : t :=
  mk (address c) (size c) (owner c) (old_to_old_slots c)
     (old_to_new_slots c) v.

Section Ops.
Context `{Config}.

(** Modelled from the spec: [MemoryChunk::Contains] is missing;
    [contains(address)], the address lies within the region. *)
Definition Contains (c : t) (addr : Address) : bool :=
  bool_decide (address c ≤ addr < address c + size c).

(** The number of units of a region, as [RememberedSet::Iterate]
    computes it in [size_t]. *)
Definition pages (c : t) : Z :=
  wrap64 (size c + kPageSize - 1) `div` kPageSize.

(** Modelled from the spec: the allocation of a table of slot sets in
    spaces.cc is missing; the slot set is dimensioned as one sub-set per
    fixed-size unit of the region, and the callback of a scan gets the
    address of a slot, so the i-th sub-set starts [i * kPageSize] bytes
    into the region. *)
Definition new_slot_sets (c : t) : list SlotSet.t :=
  (λ i, SlotSet.create (address c + i * kPageSize)) <$> seqZ 0 (pages c).

(** Modelled from the spec: [MemoryChunk::AllocateOldToOldSlots],
    [AllocateOldToNewSlots] and [AllocateTypedOldToOldSlots] are missing;
    the lazy allocation of each of the three tables. *)
Definition AllocateOldToOldSlots (c : t) : t :=
  set_old_to_old_slots (Some (new_slot_sets c)) c.
Definition AllocateOldToNewSlots (c : t) : t :=
  set_old_to_new_slots (Some (new_slot_sets c)) c.
Definition AllocateTypedOldToOldSlots (c : t) : t :=
  set_typed_old_to_old_slots (Some (TypedSlotSet.create (address c))) c.

(** Modelled from the spec: [MemoryChunk::ReleaseOldToOldSlots],
    [ReleaseOldToNewSlots] and [ReleaseTypedOldToOldSlots] are missing;
    the release of each of the three tables, after which the chunk has
    none. *)
Definition ReleaseOldToOldSlots (c : t) : t := set_old_to_old_slots None c.
Definition ReleaseOldToNewSlots (c : t) : t := set_old_to_new_slots None c.
Definition ReleaseTypedOldToOldSlots (c : t) : t :=
  set_typed_old_to_old_slots None c.
End Ops.
End MemoryChunk.

Module MemoryChunkIterator.

Inductive Mode := ALL | ALL_BUT_MAP_SPACE | ALL_BUT_CODE_SPACE.

(** Modelled from the spec: the class [MemoryChunkIterator] of spaces.h is
    missing. It is the region enumerator of the spec, which yields the
    regions of the heap filtered by scope: all, all but the
    fixed-metadata (map) regions, all but the code regions. *)
Definition in_scope (mode : Mode) (c : MemoryChunk.t) : bool :=
  match mode, MemoryChunk.owner c with
  | ALL_BUT_MAP_SPACE, MemoryChunk.MAP_SPACE => false
  | ALL_BUT_CODE_SPACE, MemoryChunk.CODE_SPACE => false
  | _, _ => true
  end.

(** Modelled from the spec: [MemoryChunkIterator::next] is missing; the
    loop [while ((chunk = it.next()) != nullptr) body(chunk)] runs the body
    on each chunk in scope, in the order of the enumeration, and the body
    changes the chunk in place. *)
Fixpoint for_each {S : Type} (mode : Mode)
    (body : MemoryChunk.t → S → Result (MemoryChunk.t * S))
    (cs : list MemoryChunk.t) (s : S) : Result (list MemoryChunk.t * S) :=
  match cs with
  | [] => Ok ([], s)
  | chunk :: cs' =>
      '(chunk', s1) ← (if in_scope mode chunk then body chunk s
                       else Ok (chunk, s));
      '(cs'', s2) ← for_each mode body cs' s1;
      Ok (chunk' :: cs'', s2)
  end.
End MemoryChunkIterator.

(** Modelled from the spec: the class [Heap] of heap.h is missing. Of it the
    file uses the chunks that the iterator enumerates and the three
    membership predicates of the young generation. *)
Record Heap := mkHeap {
  chunks : list MemoryChunk.t;
  InFromSpace : Object → bool;
  InToSpace : Object → bool;
  InNewSpace : Object → bool;
}.

Definition set_chunks (cs : list MemoryChunk.t) (heap : Heap) : Heap :=
  mkHeap cs (InFromSpace heap) (InToSpace heap) (InNewSpace heap).

(** ** RememberedSet<direction> *)

Module RememberedSet.
Import MemoryChunk.

Section Ops.
Context `{Config}.

Definition GetSlotSet (direction : PointerDirection)
    (chunk : MemoryChunk.t) : option (list SlotSet.t) :=
  if decide (direction = OLD_TO_OLD)
  then old_to_old_slots chunk
  else old_to_new_slots chunk.

Definition ReleaseSlotSet (direction : PointerDirection)
    (chunk : MemoryChunk.t) : MemoryChunk.t :=
  if decide (direction = OLD_TO_OLD)
  then ReleaseOldToOldSlots chunk
  else ReleaseOldToNewSlots chunk.

Definition AllocateSlotSet (direction : PointerDirection)
    (chunk : MemoryChunk.t)
  : MemoryChunk.t * option (list SlotSet.t) :=
  if decide (direction = OLD_TO_OLD)
  then let chunk := AllocateOldToOldSlots chunk in
       (chunk, old_to_old_slots chunk)
  else let chunk := AllocateOldToNewSlots chunk in
       (chunk, old_to_new_slots chunk).

(** The array of slot sets is reached through the pointer the chunk
    holds, so a write to one of its elements is a write to the table of
    the chunk: [PutSlotSet] stores the updated array back. *)
Definition PutSlotSet (direction : PointerDirection)
    (chunk : MemoryChunk.t) (slot_set : list SlotSet.t)
  : MemoryChunk.t :=
  if decide (direction = OLD_TO_OLD)
  then set_old_to_old_slots (Some slot_set) chunk
  else set_old_to_new_slots (Some slot_set) chunk.

Definition Insert (direction : PointerDirection)
    (page : MemoryChunk.t) (slot_addr : Address)
  : Result MemoryChunk.t :=
  _ ← DCHECK (Contains page slot_addr);
  let '(page, slot_set) :=
    match GetSlotSet direction page with
    | None => AllocateSlotSet direction page
    | Some slot_set => (page, Some slot_set)
    end in
  slot_set ← deref slot_set;
  let offset := wrap64 (slot_addr - address page) in
  unit ← array_get slot_set (offset `div` kPageSize);
  slot_set ← array_set slot_set (offset `div` kPageSize)
               (SlotSet.Insert (offset `mod` kPageSize) unit);
  Ok (PutSlotSet direction page slot_set).

Definition Remove (direction : PointerDirection)
    (page : MemoryChunk.t) (slot_addr : Address)
  : Result MemoryChunk.t :=
  _ ← DCHECK (Contains page slot_addr);
  match GetSlotSet direction page with
  | None => Ok page
  | Some slot_set =>
      let offset := wrap64 (slot_addr - address page) in
      unit ← array_get slot_set (offset `div` kPageSize);
      slot_set ← array_set slot_set (offset `div` kPageSize)
                   (SlotSet.Remove (offset `mod` kPageSize) unit);
      Ok (PutSlotSet direction page slot_set)
  end.

(** [slot_set->RemoveRange(...)] is a call on the first element of the
    array. *)
Definition RemoveRange (direction : PointerDirection)
    (page : MemoryChunk.t) (start end_ : Address)
  : Result MemoryChunk.t :=
  match GetSlotSet direction page with
  | None => Ok page
  | Some slot_set =>
      let start_offset := wrap64 (start - address page) in
      let end_offset := wrap64 (end_ - address page) in
      _ ← DCHECK (start_offset <? end_offset);
      _ ← DCHECK (end_offset <=? wrap64 kPageSize);
      unit ← array_get slot_set 0;
      slot_set ← array_set slot_set 0
                   (SlotSet.RemoveRange (wrap32 start_offset)
                                        (wrap32 end_offset) unit);
      Ok (PutSlotSet direction page slot_set)
  end.

Section Iteration.
Context {S : Type}.
Variable callback : Address → S → Result (SlotCallbackResult * S).

(** [new_count += slots[page].Iterate(callback)]. *)
Definition iterate_page (st : list SlotSet.t * Z * S) (page : Z)
  : Result (list SlotSet.t * Z * S) :=
  let '(slots, new_count, s) := st in
  unit ← array_get slots page;
  '(n, unit, s) ← SlotSet.Iterate callback unit s;
  slots ← array_set slots page unit;
  new_count ← int_add new_count n;
  Ok (slots, new_count, s).

(** The body of the [while] loop, for one [chunk]. *)
Definition iterate_chunk (direction : PointerDirection)
    (chunk : MemoryChunk.t) (s : S)
  : Result (MemoryChunk.t * S) :=
  match GetSlotSet direction chunk with
  | None => Ok (chunk, s)
  | Some slots =>
      let pages :=
        wrap64 (size chunk + kPageSize - 1) `div` kPageSize in
      '(slots, new_count, s) ←
        foldM iterate_page (slots, 0, s) (seqZ 0 pages);
      let chunk := PutSlotSet direction chunk slots in
      if new_count =? 0
      then Ok (ReleaseSlotSet direction chunk, s)
      else Ok (chunk, s)
  end.

Definition Iterate (direction : PointerDirection)
    (heap : Heap) (s : S) : Result (Heap * S) :=
  let mode := if decide (direction = OLD_TO_OLD)
              then MemoryChunkIterator.ALL
              else MemoryChunkIterator.ALL_BUT_CODE_SPACE in
  '(cs, s) ← MemoryChunkIterator.for_each mode (iterate_chunk direction)
               (chunks heap) s;
  Ok (set_chunks cs heap, s).
End Iteration.

Section Wrapping.
Context {S : Type}.
(** [*slot]: the word that the memory of state [s] holds at an
    address. *)
Variable load : S → Address → Object.
(** [slot_callback(slot, target)], which may update the slot. *)
Variable slot_callback : Address → Object → S → S.

Definition Wrapper (direction : PointerDirection)
    (heap : Heap) (slot_address : Address) (s : S)
  : Result (SlotCallbackResult * S) :=
  _ ← STATIC_ASSERT (bool_decide (direction = OLD_TO_NEW));
  let slot := slot_address in
  let object := load s slot in
  if InFromSpace heap object then
    let heap_object := object in
    _ ← DCHECK (IsHeapObject heap_object);
    let s := slot_callback slot heap_object s in
    let object := load s slot in
    if InToSpace heap object
    then Ok (KEEP_SLOT, s)
    else Ok (REMOVE_SLOT, s)
  else
    _ ← DCHECK (negb (InNewSpace heap object));
    Ok (REMOVE_SLOT, s).

(** The lambda passed to [Iterate] calls [Wrapper], so instantiating
    [IterateWithWrapper] instantiates [Wrapper] and checks its
    [STATIC_ASSERT]. *)
Definition IterateWithWrapper (direction : PointerDirection)
    (heap : Heap) (s : S) : Result (Heap * S) :=
  _ ← STATIC_ASSERT (bool_decide (direction = OLD_TO_NEW));
  Iterate (λ addr, Wrapper direction heap addr) direction heap s.
End Wrapping.

Definition InsertTyped (direction : PointerDirection)
    (page : MemoryChunk.t) (slot_type : SlotType)
    (slot_addr : Address) : Result MemoryChunk.t :=
  _ ← STATIC_ASSERT (bool_decide (direction = OLD_TO_OLD));
  let '(page, slot_set) :=
    match typed_old_to_old_slots page with
    | None => let page := AllocateTypedOldToOldSlots page in
              (page, typed_old_to_old_slots page)
    | Some slot_set => (page, Some slot_set)
    end in
  let offset := wrap64 (slot_addr - address page) in
  _ ← DCHECK (offset <? wrap64 kMaxOffset);
  slot_set ← deref slot_set;
  Ok (set_typed_old_to_old_slots
        (Some (TypedSlotSet.Insert slot_type (wrap32 offset) slot_set))
        page).

Definition RemoveRangeTyped (direction : PointerDirection)
    (page : MemoryChunk.t) (start end_ : Address)
  : Result MemoryChunk.t :=
  match typed_old_to_old_slots page with
  | None => Ok page
  | Some slots =>
      '(_, slots, _) ←
        TypedSlotSet.Iterate
          (λ (slot_type : SlotType) (slot_addr : Address) (u : unit),
             Ok (if (start <=? slot_addr) && (slot_addr <? end_)
                 then REMOVE_SLOT else KEEP_SLOT, u))
          slots ();
      Ok (set_typed_old_to_old_slots (Some slots) page)
  end.

Section TypedIteration.
Context {S : Type}.
Variable callback :
  SlotType → Address → S → Result (SlotCallbackResult * S).

Definition iterate_typed_chunk (direction : PointerDirection)
    (chunk : MemoryChunk.t) (s : S)
  : Result (MemoryChunk.t * S) :=
  match typed_old_to_old_slots chunk with
  | None => Ok (chunk, s)
  | Some slots =>
      '(new_count, slots, s) ← TypedSlotSet.Iterate callback slots s;
      let chunk := set_typed_old_to_old_slots (Some slots) chunk in
      if new_count =? 0
      then Ok (ReleaseTypedOldToOldSlots chunk, s)
      else Ok (chunk, s)
  end.

Definition IterateTyped (direction : PointerDirection)
    (heap : Heap) (s : S) : Result (Heap * S) :=
  '(cs, s) ← MemoryChunkIterator.for_each
               MemoryChunkIterator.ALL_BUT_MAP_SPACE
               (iterate_typed_chunk direction) (chunks heap) s;
  Ok (set_chunks cs heap, s).
End TypedIteration.

Definition ClearAll (direction : PointerDirection)
    (heap : Heap) : Result Heap :=
  _ ← STATIC_ASSERT (bool_decide (direction = OLD_TO_OLD));
  '(cs, _) ← MemoryChunkIterator.for_each MemoryChunkIterator.ALL
               (λ chunk (u : unit),
                  let chunk := ReleaseOldToOldSlots chunk in
                  let chunk := ReleaseTypedOldToOldSlots chunk in
                  Ok (chunk, u))
               (chunks heap) ();
  Ok (set_chunks cs heap).
End Ops.
End RememberedSet.

(** ** Vocabulary of the statements about RememberedSet *)

(** One call of a callback during a scan: the address it was given, the
    state before the call, its answer and the state after the call. *)
Record Visit (S : Type) := mkVisit {
  visit_addr : Address;
  visit_pre : S;
  visit_result : SlotCallbackResult;
  visit_post : S;
}.
Arguments mkVisit {S} _ _ _ _.
Arguments visit_addr {S} _.
Arguments visit_pre {S} _.
Arguments visit_result {S} _.
Arguments visit_post {S} _.

(** [run callback s vs s']: starting in state [s], the callback was called
    on the addresses of [vs], in this order and on nothing else, each call
    starting in the state the previous one left, with the answers and
    states that [vs] lists; the last call left state [s']. *)
Fixpoint run {S : Type} (callback : Address → S → Result (SlotCallbackResult * S))
    (s : S) (vs : list (Visit S)) (s' : S) : Prop :=
  match vs with
  | [] => s' = s
  | v :: vs' =>
      visit_pre v = s
      ∧ callback (visit_addr v) s = Ok (visit_result v, visit_post v)
      ∧ run callback (visit_post v) vs' s'
  end.

(** The addresses for which the callback answered [KEEP_SLOT]. *)
Definition kept {S : Type} (vs : list (Visit S)) : list Address :=
  visit_addr <$> filter (λ v, visit_result v = KEEP_SLOT) vs.

(** A callback that cannot fail. *)
Definition infallible {S : Type} (callback : Address → S → SlotCallbackResult * S)
  : Address → S → Result (SlotCallbackResult * S) :=
  λ addr s, Ok (callback addr s).

Section Vocabulary.
Context `{Config}.
Import MemoryChunk.

(** The addresses of the slots recorded in a table, unit by unit. *)
Definition table_addresses (slots : option (list SlotSet.t)) : list Address :=
  match slots with
  | None => []
  | Some slots => slots ≫= SlotSet.addresses
  end.

(** The table that the remembered set of a direction has at a chunk:
    the field [old_to_old_slots] or the field [old_to_new_slots] of the
    chunk. The statements read the tables of a chunk from these fields,
    not through the accessors of [RememberedSet]. *)
Definition table (direction : PointerDirection) (chunk : MemoryChunk.t)
  : option (list SlotSet.t) :=
  match direction with
  | OLD_TO_OLD => old_to_old_slots chunk
  | OLD_TO_NEW => old_to_new_slots chunk
  end.

(** The addresses of the slots that the table of a direction holds for a
    chunk, in the order of the units of the table. *)
Definition recorded (direction : PointerDirection) (chunk : MemoryChunk.t)
  : list Address :=
  table_addresses (table direction chunk).

(** The scope of [Iterate]: all chunks for [OLD_TO_OLD], all but those of
    the code space for [OLD_TO_NEW]. *)
Definition scanned (direction : PointerDirection) (chunk : MemoryChunk.t)
  : bool :=
  MemoryChunkIterator.in_scope
    (if decide (direction = OLD_TO_OLD)
     then MemoryChunkIterator.ALL
     else MemoryChunkIterator.ALL_BUT_CODE_SPACE) chunk.

(** The shape of the table of a chunk, as allocation makes it and the
    operations keep it: one slot set per unit of the chunk, the i-th
    starting [i * kPageSize] bytes into the chunk and holding offsets
    inside its unit. *)
Definition table_shape (chunk : MemoryChunk.t) (slots : list SlotSet.t)
  : Prop :=
  SlotSet.page_start_ <$> slots
    = (λ i, address chunk + i * kPageSize) <$> seqZ 0 (pages chunk)
  ∧ Forall (λ ss, set_Forall (λ o, 0 ≤ o < kPageSize) (SlotSet.slots ss))
           slots.

(** A table that [Iterate] can scan: of that shape, and with so few
    slots that counting them in an [int] does not overflow. *)
Definition table_ok (chunk : MemoryChunk.t) (slots : list SlotSet.t) : Prop :=
  table_shape chunk slots
  ∧ Z.of_nat (length (slots ≫= SlotSet.addresses)) ≤ INT_MAX.

(** The size of a chunk is a [size_t], and rounding it up to whole units
    does not wrap around. *)
Definition chunk_fits (chunk : MemoryChunk.t) : Prop :=
  0 ≤ size chunk ∧ size chunk + kPageSize - 1 < 2 ^ 64.

Definition chunk_shaped (direction : PointerDirection)
    (chunk : MemoryChunk.t) : Prop :=
  match table direction chunk with
  | None => True
  | Some slots => table_shape chunk slots
  end.

Definition chunk_ok (direction : PointerDirection) (chunk : MemoryChunk.t)
  : Prop :=
  match table direction chunk with
  | None => True
  | Some slots => table_ok chunk slots
  end.

Definition heap_ok (direction : PointerDirection) (heap : Heap) : Prop :=
  Forall (chunk_ok direction) (chunks heap).

#[global] Instance table_ok_dec chunk slots : Decision (table_ok chunk slots).
Proof. unfold table_ok, table_shape. apply _. Defined.

#[global] Instance chunk_fits_dec chunk : Decision (chunk_fits chunk).
Proof. unfold chunk_fits. apply _. Defined.

#[global] Instance chunk_ok_dec direction chunk :
  Decision (chunk_ok direction chunk).
Proof. unfold chunk_ok. destruct (table _ _); apply _. Defined.

#[global] Instance heap_ok_dec direction heap :
  Decision (heap_ok direction heap).
Proof. unfold heap_ok. apply _. Defined.

(** The table of the other direction. *)
Definition other (direction : PointerDirection) : PointerDirection :=
  match direction with
  | OLD_TO_OLD => OLD_TO_NEW
  | OLD_TO_NEW => OLD_TO_OLD
  end.

(** What a scan of direction [direction] does to one chunk, [chunk]
    before and [chunk'] after, with [vs] the calls of the callback made
    for it. A chunk out of scope or without a table is left alone and
    the callback is not called. Otherwise the callback is called once on
    each recorded slot, the slots it keeps are those recorded afterwards,
    and the table is released exactly when it kept none. Nothing else of
    the chunk changes. *)
Definition chunk_scanned {S : Type} (direction : PointerDirection)
    (chunk chunk' : MemoryChunk.t) (vs : list (Visit S)) : Prop :=
  address chunk' = address chunk
  ∧ size chunk' = size chunk
  ∧ owner chunk' = owner chunk
  ∧ table (other direction) chunk' = table (other direction) chunk
  ∧ typed_old_to_old_slots chunk' = typed_old_to_old_slots chunk
  ∧ match (if scanned direction chunk
           then table direction chunk else None) with
    | None => chunk' = chunk ∧ vs = []
    | Some _ =>
        visit_addr <$> vs ≡ₚ recorded direction chunk
        ∧ recorded direction chunk' ≡ₚ kept vs
        ∧ (table direction chunk' = None ↔ length (kept vs) = 0%nat)
    end.

(** The addresses in the order in which a scan of direction [direction]
    over the chunks [cs] comes to them: chunk by chunk, the recorded
    slots of the chunks in scope. *)
Definition scan_order (direction : PointerDirection)
    (cs : list MemoryChunk.t) : list Address :=
  cs ≫= λ chunk,
    if scanned direction chunk then recorded direction chunk else [].

(** What [Wrapper] checks, in a debug build, of the word [o] that it
    finds in a slot: [DCHECK(heap_object->IsHeapObject())] when the word
    points into from-space, [DCHECK(!heap->InNewSpace(object))] when it
    does not. *)
Definition wrapper_checks (heap : Heap) (o : Object) : bool :=
  if InFromSpace heap o then IsHeapObject o else negb (InNewSpace heap o).
End Vocabulary.

(** How [Wrapper] treats the slot of a visit, with [load] reading the word
    stored at an address and [slot_callback] the relocation callback. If
    the word in the slot pointed into from-space before the visit, the
    callback was called with the slot and that word, and the answer is
    [KEEP_SLOT] exactly when the word in the slot after the call points
    into to-space. Otherwise the callback was not called, the state is
    unchanged, and the answer is [REMOVE_SLOT]. *)
Definition wrapped {S : Type} (load : S → Address → Object)
    (slot_callback : Address → Object → S → S) (heap : Heap) (v : Visit S)
  : Prop :=
  let object := load (visit_pre v) (visit_addr v) in
  if InFromSpace heap object then
    visit_post v = slot_callback (visit_addr v) object (visit_pre v)
    ∧ (visit_result v = KEEP_SLOT
       ↔ InToSpace heap (load (visit_post v) (visit_addr v)) = true)
  else
    visit_post v = visit_pre v ∧ visit_result v = REMOVE_SLOT.

(** ** Sample data for the examples

    A debug build with the page size of 1 MB, eight slot types and, so that
    a handful of records spans several nodes, [KB] taken as 1; and the same
    as a release build. *)
Definition sample_config : Config := {|
  DEBUG := true;
  KB := 1;
  kPageSize := 1048576;
  NUMBER_OF_SLOT_TYPES := 8;
  kMaxOffset := 536870912;
  IsHeapObject := λ o, Z.land o 3 =? 1;
|}.

Definition sample_release_config : Config := {|
  DEBUG := false;
  KB := 1;
  kPageSize := 1048576;
  NUMBER_OF_SLOT_TYPES := 8;
  kMaxOffset := 536870912;
  IsHeapObject := λ o, Z.land o 3 =? 1;
|}.

(** A page of the old space at 1 MB with three old-to-new slots, and a
    large-object chunk of two units at 4 MB without tables. *)
Definition sample_page : MemoryChunk.t := {|
  MemoryChunk.address := 1048576;
  MemoryChunk.size := 1048576;
  MemoryChunk.owner := MemoryChunk.OLD_SPACE;
  MemoryChunk.old_to_old_slots := None;
  MemoryChunk.old_to_new_slots :=
    Some [ {| SlotSet.page_start_ := 1048576;
              SlotSet.slots := {[ 16; 32; 48 ]} |} ];
  MemoryChunk.typed_old_to_old_slots := None;
|}.

Definition sample_large_page : MemoryChunk.t := {|
  MemoryChunk.address := 4194304;
  MemoryChunk.size := 2097152;
  MemoryChunk.owner := MemoryChunk.LO_SPACE;
  MemoryChunk.old_to_old_slots := None;
  MemoryChunk.old_to_new_slots := None;
  MemoryChunk.typed_old_to_old_slots := None;
|}.

(** A page of the old space with one typed old-to-old slot, of type 3 at
    offset 64. *)
Definition sample_typed_page : MemoryChunk.t := {|
  MemoryChunk.address := 8388608;
  MemoryChunk.size := 1048576;
  MemoryChunk.owner := MemoryChunk.OLD_SPACE;
  MemoryChunk.old_to_old_slots := None;
  MemoryChunk.old_to_new_slots := None;
  MemoryChunk.typed_old_to_old_slots :=
    Some {| TypedSlotSet.page_start_ := 8388608;
            TypedSlotSet.slots := [(3, 64)] |};
|}.

(** A heap whose from-space holds two objects and whose to-space holds
    one. *)
Definition sample_in_from_space (o : Object) : bool :=
  (o =? 104857601) || (o =? 104857665).
Definition sample_in_to_space (o : Object) : bool :=
  o =? 105906177.

Definition sample_heap : Heap := {|
  chunks := [sample_page; sample_large_page];
  InFromSpace := sample_in_from_space;
  InToSpace := sample_in_to_space;
  InNewSpace := λ o, sample_in_from_space o || sample_in_to_space o;
|}.

Definition sample_typed_heap : Heap := {|
  chunks := [sample_typed_page];
  InFromSpace := sample_in_from_space;
  InToSpace := sample_in_to_space;
  InNewSpace := λ o, sample_in_from_space o || sample_in_to_space o;
|}.

(** A memory in which the first slot of [sample_page] points to a
    from-space object that survives, the second to an old object and the
    third to a from-space object that dies; a relocation callback that
    moves the survivor to to-space and updates the slot. *)
Definition sample_memory : gmap Z Z :=
  {[ 1048592 := 104857601; 1048608 := 2097153; 1048624 := 104857665 ]}.

Definition sample_load (m : gmap Z Z) (a : Address) : Object :=
  default 0 (m !! a).

Definition sample_relocate (slot : Address) (target : Object) (m : gmap Z Z)
  : gmap Z Z :=
  if target =? 104857601 then <[slot := 105906177]> m else m.

(** A memory in which the first slot of [sample_page] already points to
    the object in to-space. *)
Definition sample_memory_to_space : gmap Z Z :=
  {[ 1048592 := 105906177; 1048608 := 2097153; 1048624 := 104857665 ]}.

(** Records for the examples: a few of both kinds; and fifteen untyped
    records followed by a typed one, which does not fit into what is left
    of a node of sixteen words. *)
Definition sample_records : list LocalSlotsBuffer.SlotRecord :=
  [LocalSlotsBuffer.Untyped 100; LocalSlotsBuffer.Typed 3 200;
   LocalSlotsBuffer.Untyped 300].

Definition sample_full_node_records : list LocalSlotsBuffer.SlotRecord :=
  (LocalSlotsBuffer.Untyped <$> seqZ 100 15)
  ++ [LocalSlotsBuffer.Typed 3 200].

(** A decidable proposition about sample data, by evaluation. *)
Ltac by_computation := apply (bool_decide_unpack _); vm_compute; exact I.

(** ** Vocabulary of the statements about the typed table *)

(** One call of the callback of [IterateTyped]: the type and the address
    it was given, the state before the call, its answer and the state
    after the call. *)
Record TypedVisit (S : Type) := mkTypedVisit {
  tvisit_type : SlotType;
  tvisit_addr : Address;
  tvisit_pre : S;
  tvisit_result : SlotCallbackResult;
  tvisit_post : S;
}.
Arguments mkTypedVisit {S} _ _ _ _ _.
Arguments tvisit_type {S} _.
Arguments tvisit_addr {S} _.
Arguments tvisit_pre {S} _.
Arguments tvisit_result {S} _.
Arguments tvisit_post {S} _.

Definition tvisit_slot {S : Type} (v : TypedVisit S) : SlotType * Address :=
  (tvisit_type v, tvisit_addr v).

(** [run_typed callback s vs s']: as [run], for a callback on typed
    slots. *)
Fixpoint run_typed {S : Type}
    (callback : SlotType → Address → S → Result (SlotCallbackResult * S))
    (s : S) (vs : list (TypedVisit S)) (s' : S) : Prop :=
  match vs with
  | [] => s' = s
  | v :: vs' =>
      tvisit_pre v = s
      ∧ callback (tvisit_type v) (tvisit_addr v) s
        = Ok (tvisit_result v, tvisit_post v)
      ∧ run_typed callback (tvisit_post v) vs' s'
  end.

(** The typed slots for which the callback answered [KEEP_SLOT], in the
    order of the calls. *)
Definition kept_typed {S : Type} (vs : list (TypedVisit S))
  : list (SlotType * Address) :=
  tvisit_slot <$> filter (λ v, tvisit_result v = KEEP_SLOT) vs.

Definition infallible_typed {S : Type}
    (callback : SlotType → Address → S → SlotCallbackResult * S)
  : SlotType → Address → S → Result (SlotCallbackResult * S) :=
  λ type addr s, Ok (callback type addr s).

(** The typed slots that a chunk holds, each with its type and its
    address, in the order of the table. *)
Definition recorded_typed (chunk : MemoryChunk.t)
  : list (SlotType * Address) :=
  match MemoryChunk.typed_old_to_old_slots chunk with
  | None => []
  | Some slots => TypedSlotSet.addresses slots
  end.

(** The typed table of a chunk, if it has one, is the one allocated for
    it: its offsets count from the start of the chunk. *)
Definition typed_shaped (chunk : MemoryChunk.t) : Prop :=
  match MemoryChunk.typed_old_to_old_slots chunk with
  | None => True
  | Some slots => TypedSlotSet.page_start_ slots = MemoryChunk.address chunk
  end.

#[global] Instance typed_shaped_dec chunk : Decision (typed_shaped chunk).
Proof.
  unfold typed_shaped.
  destruct (MemoryChunk.typed_old_to_old_slots chunk); apply _.
Defined.

#[global] Instance chunk_shaped_dec `{Config} direction chunk :
  Decision (chunk_shaped direction chunk).
Proof.
  unfold chunk_shaped, table_shape.
  destruct (table _ _); apply _.
Defined.

(** What [IterateTyped] does to one chunk, [chunk] before and [chunk']
    after, with [vs] the calls of the callback made for it. A chunk of
    the map space or without a typed table is left alone and the callback
    is not called. Otherwise the callback is called on the typed slots of
    the chunk in the order of the table, the slots it keeps are those
    recorded afterwards, in the same order, and the table is released
    exactly when it kept none. Nothing else of the chunk changes. *)
Definition typed_chunk_scanned {S : Type}
    (chunk chunk' : MemoryChunk.t) (vs : list (TypedVisit S)) : Prop :=
  MemoryChunk.address chunk' = MemoryChunk.address chunk
  ∧ MemoryChunk.size chunk' = MemoryChunk.size chunk
  ∧ MemoryChunk.owner chunk' = MemoryChunk.owner chunk
  ∧ MemoryChunk.old_to_old_slots chunk' = MemoryChunk.old_to_old_slots chunk
  ∧ MemoryChunk.old_to_new_slots chunk' = MemoryChunk.old_to_new_slots chunk
  ∧ match (if MemoryChunkIterator.in_scope
                MemoryChunkIterator.ALL_BUT_MAP_SPACE chunk
           then MemoryChunk.typed_old_to_old_slots chunk else None) with
    | None => chunk' = chunk ∧ vs = []
    | Some _ =>
        tvisit_slot <$> vs = recorded_typed chunk
        ∧ recorded_typed chunk' = kept_typed vs
        ∧ (MemoryChunk.typed_old_to_old_slots chunk' = None
           ↔ kept_typed vs = [])
    end.

(** ** Vocabulary of the statements about the nodes of a buffer *)

(** The number of words that a list of records takes, and the number of
    words in use in the nodes of a buffer. *)
Definition record_words (rs : list LocalSlotsBuffer.SlotRecord) : Z :=
  foldr (λ r k, LocalSlotsBuffer.record_size r + k) 0 rs.

Definition used_words (nodes : list LocalSlotsBuffer.Node) : Z :=
  foldr (λ n k, LocalSlotsBuffer.count n + k) 0 nodes.

(** ** More sample data *)

(** [sample_large_page] with one old-to-new slot, 50 bytes into its
    second unit. *)
Definition sample_two_unit_chunk : MemoryChunk.t :=
  MemoryChunk.set_old_to_new_slots
    (Some [ {| SlotSet.page_start_ := 4194304; SlotSet.slots := ∅ |};
            {| SlotSet.page_start_ := 5242880; SlotSet.slots := {[ 50 ]} |} ])
    sample_large_page.

(** A map-space page with a typed slot, which [IterateTyped] does not
    visit, and a heap with it and [sample_typed_page]. *)
Definition sample_map_page : MemoryChunk.t := {|
  MemoryChunk.address := 12582912;
  MemoryChunk.size := 1048576;
  MemoryChunk.owner := MemoryChunk.MAP_SPACE;
  MemoryChunk.old_to_old_slots := None;
  MemoryChunk.old_to_new_slots := None;
  MemoryChunk.typed_old_to_old_slots :=
    Some {| TypedSlotSet.page_start_ := 12582912;
            TypedSlotSet.slots := [(1, 8)] |};
|}.

Definition sample_typed_heap2 : Heap := {|
  chunks := [sample_map_page; sample_typed_page];
  InFromSpace := sample_in_from_space;
  InToSpace := sample_in_to_space;
  InNewSpace := λ o, sample_in_from_space o || sample_in_to_space o;
|}.

(** * Properties *)

(** ** The result monad and its loops *)

Section ResultFacts.
Context {A B : Type}.

Lemma foldM_app (f : B → A → Result B) (b : B) (l1 l2 : list A) :
  foldM f b (l1 ++ l2) = (b' ← foldM f b l1; foldM f b' l2).
Proof.
  revert b. induction l1 as [|a l1 IH]; intros b; simpl; [done|].
  destruct (f b a) as [b'|e]; simpl; [apply IH | done].
Qed.
End ResultFacts.

Lemma Forall_join_inv {A} (P : A → Prop) (ls : list (list A)) :
  Forall P (mjoin ls) → Forall (Forall P) ls.
Proof.
  induction ls as [|l ls IH]; [constructor|].
  simpl. intros [Hl Hls]%Forall_app. constructor; auto.
Qed.

Section ArrayFacts.
Context `{Config} {A B : Type}.

Lemma array_get_lookup (a : list A) (i : nat) (x : A) :
  a !! i = Some x → array_get a (Z.of_nat i) = Ok x.
Proof.
  intros Hx. unfold array_get. rewrite bool_decide_true by lia.
  by rewrite Nat2Z.id, Hx.
Qed.

Lemma array_set_insert (a : list A) (i : nat) (x : A) :
  (i < length a)%nat → array_set a (Z.of_nat i) x = Ok (<[i := x]> a).
Proof.
  intros Hi. unfold array_set. rewrite bool_decide_true by lia.
  by rewrite Nat2Z.id.
Qed.

(** A loop that reads [a[m]], ..., [a[m+k-1]] in turn folds over that
    segment of the array. *)
Lemma foldM_array_get (f : B → A → Result B) (a : list A) (k m : nat) (b : B) :
  (m + k ≤ length a)%nat →
  foldM (λ b i, x ← array_get a i; f b x) b
        (seqZ (Z.of_nat m) (Z.of_nat k))
  = foldM f b (take k (drop m a)).
Proof.
  revert m b. induction k as [|k IH]; intros m b Hlen; [done|].
  rewrite seqZ_cons by lia.
  destruct (lookup_lt_is_Some_2 a m) as [x Hx]; [lia|].
  rewrite (drop_S _ _ _ Hx). simpl.
  rewrite (array_get_lookup _ _ _ Hx). simpl.
  destruct (f b x) as [b'|e]; simpl; [|done].
  replace (Z.succ (Z.of_nat m)) with (Z.of_nat (S m)) by lia.
  replace (Z.pred (Z.of_nat (S k))) with (Z.of_nat k) by lia.
  apply IH. lia.
Qed.
End ArrayFacts.

(** ** LocalSlotsBuffer: what a buffer holds after a sequence of [Record] *)

Section LocalSlotsBufferFacts.
Import LocalSlotsBuffer.
Context `{Config}.
Hypothesis KB_pos : 0 < KB.

Lemma kBufferSize_ge : 16 ≤ kBufferSize.
Proof. unfold kBufferSize. lia. Qed.

Lemma new_Node_holds : node_holds new_Node [].
Proof.
  pose proof kBufferSize_ge. unfold node_holds, new_Node. simpl.
  rewrite length_replicate. repeat split; lia.
Qed.

Lemma create_holds : chain_holds create [[]].
Proof.
  split; [|done]. unfold create. simpl.
  constructor; [apply new_Node_holds | constructor].
Qed.

(** [Insert] into a node with a free word appends the entry to the words
    in use and touches nothing else. *)
Lemma Insert_spec (entry : Z) (n : Node) (rest : list Node) :
  length (buffer n) = Z.to_nat kBufferSize →
  0 ≤ count n < kBufferSize →
  ∃ n', Insert entry {| top_ := n :: rest |} = Ok {| top_ := n' :: rest |}
        ∧ length (buffer n') = Z.to_nat kBufferSize
        ∧ count n' = count n + 1
        ∧ entries n' = entries n ++ [entry].
Proof.
  intros Hlen Hcount. unfold Insert. simpl.
  unfold array_set. rewrite bool_decide_true by lia. simpl.
  eexists. split; [done|]. simpl.
  rewrite length_insert. repeat split; [done|].
  unfold entries. simpl.
  replace (Z.to_nat (count n + 1)) with (Datatypes.S (Z.to_nat (count n))) by lia.
  rewrite (take_S_r _ _ entry).
  - by rewrite take_insert_ge.
  - apply list_lookup_insert_eq. lia.
Qed.

Lemma valid_record_Untyped (addr : Address) :
  valid_record (Untyped addr) = true → (NUMBER_OF_SLOT_TYPES <=? addr) = true.
Proof. done. Qed.

Lemma valid_record_Typed (type : SlotType) (addr : Address) :
  valid_record (Typed type addr) = true →
  0 ≤ type < NUMBER_OF_SLOT_TYPES ∧ (NUMBER_OF_SLOT_TYPES <=? addr) = true.
Proof. unfold valid_record. intros Hv. repeat split; lia. Qed.

Lemma DCHECK_true : DCHECK true = Ok ().
Proof. unfold DCHECK. by rewrite andb_false_r. Qed.

(** One call of [Record]: either the head node had room and the record
    is appended to it, or a new head node is allocated and holds just
    this record. The nodes behind the head are not touched. *)
Lemma record_spec (b : t) (rss : list (list SlotRecord)) (r : SlotRecord) :
  chain_holds b rss →
  valid_record r = true →
  ∃ n rest rs rss0 n',
    top_ b = n :: rest ∧ rss = rs :: rss0
    ∧ ((EnsureSpaceFor (record_size r) b = Ok b
        ∧ record_size r ≤ remaining_free_slots n
        ∧ record b r = Ok {| top_ := n' :: rest |}
        ∧ node_holds n' (rs ++ [r])
        ∧ entries n' = entries n ++ encode r)
       ∨ (EnsureSpaceFor (record_size r) b
            = Ok {| top_ := new_Node :: n :: rest |}
          ∧ record b r = Ok {| top_ := n' :: n :: rest |}
          ∧ node_holds n' [r]
          ∧ entries n' = encode r)).
Proof.
  pose proof kBufferSize_ge as Hk.
  intros [Hchain Hne] Hvalid. destruct b as [nodes]. simpl in *.
  destruct Hchain as [|n rs rest rss0 (Hlen & Hcnt & Hent) Hrest]; [done|].
  exists n, rest, rs, rss0.
  destruct r as [addr|type addr]; simpl.
  - apply valid_record_Untyped in Hvalid.
    unfold RecordAddress, EnsureSpaceFor, remaining_free_slots. simpl.
    destruct (Z.ltb_spec (kBufferSize - count n) 1) as [Hfull|Hroom]; simpl.
    + destruct (Insert_spec addr new_Node (n :: rest))
        as (n' & HI & Hlen' & Hcnt' & Hent');
        [apply new_Node_holds | simpl; lia |].
      exists n'. do 2 (split; [done|]). right. rewrite Hvalid, DCHECK_true. simpl.
      split; [done|]. split; [done|]. simpl in *.
      split; [|by rewrite Hent'].
      split; [done|]. split; [lia|]. fold (entries n'). by rewrite Hent'.
    + destruct (Insert_spec addr n rest)
        as (n' & HI & Hlen' & Hcnt' & Hent'); [done | lia |].
      exists n'. do 2 (split; [done|]). left. rewrite Hvalid, DCHECK_true. simpl.
      split; [done|]. split; [lia|]. split; [done|].
      split; [|done].
      split; [done|]. split; [lia|]. fold (entries n').
      rewrite Hent', bind_app. unfold entries. by rewrite Hent.
  - apply valid_record_Typed in Hvalid as [Htype Haddr].
    unfold RecordTyped, EnsureSpaceFor, remaining_free_slots. simpl.
    destruct (Z.ltb_spec (kBufferSize - count n) 2) as [Hfull|Hroom]; simpl.
    + destruct (Insert_spec type new_Node (n :: rest))
        as (n1 & HI1 & Hlen1 & Hcnt1 & Hent1);
        [apply new_Node_holds | simpl; lia |].
      destruct (Insert_spec addr n1 (n :: rest))
        as (n' & HI & Hlen' & Hcnt' & Hent');
        [done | simpl in *; lia |].
      exists n'. do 2 (split; [done|]). right. rewrite HI1. simpl. rewrite Haddr, DCHECK_true. simpl.
      simpl in *. split; [done|]. split; [done|].
      assert (entries n' = [type; addr]) as Hall
        by (by rewrite Hent', Hent1).
      split; [|done].
      split; [done|]. split; [lia|]. by fold (entries n').
    + destruct (Insert_spec type n rest)
        as (n1 & HI1 & Hlen1 & Hcnt1 & Hent1); [done | lia |].
      destruct (Insert_spec addr n1 rest)
        as (n' & HI & Hlen' & Hcnt' & Hent'); [done | lia |].
      exists n'. do 2 (split; [done|]). left. rewrite HI1. simpl. rewrite Haddr, DCHECK_true. simpl.
      split; [done|]. split; [lia|]. split; [done|].
      assert (entries n' = entries n ++ [type; addr]) as Hall
        by (by rewrite Hent', Hent1, <- app_assoc).
      split; [|done].
      split; [done|]. split; [lia|]. fold (entries n').
      rewrite Hall, bind_app. unfold entries. by rewrite Hent.
Qed.

Lemma forallb_valid (rs : list SlotRecord) :
  forallb valid_record rs = true → Forall (λ r, valid_record r = true) rs.
Proof.
  induction rs as [|r rs IH]; simpl; [constructor|].
  intros [Hr Hrs]%andb_prop. constructor; auto.
Qed.

(** A sequence of calls of [Record] on a buffer that holds [rss]: every
    call returns, and read from the oldest node to the newest the buffer
    then holds the old records followed by the new ones. *)
Lemma record_all_spec (rs : list SlotRecord) (b : t)
    (rss : list (list SlotRecord)) :
  chain_holds b rss →
  Forall (λ r, valid_record r = true) rs →
  ∃ b' rss', record_all rs b = Ok b' ∧ chain_holds b' rss'
             ∧ mjoin (reverse rss') = mjoin (reverse rss) ++ rs.
Proof.
  intros Hb Hrs. revert b rss Hb.
  induction Hrs as [|r rs Hr Hrs IH]; intros b rss Hb.
  - exists b, rss. by rewrite app_nil_r.
  - destruct (record_spec b rss r Hb Hr)
      as (n & rest & rs0 & rss0 & n' & Htop & -> & Hcase).
    destruct Hb as [Hb _]. rewrite Htop in Hb.
    apply Forall2_cons in Hb as [Hn Hrest].
    unfold record_all. simpl. fold (record_all rs).
    destruct Hcase as [(_ & _ & -> & Hn' & _)|(_ & -> & Hn' & _)]; simpl.
    + destruct (IH {| top_ := n' :: rest |} ((rs0 ++ [r]) :: rss0))
        as (b' & rss' & Hrec & Hb' & Hjoin).
      { split; [|done]. by constructor. }
      exists b', rss'. split; [done|]. split; [done|].
      rewrite Hjoin, !reverse_cons, !join_app. simpl.
      rewrite !app_nil_r, <- !app_assoc. reflexivity.
    + destruct (IH {| top_ := n' :: n :: rest |} ([r] :: rs0 :: rss0))
        as (b' & rss' & Hrec & Hb' & Hjoin).
      { split; [|done]. simpl. constructor; [done|]. by constructor. }
      exists b', rss'. split; [done|]. split; [done|].
      rewrite Hjoin, !reverse_cons, !join_app. simpl.
      rewrite !app_nil_r, <- !app_assoc. reflexivity.
Qed.

Section Iteration.
Context {S : Type}.
Variable ucb : Address → S → S.
Variable tcb : SlotType → Address → S → S.

(** Decoding the words of one record from a cursor with no pending tag
    dispatches the record and leaves no pending tag. *)
Lemma decode_record (c : Cursor S) (r : SlotRecord) :
  valid_record r = true → typed c = false →
  ∃ c', foldM (decode ucb tcb) c (encode r) = Ok c'
        ∧ typed c' = false ∧ acc c' = dispatch ucb tcb (acc c) r.
Proof.
  intros Hvalid Htyped. destruct r as [addr|type addr]; simpl.
  - apply valid_record_Untyped in Hvalid. unfold decode.
    destruct (Z.ltb_spec addr NUMBER_OF_SLOT_TYPES); [lia|].
    rewrite Htyped. simpl. eexists. split; [done|]. by simpl.
  - apply valid_record_Typed in Hvalid as [Htype Haddr]. unfold decode.
    destruct (Z.ltb_spec type NUMBER_OF_SLOT_TYPES); [|lia].
    rewrite Htyped. simpl. rewrite DCHECK_true. simpl.
    destruct (Z.ltb_spec addr NUMBER_OF_SLOT_TYPES); [lia|].
    eexists. split; [done|]. by simpl.
Qed.

Lemma decode_records (c : Cursor S) (rs : list SlotRecord) :
  Forall (λ r, valid_record r = true) rs → typed c = false →
  ∃ c', foldM (decode ucb tcb) c (rs ≫= encode) = Ok c'
        ∧ typed c' = false
        ∧ acc c' = foldl (dispatch ucb tcb) (acc c) rs.
Proof.
  intros Hrs. revert c. induction Hrs as [|r rs Hr Hrs IH]; intros c Hc.
  - exists c. by simpl.
  - rewrite bind_cons, foldM_app.
    destruct (decode_record c r Hr Hc) as (c1 & -> & Hc1 & Hacc1). simpl.
    destruct (IH c1 Hc1) as (c' & -> & Hc' & Hacc').
    exists c'. split; [done|]. split; [done|]. simpl. by rewrite <- Hacc1.
Qed.

Lemma iterate_node_entries (c : Cursor S) (n : Node) :
  0 ≤ count n ≤ Z.of_nat (length (buffer n)) →
  iterate_node ucb tcb c n = foldM (decode ucb tcb) c (entries n).
Proof.
  intros Hcount. unfold iterate_node, entries.
  rewrite <- (Z2Nat.id (count n)) at 1 by lia.
  change 0 with (Z.of_nat 0) at 1.
  rewrite (foldM_array_get (decode ucb tcb)) by (simpl; lia).
  by rewrite drop_0.
Qed.

Lemma iterate_node_spec (c : Cursor S) (n : Node) (rs : list SlotRecord) :
  node_holds n rs →
  Forall (λ r, valid_record r = true) rs → typed c = false →
  ∃ c', iterate_node ucb tcb c n = Ok c'
        ∧ typed c' = false
        ∧ acc c' = foldl (dispatch ucb tcb) (acc c) rs.
Proof.
  intros (Hlen & Hcnt & Hent) Hrs Hc.
  rewrite iterate_node_entries by lia. unfold entries. rewrite Hent.
  by apply decode_records.
Qed.

Lemma iterate_nodes_spec (c : Cursor S) (nodes : list Node)
    (rss : list (list SlotRecord)) :
  Forall2 node_holds nodes rss →
  Forall (λ r, valid_record r = true) (mjoin rss) → typed c = false →
  ∃ c', foldM (iterate_node ucb tcb) c nodes = Ok c'
        ∧ typed c' = false
        ∧ acc c' = foldl (dispatch ucb tcb) (acc c) (mjoin rss).
Proof.
  intros Hnodes. revert c.
  induction Hnodes as [|n rs nodes rss Hn Hnodes IH]; intros c Hrs Hc.
  - exists c. by simpl.
  - simpl in Hrs. apply Forall_app in Hrs as [Hrs Hrss]. simpl.
    destruct (iterate_node_spec c n rs Hn Hrs Hc)
      as (c1 & -> & Hc1 & Hacc1). simpl.
    destruct (IH c1 Hrss Hc1) as (c' & -> & Hc' & Hacc').
    exists c'. split; [done|]. split; [done|].
    by rewrite foldl_app, <- Hacc1.
Qed.

Lemma Iterate_spec (b : t) (rss : list (list SlotRecord)) (s : S) :
  chain_holds b rss →
  Forall (λ r, valid_record r = true) (mjoin rss) →
  Iterate ucb tcb b s = Ok (foldl (dispatch ucb tcb) s (mjoin rss)).
Proof.
  intros [Hb _] Hrss. unfold Iterate, iterate_chain.
  destruct (iterate_nodes_spec (mkCursor false 0 s) (top_ b) rss Hb Hrss)
    as (c' & -> & _ & Hacc); [done|].
  simpl. by rewrite Hacc.
Qed.
End Iteration.

Lemma join_reverse_Permutation {A} (ls : list (list A)) :
  mjoin ls ≡ₚ mjoin (reverse ls).
Proof. by rewrite reverse_Permutation. Qed.

(** The words of valid records: a marker is always followed by the
    address recorded with it. *)
Lemma encode_markers_paired (rs : list SlotRecord) :
  Forall (λ r, valid_record r = true) rs → markers_paired (rs ≫= encode).
Proof.
  induction 1 as [|r rs Hr Hrs IH]; intros i e Hi He; [done|].
  rewrite bind_cons in Hi |- *. unfold is_marker in *.
  destruct r as [addr|type addr]; simpl in *.
  - apply valid_record_Untyped in Hr.
    destruct i as [|i]; simpl in *; [simplify_eq; lia|].
    by apply (IH i e).
  - apply valid_record_Typed in Hr as [Htype Haddr].
    destruct i as [|[|i]]; simpl in *.
    + exists addr. split; [done|]. lia.
    + simplify_eq. lia.
    + by apply (IH i e).
Qed.

(** What is known of a buffer reached from the fresh one by valid calls
    of [Record]. *)
Lemma reachable_spec (rs : list SlotRecord) :
  forallb valid_record rs = true →
  ∃ b rss, record_all rs create = Ok b ∧ chain_holds b rss
           ∧ mjoin (reverse rss) = rs
           ∧ Forall (λ r, valid_record r = true) (mjoin rss).
Proof.
  intros Hrs%forallb_valid.
  destruct (record_all_spec rs create [[]] create_holds Hrs)
    as (b & rss & Hrec & Hb & Hjoin).
  exists b, rss. simpl in Hjoin. split; [done|]. split; [done|].
  split; [done|]. by rewrite join_reverse_Permutation, Hjoin.
Qed.

Lemma chain_holds_stream (b : t) (rss : list (list SlotRecord)) :
  chain_holds b rss → stream b = mjoin rss ≫= encode.
Proof.
  intros [Hb _]. unfold stream.
  induction Hb as [|n rs nodes rss (_ & _ & Hent) _ IH]; [done|].
  rewrite bind_cons. change (mjoin (rs :: rss)) with (rs ++ mjoin rss).
  rewrite bind_app, <- IH. unfold entries. by rewrite Hent.
Qed.

Lemma node_holds_length (n : Node) (rs : list SlotRecord) :
  node_holds n rs → Z.of_nat (length (rs ≫= encode)) = count n.
Proof.
  intros (Hlen & Hcnt & Hent). rewrite <- Hent, length_take. lia.
Qed.

Lemma dispatch_untyped {S} (ucb : Address → S → S)
    (tcb : SlotType → Address → S → S) (s : S) (addrs : list Address) :
  foldl (dispatch ucb tcb) s (Untyped <$> addrs)
  = foldl (λ s a, ucb a s) s addrs.
Proof. by rewrite foldl_fmap. Qed.

Lemma untyped_records (rs : list SlotRecord) :
  Forall is_untyped rs → Untyped <$> (record_addr <$> rs) = rs.
Proof.
  induction 1 as [|[addr|type addr] rs Hr Hrs IH]; [done| |done].
  rewrite !fmap_cons. simpl. by rewrite IH.
Qed.

(** ** LocalSlotsBuffer: the claims *)

(** C3: after N calls of the untyped [Record(address)] on a fresh buffer,
    with addresses that satisfy its precondition, [Iterate] calls the
    untyped callback exactly once for each recorded address (N times, on
    a permutation of the recorded addresses) and never calls the typed
    callback; nothing is lost when N exceeds the capacity of a node, in
    which case the chain has more than one node. *)
Theorem Record_untyped_Iterate (addrs : list Address) :
  forallb (λ a, NUMBER_OF_SLOT_TYPES <=? a) addrs = true →
  ∃ b visited,
    record_all (Untyped <$> addrs) create = Ok b
    ∧ visited ≡ₚ addrs
    ∧ length visited = length addrs
    ∧ (∀ (S : Type) (ucb : Address → S → S)
         (tcb : SlotType → Address → S → S) (s : S),
         Iterate ucb tcb b s = Ok (foldl (λ s a, ucb a s) s visited))
    ∧ (kBufferSize < Z.of_nat (length addrs) → (1 < length (top_ b))%nat).
Proof.
  intros Haddrs.
  destruct (reachable_spec (Untyped <$> addrs))
    as (b & rss & Hrec & Hb & Hjoin & Hvalid).
  { clear -Haddrs. induction addrs as [|a addrs IH]; [done|]. simpl in *.
    apply andb_prop in Haddrs as [-> ?]. auto. }
  assert (mjoin rss ≡ₚ Untyped <$> addrs) as Hperm
    by (by rewrite join_reverse_Permutation, Hjoin).
  assert (record_addr <$> mjoin rss ≡ₚ addrs) as Hpv.
  { rewrite Hperm, <- list_fmap_compose. by rewrite list_fmap_id. }
  assert (Untyped <$> (record_addr <$> mjoin rss) = mjoin rss) as Hvis.
  { apply untyped_records. rewrite Hperm. by apply Forall_fmap, Forall_true. }
  exists b, (record_addr <$> mjoin rss). split; [done|]. split; [done|].
  split; [by rewrite Hpv|]. split.
  - intros S ucb tcb s. rewrite (Iterate_spec ucb tcb b rss) by done.
    by rewrite <- Hvis at 1; rewrite dispatch_untyped.
  - intros Hmany. destruct Hb as [Hb Hne].
    destruct (top_ b) as [|n [|n' nodes]] eqn:Htop; simpl; [| |lia].
    + by inversion Hb; subst.
    + exfalso. inversion Hb as [|? rs0 ? ? Hn Hrest]; subst.
      inversion Hrest; subst. simpl in Hjoin.
      rewrite app_nil_r in Hjoin. subst rs0.
      apply node_holds_length in Hn as Hcount.
      destruct Hn as (_ & Hcnt & _).
      assert (length ((Untyped <$> addrs) ≫= encode) = length addrs) as Hl.
      { clear. induction addrs as [|a addrs IH]; [done|].
        rewrite fmap_cons, bind_cons. simpl. by rewrite IH. }
      lia.
Qed.

(** C4: after any sequence of valid calls of [Record], typed and untyped
    interleaved, a further [Record(type, addr)] puts the tag marker and,
    directly after it, the address into the entry stream and changes
    nothing else of it; in the stream every tag marker is directly
    followed by an address, so no two markers are adjacent; and [Iterate]
    dispatches exactly the recorded records, each once and with its own
    values: a typed pair to the typed callback, an untyped address to the
    untyped one. *)
Theorem Record_typed_pairs_Iterate (rs : list SlotRecord) :
  forallb valid_record rs = true →
  ∃ b visited,
    record_all rs create = Ok b
    ∧ (∀ type addr, valid_record (Typed type addr) = true →
         ∃ b' pre post,
           RecordTyped type addr b = Ok b'
           ∧ stream b = pre ++ post
           ∧ stream b' = pre ++ [type; addr] ++ post)
    ∧ markers_paired (stream b)
    ∧ (∀ (i : nat) e1 e2,
         stream b !! i = Some e1 → stream b !! Datatypes.S i = Some e2 →
         ¬ (is_marker e1 = true ∧ is_marker e2 = true))
    ∧ visited ≡ₚ rs
    ∧ (∀ (S : Type) (ucb : Address → S → S)
         (tcb : SlotType → Address → S → S) (s : S),
         Iterate ucb tcb b s = Ok (foldl (dispatch ucb tcb) s visited)).
Proof.
  intros Hrs.
  destruct (reachable_spec rs Hrs) as (b & rss & Hrec & Hb & Hjoin & Hvalid).
  assert (markers_paired (stream b)) as Hpaired.
  { rewrite (chain_holds_stream b rss Hb). by apply encode_markers_paired. }
  exists b, (mjoin rss). split; [done|]. split; [|split; [done|split]].
  - intros type addr Hr.
    destruct (record_spec b rss (Typed type addr) Hb Hr)
      as (n & rest & rs0 & rss0 & n' & Htop & _ & Hcase).
    unfold stream. rewrite Htop. simpl in Hcase.
    destruct Hcase as [(_ & _ & -> & _ & Hent)|(_ & -> & _ & Hent)].
    + exists {| top_ := n' :: rest |}, (entries n), (rest ≫= entries).
      split; [done|]. split; [by rewrite bind_cons|].
      cbn [top_]. rewrite !bind_cons, Hent. by rewrite <- !app_assoc.
    + exists {| top_ := n' :: n :: rest |}, [], ((n :: rest) ≫= entries).
      split; [done|]. split; [done|].
      cbn [top_]. by rewrite (bind_cons _ n'), Hent.
  - intros i e1 e2 H1 H2 [Hm1 Hm2].
    destruct (Hpaired i e1 H1 Hm1) as (a & Ha & Hna). congruence.
  - split; [by rewrite join_reverse_Permutation, Hjoin|].
    intros S ucb tcb s. by apply Iterate_spec.
Qed.

(** C9: after any sequence of valid calls of [Record], a further
    [Record(type, addr)] first makes sure the head node has two free
    words and then stores the tag marker and the address, in this order,
    in that one node; hence in every node of the chain a tag marker is
    directly followed by its address inside the same node (it is never
    the last word in use of a node), and [Iterate], which walks the
    chain from [top_], has no pending tag when it moves from one node to
    the next. *)
Theorem typed_pair_in_one_node (rs : list SlotRecord) :
  forallb valid_record rs = true →
  ∃ b,
    record_all rs create = Ok b
    ∧ (∀ type addr, valid_record (Typed type addr) = true →
         ∃ n1 rest n',
           EnsureSpaceFor 2 b = Ok {| top_ := n1 :: rest |}
           ∧ 2 ≤ remaining_free_slots n1
           ∧ RecordTyped type addr b = Ok {| top_ := n' :: rest |}
           ∧ entries n' = entries n1 ++ [type; addr])
    ∧ Forall (λ n, markers_paired (entries n)) (top_ b)
    ∧ (∀ (S : Type) (ucb : Address → S → S)
         (tcb : SlotType → Address → S → S) (s : S) (k : nat),
         ∃ c, foldM (iterate_node ucb tcb) (mkCursor false 0 s)
                    (take k (top_ b)) = Ok c
              ∧ typed c = false).
Proof.
  intros Hrs. pose proof kBufferSize_ge as Hk.
  destruct (reachable_spec rs Hrs) as (b & rss & Hrec & Hb & Hjoin & Hvalid).
  exists b. split; [done|]. split; [|split].
  - intros type addr Hr.
    destruct (record_spec b rss (Typed type addr) Hb Hr)
      as (n & rest & rs0 & rss0 & n' & Htop & _ & Hcase).
    simpl in Hcase.
    destruct Hcase as [(HE & Hroom & HR & _ & Hent)|(HE & HR & _ & Hent)].
    + exists n, rest, n'. rewrite HE. destruct b as [nodes]. simpl in *.
      by subst nodes.
    + exists new_Node, (n :: rest), n'. split; [done|].
      split; [unfold remaining_free_slots; simpl; lia|]. split; [done|].
      by rewrite Hent.
  - destruct Hb as [Hb _]. apply Forall_join_inv in Hvalid.
    clear -Hb Hvalid KB_pos.
    induction Hb as [|n rs0 nodes rss (_ & _ & Hent) _ IH]; [constructor|].
    apply Forall_cons in Hvalid as [Hrs0 Hvalid]. constructor; [|auto].
    unfold entries. rewrite Hent. by apply encode_markers_paired.
  - intros S ucb tcb s k. destruct Hb as [Hb _].
    destruct (iterate_nodes_spec ucb tcb (mkCursor false 0 s)
                (take k (top_ b)) (take k rss)) as (c & Hc & Htyped & _).
    + by apply Forall2_take.
    + apply Forall_join, Forall_take. by apply Forall_join_inv.
    + done.
    + by exists c.
Qed.

(** C10: [Iterate] on a freshly constructed buffer calls neither
    callback: the constructor allocates one node whose [count] is zero,
    and for any callbacks and any state of theirs [Iterate] returns that
    state unchanged. *)
Theorem Iterate_create (S : Type) (ucb : Address → S → S)
    (tcb : SlotType → Address → S → S) (s : S) :
  (∃ n, top_ create = [n] ∧ count n = 0)
  ∧ Iterate ucb tcb create s = Ok s.
Proof. split; [by exists new_Node|done]. Qed.
End LocalSlotsBufferFacts.

(** ** SlotSet: one unit of a table *)

Section RunFacts.
Context {S : Type}.

Lemma run_app (callback : Address → S → Result (SlotCallbackResult * S))
    (s s1 s2 : S) (vs1 vs2 : list (Visit S)) :
  run callback s vs1 s1 → run callback s1 vs2 s2 →
  run callback s (vs1 ++ vs2) s2.
Proof.
  revert s. induction vs1 as [|v vs1 IH]; intros s; simpl.
  - by intros ->.
  - intros (Hpre & Hcall & Hrun) Hrun2. eauto.
Qed.

Lemma kept_app (vs1 vs2 : list (Visit S)) :
  kept (vs1 ++ vs2) = kept vs1 ++ kept vs2.
Proof. unfold kept. by rewrite filter_app, fmap_app. Qed.

Lemma kept_elem_of (vs : list (Visit S)) (a : Address) :
  a ∈ kept vs ↔ ∃ v, v ∈ vs ∧ visit_addr v = a ∧ visit_result v = KEEP_SLOT.
Proof.
  unfold kept. rewrite list_elem_of_fmap. split.
  - intros (v & -> & [Hr Hv]%list_elem_of_filter). by exists v.
  - intros (v & Hv & <- & Hr). exists v. split; [done|].
    by apply list_elem_of_filter.
Qed.

Lemma kept_length (vs : list (Visit S)) :
  (length (kept vs) ≤ length vs)%nat.
Proof.
  unfold kept. rewrite length_fmap. apply length_filter.
Qed.

Lemma kept_NoDup (vs : list (Visit S)) :
  NoDup (visit_addr <$> vs) → NoDup (kept vs).
Proof.
  unfold kept. induction vs as [|v vs IH]; [done|].
  rewrite fmap_cons, NoDup_cons. intros [Hv Hvs].
  rewrite filter_cons. case_decide; [|auto].
  rewrite fmap_cons, NoDup_cons. split; [|auto].
  rewrite list_elem_of_fmap. intros (v' & Heq & [_ Hin]%list_elem_of_filter).
  apply Hv. rewrite Heq. by apply list_elem_of_fmap_2.
Qed.

(** Among calls on pairwise different addresses, the address determines
    the call. *)
Lemma visit_unique (vs : list (Visit S)) (v v' : Visit S) :
  NoDup (visit_addr <$> vs) → v ∈ vs → v' ∈ vs →
  visit_addr v = visit_addr v' → v = v'.
Proof.
  induction vs as [|v0 vs IH]; [by intros _ ?%elem_of_nil|].
  rewrite fmap_cons, NoDup_cons. intros [Hv0 Hvs].
  rewrite !elem_of_cons. intros [->|Hv] [->|Hv'] Heq; [done| | |by apply IH].
  - destruct Hv0. rewrite Heq. by apply list_elem_of_fmap_2.
  - destruct Hv0. rewrite <- Heq. by apply list_elem_of_fmap_2.
Qed.
End RunFacts.

Section SlotSetFacts.
Context `{Config} {S : Type}.
Variable callback : Address → S → Result (SlotCallbackResult * S).

(** The loop of [SlotSet::Iterate] over the offsets of a slot set. When
    it fails, the callback has returned on the slots before the one on
    which it failed, in the order of the loop. *)
Lemma foldM_visit (page_start : Address) (offsets : list Z)
    (n : Z) (K : gset Z) (s : S) :
  match foldM (SlotSet.visit callback page_start) (n, K, s) offsets with
  | Ok (n', K', s') =>
      ∃ vs, run callback s vs s'
            ∧ visit_addr <$> vs = (λ o, page_start + o) <$> offsets
            ∧ n' = n + Z.of_nat (length (kept vs))
            ∧ ∀ o, o ∈ K' ↔
                   o ∈ K ∧ ¬ ∃ v, v ∈ vs ∧ visit_addr v = page_start + o
                                  ∧ visit_result v = REMOVE_SLOT
  | Fail e =>
      ∃ vs a s1, run callback s vs s1 ∧ callback a s1 = Fail e
                 ∧ (visit_addr <$> vs) ++ [a]
                   `prefix_of` (λ o, page_start + o) <$> offsets
  end.
Proof.
  revert n K s. induction offsets as [|o offsets IH]; intros n K s; simpl.
  - exists []. simpl. split; [done|]. split; [done|]. split; [lia|].
    intros o. split; [|by intros [? _]].
    intros Ho. split; [done|]. by intros (v & ?%elem_of_nil & _).
  - destruct (callback (page_start + o) s) as [[r s1]|e] eqn:Hcall; simpl.
    2:{ exists [], (page_start + o), s. split; [done|]. split; [done|].
        apply prefix_cons, prefix_nil. }
    destruct r; simpl.
    + specialize (IH (n + 1) K s1).
      destruct (foldM _ _ offsets) as [[[n' K'] s']|e].
      2:{ destruct IH as (vs & a & s2 & Hrun & Hfail & Hpre).
          exists (mkVisit (page_start + o) s KEEP_SLOT s1 :: vs), a, s2.
          split; [by simpl|]. split; [done|]. by apply prefix_cons. }
      destruct IH as (vs & Hrun & Haddr & Hn & HK).
      exists (mkVisit (page_start + o) s KEEP_SLOT s1 :: vs).
      split; [by simpl|]. split; [by rewrite fmap_cons, Haddr|]. split.
      * unfold kept in *. rewrite filter_cons_True by done.
        rewrite fmap_cons. simpl. lia.
      * intros o'. rewrite HK. setoid_rewrite elem_of_cons.
        split; intros [HoK Hno]; (split; [done|]).
        -- intros (v & [->|Hv] & Hva & Hvr); [done|]. apply Hno. eauto.
        -- intros (v & Hv & Hva & Hvr). apply Hno. eauto.
    + specialize (IH n (K ∖ {[o]}) s1).
      destruct (foldM _ _ offsets) as [[[n' K'] s']|e].
      2:{ destruct IH as (vs & a & s2 & Hrun & Hfail & Hpre).
          exists (mkVisit (page_start + o) s REMOVE_SLOT s1 :: vs), a, s2.
          split; [by simpl|]. split; [done|]. by apply prefix_cons. }
      destruct IH as (vs & Hrun & Haddr & Hn & HK).
      exists (mkVisit (page_start + o) s REMOVE_SLOT s1 :: vs).
      split; [by simpl|]. split; [by rewrite fmap_cons, Haddr|]. split.
      * unfold kept in *. rewrite filter_cons_False by done. lia.
      * intros o'. rewrite HK. setoid_rewrite elem_of_cons.
        rewrite elem_of_difference, elem_of_singleton.
        split.
        -- intros [[HoK Hne] Hno]. split; [done|].
           intros (v & [->|Hv] & Hva & Hvr); simpl in *; [lia|].
           apply Hno. eauto.
        -- intros [HoK Hno]. split; [split; [done|]|].
           ++ intros ->. apply Hno. eexists. split; [by left|]. done.
           ++ intros (v & Hv & Hva & Hvr). apply Hno. eauto.
Qed.

(** [SlotSet::Iterate] calls the callback once on the address of each
    recorded slot, keeps the slots for which it answered [KEEP_SLOT] and
    returns their number. *)
Lemma SlotSet_Iterate_spec (ss : SlotSet.t) (s : S) :
  match SlotSet.Iterate callback ss s with
  | Ok (n, ss', s') =>
      ∃ vs, run callback s vs s'
            ∧ visit_addr <$> vs = SlotSet.addresses ss
            ∧ SlotSet.page_start_ ss' = SlotSet.page_start_ ss
            ∧ SlotSet.slots ss' ⊆ SlotSet.slots ss
            ∧ SlotSet.addresses ss' ≡ₚ kept vs
            ∧ n = Z.of_nat (length (kept vs))
  | Fail e =>
      ∃ vs a s1, run callback s vs s1 ∧ callback a s1 = Fail e
                 ∧ (visit_addr <$> vs) ++ [a]
                   `prefix_of` SlotSet.addresses ss
  end.
Proof.
  unfold SlotSet.Iterate.
  pose proof (foldM_visit (SlotSet.page_start_ ss)
                (elements (SlotSet.slots ss)) 0 (SlotSet.slots ss) s) as Hfold.
  destruct (foldM _ _ _) as [[[n K] s']|e]; simpl; [|exact Hfold].
  destruct Hfold as (vs & Hrun & Haddr & Hn & HK).
  assert (NoDup (visit_addr <$> vs)) as Hnodup.
  { rewrite Haddr. apply NoDup_fmap_2; [|apply NoDup_elements].
    intros ???. lia. }
  exists vs. split; [done|]. split; [done|]. split; [done|].
  split; [intros o [? _]%HK; done|]. split; [|lia].
  apply NoDup_Permutation.
  - apply NoDup_fmap_2; [intros ???; lia|apply NoDup_elements].
  - by apply kept_NoDup.
  - intros a. unfold SlotSet.addresses at 1. simpl.
    rewrite list_elem_of_fmap, kept_elem_of.
    setoid_rewrite elem_of_elements. setoid_rewrite HK. split.
    + intros (o & -> & Ho & Hno).
      assert (SlotSet.page_start_ ss + o ∈ visit_addr <$> vs) as Hin.
      { rewrite Haddr. apply list_elem_of_fmap_2. by apply elem_of_elements. }
      apply list_elem_of_fmap in Hin as (v & Hva & Hv).
      exists v. split; [done|]. split; [done|].
      destruct (visit_result v) eqn:Hr; [done|]. destruct Hno. eauto.
    + intros (v & Hv & Hva & Hvr).
      assert (a ∈ visit_addr <$> vs) as Hin
        by (rewrite <- Hva; by apply list_elem_of_fmap_2).
      rewrite Haddr in Hin.
      apply list_elem_of_fmap in Hin as (o & -> & Ho%elem_of_elements).
      exists o. split; [done|]. split; [done|].
      intros (v' & Hv' & Hva' & Hvr').
      assert (v = v') by (eapply visit_unique; eauto; congruence).
      congruence.
Qed.
End SlotSetFacts.

(** ** RememberedSet: the table of a chunk *)

Section TableFacts.
Context `{Config}.
Import MemoryChunk.

(** [GetSlotSet] returns the table of its direction. *)
Lemma GetSlotSet_table direction chunk :
  RememberedSet.GetSlotSet direction chunk = table direction chunk.
Proof. by destruct direction. Qed.

Lemma GetSlotSet_PutSlotSet direction chunk slots :
  RememberedSet.GetSlotSet direction
    (RememberedSet.PutSlotSet direction chunk slots) = Some slots.
Proof. by destruct direction. Qed.

Lemma GetSlotSet_other_PutSlotSet direction chunk slots :
  RememberedSet.GetSlotSet (other direction)
    (RememberedSet.PutSlotSet direction chunk slots)
  = RememberedSet.GetSlotSet (other direction) chunk.
Proof. by destruct direction. Qed.

Lemma GetSlotSet_ReleaseSlotSet direction chunk :
  RememberedSet.GetSlotSet direction
    (RememberedSet.ReleaseSlotSet direction chunk) = None.
Proof. by destruct direction. Qed.

Lemma GetSlotSet_other_ReleaseSlotSet direction chunk :
  RememberedSet.GetSlotSet (other direction)
    (RememberedSet.ReleaseSlotSet direction chunk)
  = RememberedSet.GetSlotSet (other direction) chunk.
Proof. by destruct direction. Qed.

Lemma PutSlotSet_fields direction chunk slots :
  let chunk' := RememberedSet.PutSlotSet direction chunk slots in
  address chunk' = address chunk ∧ size chunk' = size chunk
  ∧ owner chunk' = owner chunk
  ∧ typed_old_to_old_slots chunk' = typed_old_to_old_slots chunk.
Proof. by destruct direction. Qed.

Lemma ReleaseSlotSet_fields direction chunk :
  let chunk' := RememberedSet.ReleaseSlotSet direction chunk in
  address chunk' = address chunk ∧ size chunk' = size chunk
  ∧ owner chunk' = owner chunk
  ∧ typed_old_to_old_slots chunk' = typed_old_to_old_slots chunk.
Proof. by destruct direction. Qed.

Lemma pages_nonneg chunk : 0 < kPageSize → 0 ≤ pages chunk.
Proof.
  intros Hk. unfold pages, wrap64. apply Z.div_pos; [|done].
  apply Z.mod_pos_bound. lia.
Qed.

Lemma table_shape_length chunk slots :
  0 < kPageSize → table_shape chunk slots →
  Z.of_nat (length slots) = pages chunk.
Proof.
  intros Hk (Hstart & _). pose proof (pages_nonneg chunk Hk).
  apply (f_equal length) in Hstart.
  rewrite !length_fmap, length_seqZ in Hstart. lia.
Qed.

(** Replacing the slot sets of a well-formed table by subsets of them,
    unit by unit, leaves a well-formed table. *)
Lemma table_ok_shrink chunk slots slots' :
  table_ok chunk slots →
  Forall2 (λ ss ss', SlotSet.page_start_ ss' = SlotSet.page_start_ ss
                     ∧ SlotSet.slots ss' ⊆ SlotSet.slots ss) slots slots' →
  (length (slots' ≫= SlotSet.addresses)
   ≤ length (slots ≫= SlotSet.addresses))%nat →
  table_ok chunk slots'.
Proof.
  intros ((Hstart & Hoff) & Hcount) Hrel Hlen. split; [split|lia].
  - rewrite <- Hstart. clear -Hrel.
    induction Hrel as [|ss ss' slots slots' [Hps _] _ IH]; [done|].
    by rewrite !fmap_cons, Hps, IH.
  - clear -Hrel Hoff.
    induction Hrel as [|ss ss' slots slots' [_ Hsub] _ IH]; [done|].
    apply Forall_cons in Hoff as [Hss Hslots]. constructor; [|auto].
    intros o Ho. apply Hss. by apply Hsub.
Qed.
End TableFacts.

Section ScanFacts.
Context `{Config} {S : Type}.
Variable callback : Address → S → Result (SlotCallbackResult * S).
Variable E : Failure → Prop.
Hypothesis callback_fails : ∀ a s e, callback a s = Fail e → E e.
Hypothesis kPageSize_pos : 0 < kPageSize.
Import MemoryChunk.

(** The loop over the units of a table, from unit [length pre] on for
    the units [seg]: the callback is called on the slots of [seg] unit by
    unit, each unit keeps the slots the callback kept, and [new_count]
    grows by their number. The loop fails only where the callback
    fails. *)
Lemma foldM_iterate_page (pre seg suf : list SlotSet.t) (n : Z) (s : S) :
  0 ≤ n →
  n + Z.of_nat (length (seg ≫= SlotSet.addresses)) ≤ INT_MAX →
  match foldM (RememberedSet.iterate_page callback)
              (pre ++ seg ++ suf, n, s)
              (seqZ (Z.of_nat (length pre)) (Z.of_nat (length seg))) with
  | Ok (slots', n', s') =>
      ∃ seg' vs,
        slots' = pre ++ seg' ++ suf
        ∧ run callback s vs s'
        ∧ visit_addr <$> vs = seg ≫= SlotSet.addresses
        ∧ seg' ≫= SlotSet.addresses ≡ₚ kept vs
        ∧ n' = n + Z.of_nat (length (kept vs))
        ∧ Forall2 (λ ss ss',
                     SlotSet.page_start_ ss' = SlotSet.page_start_ ss
                     ∧ SlotSet.slots ss' ⊆ SlotSet.slots ss) seg seg'
  | Fail e =>
      ∃ vs a s1, run callback s vs s1 ∧ callback a s1 = Fail e
                 ∧ (visit_addr <$> vs) ++ [a]
                   `prefix_of` seg ≫= SlotSet.addresses
  end.
Proof.
  revert pre n s. induction seg as [|ss seg IH]; intros pre n s Hn Hmax.
  - simpl. exists [], []. by rewrite Z.add_0_r.
  - rewrite seqZ_cons by (simpl; lia).
    rewrite bind_cons, length_app in Hmax.
    cbn [foldM]. unfold RememberedSet.iterate_page at 2.
    rewrite (array_get_lookup _ _ ss)
      by (by apply list_lookup_middle).
    cbn [mbind Result_bind].
    pose proof (SlotSet_Iterate_spec callback ss s) as Hss.
    destruct (SlotSet.Iterate callback ss s) as [[[k ss'] s1]|e];
      cbn [mbind Result_bind].
    2:{ destruct Hss as (vs & a & s2 & Hrun & Hfail & Hpre).
        exists vs, a, s2. do 2 (split; [done|]).
        rewrite bind_cons. by apply prefix_app_r. }
    destruct Hss as (vs1 & Hrun1 & Haddr1 & Hps & Hsub & Hkept1 & Hk).
    rewrite array_set_insert by (rewrite !length_app; simpl; lia).
    cbn [mbind Result_bind].
    assert (length (kept vs1) ≤ length (SlotSet.addresses ss))%nat as Hle.
    { rewrite <- Haddr1, length_fmap. apply kept_length. }
    unfold int_add. rewrite bool_decide_true by (unfold INT_MIN; lia).
    cbn [mbind Result_bind].
    replace (<[length pre:=ss']> (pre ++ (ss :: seg) ++ suf))
      with ((pre ++ [ss']) ++ seg ++ suf).
    2:{ rewrite <- (Nat.add_0_r (length pre)) at 1.
        rewrite insert_app_r. simpl. by rewrite <- app_assoc. }
    replace (Z.succ (Z.of_nat (length pre)))
      with (Z.of_nat (length (pre ++ [ss'])))
      by (rewrite length_app; simpl; lia).
    replace (Z.pred (Z.of_nat (length (ss :: seg))))
      with (Z.of_nat (length seg)) by (simpl; lia).
    assert (0 ≤ n + k) as Hn' by lia.
    assert (n + k + Z.of_nat (length (seg ≫= SlotSet.addresses)) ≤ INT_MAX)
      as Hmax' by lia.
    specialize (IH (pre ++ [ss']) (n + k) s1 Hn' Hmax').
    destruct (foldM _ _ _) as [[[slots' n'] s']|e].
    2:{ destruct IH as (vs & a & s2 & Hrun & Hfail & Hpre).
        exists (vs1 ++ vs), a, s2. split; [by eapply run_app|].
        split; [done|].
        rewrite fmap_app, <- app_assoc, bind_cons, Haddr1.
        by apply prefix_app. }
    destruct IH as (seg' & vs & -> & Hrun & Haddr & Hkept & Hcount & Hrel).
    exists (ss' :: seg'), (vs1 ++ vs).
    split; [by rewrite <- app_assoc|].
    split; [by eapply run_app|].
    split; [by rewrite fmap_app, bind_cons, Haddr1, Haddr|].
    split; [by rewrite bind_cons, kept_app, Hkept1, Hkept|].
    split; [rewrite kept_app, length_app; lia|].
    by constructor.
Qed.

Lemma table_ok_fields chunk chunk' slots :
  address chunk' = address chunk → size chunk' = size chunk →
  table_ok chunk slots → table_ok chunk' slots.
Proof.
  unfold table_ok, table_shape, pages. by intros -> ->.
Qed.

(** The body of the loop of [Iterate] on one chunk with a well-formed
    table. *)
Lemma iterate_chunk_spec direction (chunk : MemoryChunk.t) (s : S) :
  chunk_ok direction chunk →
  match RememberedSet.iterate_chunk callback direction chunk s with
  | Ok (chunk', s') =>
      ∃ vs, run callback s vs s'
        ∧ chunk_ok direction chunk'
        ∧ address chunk' = address chunk
        ∧ size chunk' = size chunk
        ∧ owner chunk' = owner chunk
        ∧ table (other direction) chunk' = table (other direction) chunk
        ∧ typed_old_to_old_slots chunk' = typed_old_to_old_slots chunk
        ∧ visit_addr <$> vs = recorded direction chunk
        ∧ match table direction chunk with
          | None => chunk' = chunk ∧ vs = []
          | Some _ =>
              visit_addr <$> vs ≡ₚ recorded direction chunk
              ∧ recorded direction chunk' ≡ₚ kept vs
              ∧ (table direction chunk' = None
                 ↔ length (kept vs) = 0%nat)
          end
  | Fail e =>
      ∃ vs a s1, run callback s vs s1 ∧ callback a s1 = Fail e
                 ∧ (visit_addr <$> vs) ++ [a]
                   `prefix_of` recorded direction chunk
  end.
Proof.
  unfold chunk_ok, RememberedSet.iterate_chunk, recorded.
  rewrite <- !GetSlotSet_table.
  destruct (RememberedSet.GetSlotSet direction chunk) as [slots|] eqn:Hget.
  2:{ intros _. exists []. rewrite <- !GetSlotSet_table, ?Hget.
      by repeat split. }
  intros Hok.
  pose proof (table_shape_length _ _ kPageSize_pos (proj1 Hok)) as Hlen.
  fold (pages chunk). rewrite <- Hlen.
  pose proof (foldM_iterate_page [] slots [] 0 s) as Hfold.
  rewrite app_nil_r in Hfold. simpl in Hfold.
  specialize (Hfold ltac:(done) (proj2 Hok)).
  destruct (foldM _ _ _) as [[[slots' n'] s']|e];
    cbn [mbind Result_bind]; [|exact Hfold].
  destruct Hfold as (seg' & vs & -> & Hrun & Haddr & Hkept & Hn' & Hrel).
  rewrite app_nil_r in *. simpl in Hn'.
  pose proof (PutSlotSet_fields direction chunk seg') as (Ha & Hs & Ho & Ht).
  destruct (Z.eqb_spec n' 0) as [Hzero|Hnonzero].
  - exists vs. split; [done|].
    pose proof (ReleaseSlotSet_fields direction
                  (RememberedSet.PutSlotSet direction chunk seg'))
      as (Ha' & Hs' & Ho' & Ht').
    rewrite <- !GetSlotSet_table.
    rewrite GetSlotSet_ReleaseSlotSet, GetSlotSet_other_ReleaseSlotSet,
      GetSlotSet_other_PutSlotSet.
    split; [done|]. split; [congruence|]. split; [congruence|].
    split; [congruence|]. split; [done|]. split; [congruence|].
    split; [done|].
    split; [by rewrite Haddr|]. simpl.
    assert (length (kept vs) = 0%nat) as Hnone by lia.
    split; [|done]. by apply length_zero_iff_nil in Hnone as ->.
  - exists vs. split; [done|].
    rewrite <- !GetSlotSet_table.
    rewrite GetSlotSet_PutSlotSet, GetSlotSet_other_PutSlotSet.
    split.
    { eapply table_ok_fields; [done..|].
      eapply table_ok_shrink; [done..|].
      rewrite Hkept, <- Haddr, length_fmap. apply kept_length. }
    do 5 (split; [done|]). split; [done|].
    split; [by rewrite Haddr|]. split; [done|].
    split; [done|lia].
Qed.

(** The loop of [Iterate] over the chunks of the heap. *)
Lemma for_each_iterate_chunk direction (cs : list MemoryChunk.t) (s : S) :
  Forall (chunk_ok direction) cs →
  match MemoryChunkIterator.for_each
          (if decide (direction = OLD_TO_OLD)
           then MemoryChunkIterator.ALL
           else MemoryChunkIterator.ALL_BUT_CODE_SPACE)
          (RememberedSet.iterate_chunk callback direction) cs s with
  | Ok (cs', s') =>
      ∃ logs, run callback s (mjoin logs) s'
        ∧ Forall3 (chunk_scanned direction) cs cs' logs
        ∧ Forall (chunk_ok direction) cs'
  | Fail e =>
      ∃ vs a s1, run callback s vs s1 ∧ callback a s1 = Fail e
                 ∧ (visit_addr <$> vs) ++ [a]
                   `prefix_of` scan_order direction cs
  end.
Proof.
  intros Hcs. revert s. induction Hcs as [|chunk cs Hchunk Hcs IH]; intros s.
  - exists []. simpl. split; [done|]. split; constructor.
  - cbn [MemoryChunkIterator.for_each].
    fold (scanned direction chunk).
    unfold scan_order. rewrite bind_cons. fold (scan_order direction cs).
    destruct (scanned direction chunk) eqn:Hscope.
    + pose proof (iterate_chunk_spec direction chunk s Hchunk) as Hbody.
      destruct (RememberedSet.iterate_chunk _ _ _ _) as [[chunk' s1]|e];
        cbn [mbind Result_bind].
      2:{ destruct Hbody as (vs & a & s2 & Hrun & Hfail & Hpre).
          exists vs, a, s2. do 2 (split; [done|]). by apply prefix_app_r. }
      destruct Hbody
        as (vs & Hrun & Hok' & Ha & Hs & Ho & Hoth & Ht & Hvisits & Hcase).
      specialize (IH s1).
      destruct (MemoryChunkIterator.for_each _ _ _ _) as [[cs' s']|e];
        cbn [mbind Result_bind].
      2:{ destruct IH as (vs' & a & s2 & Hrun' & Hfail & Hpre).
          exists (vs ++ vs'), a, s2. split; [by eapply run_app|].
          split; [done|].
          rewrite fmap_app, <- app_assoc, Hvisits. by apply prefix_app. }
      destruct IH as (logs & Hrun' & Hscanned & Hoks).
      exists (vs :: logs). split; [by eapply run_app|].
      split; [|by constructor]. constructor; [|done].
      unfold chunk_scanned. rewrite Hscope. by do 5 (split; [done|]).
    + cbn [mbind Result_bind]. specialize (IH s).
      destruct (MemoryChunkIterator.for_each _ _ _ _) as [[cs' s']|e];
        cbn [mbind Result_bind]; [|exact IH].
      destruct IH as (logs & Hrun' & Hscanned & Hoks).
      exists ([] :: logs). split; [done|].
      split; [|by constructor]. constructor; [|done].
      unfold chunk_scanned. rewrite Hscope. by repeat split.
Qed.

(** [Iterate] on a heap whose tables are well-formed: it fails only
    where the callback fails, and then the callback has returned on the
    slots that the scan comes to before the one on which it failed. *)
Lemma Iterate_trace direction (heap : Heap) (s : S) :
  heap_ok direction heap →
  match RememberedSet.Iterate callback direction heap s with
  | Ok (heap', s') =>
      ∃ logs, run callback s (mjoin logs) s'
        ∧ Forall3 (chunk_scanned direction) (chunks heap) (chunks heap') logs
        ∧ heap_ok direction heap'
        ∧ heap' = set_chunks (chunks heap') heap
  | Fail e =>
      ∃ vs a s1, run callback s vs s1 ∧ callback a s1 = Fail e
                 ∧ (visit_addr <$> vs) ++ [a]
                   `prefix_of` scan_order direction (chunks heap)
  end.
Proof.
  intros Hheap. unfold RememberedSet.Iterate.
  pose proof (for_each_iterate_chunk direction (chunks heap) s Hheap) as Hloop.
  destruct (MemoryChunkIterator.for_each _ _ _ _) as [[cs' s']|e];
    cbn [mbind Result_bind]; [|exact Hloop].
  destruct Hloop as (logs & Hrun & Hscanned & Hoks).
  by exists logs.
Qed.

(** [Iterate] fails only as the callback does: [E] holds of the failures
    that the callback can end in. *)
Lemma Iterate_scan direction (heap : Heap) (s : S) :
  heap_ok direction heap →
  match RememberedSet.Iterate callback direction heap s with
  | Ok (heap', s') =>
      ∃ logs, run callback s (mjoin logs) s'
        ∧ Forall3 (chunk_scanned direction) (chunks heap) (chunks heap') logs
        ∧ heap_ok direction heap'
        ∧ heap' = set_chunks (chunks heap') heap
  | Fail e => E e
  end.
Proof.
  intros Hheap. pose proof (Iterate_trace direction heap s Hheap) as Htrace.
  destruct (RememberedSet.Iterate _ _ _ _) as [[heap' s']|e]; [done|].
  destruct Htrace as (vs & a & s1 & _ & Hfail & _).
  by eapply callback_fails.
Qed.
End ScanFacts.

(** ** RememberedSet: scans *)

Section ScanClaims.
Context `{Config}.
Hypothesis kPageSize_pos : 0 < kPageSize.
Import MemoryChunk.

Lemma infallible_fails {S : Type}
    (callback : Address → S → SlotCallbackResult * S) a s e :
  infallible callback a s = Fail e → False.
Proof. done. Qed.

Lemma run_Forall {S : Type}
    (callback : Address → S → Result (SlotCallbackResult * S))
    (s s' : S) (vs : list (Visit S)) :
  run callback s vs s' →
  Forall (λ v, callback (visit_addr v) (visit_pre v)
               = Ok (visit_result v, visit_post v)) vs.
Proof.
  revert s. induction vs as [|v vs IH]; intros s; simpl; [constructor|].
  intros (<- & Hcall & Hrun). constructor; eauto.
Qed.

(** Chunks without a table are left alone by the loop of [Iterate], and
    the callback is not called. *)
Lemma for_each_no_table {S : Type}
    (callback : Address → S → Result (SlotCallbackResult * S))
    direction mode (cs : list MemoryChunk.t) (s : S) :
  Forall (λ c, RememberedSet.GetSlotSet direction c = None) cs →
  MemoryChunkIterator.for_each mode
    (RememberedSet.iterate_chunk callback direction) cs s = Ok (cs, s).
Proof.
  induction 1 as [|c cs Hc Hcs IH]; [done|].
  cbn [MemoryChunkIterator.for_each].
  assert (RememberedSet.iterate_chunk callback direction c s = Ok (c, s))
    as -> by (unfold RememberedSet.iterate_chunk; by rewrite Hc).
  destruct (MemoryChunkIterator.in_scope mode c);
    cbn [mbind Result_bind]; by rewrite IH.
Qed.

Lemma for_each_no_typed_table {S : Type}
    (callback : SlotType → Address → S → Result (SlotCallbackResult * S))
    direction mode (cs : list MemoryChunk.t) (s : S) :
  Forall (λ c, typed_old_to_old_slots c = None) cs →
  MemoryChunkIterator.for_each mode
    (RememberedSet.iterate_typed_chunk callback direction) cs s = Ok (cs, s).
Proof.
  induction 1 as [|c cs Hc Hcs IH]; [done|].
  cbn [MemoryChunkIterator.for_each].
  assert (RememberedSet.iterate_typed_chunk callback direction c s
          = Ok (c, s))
    as -> by (unfold RememberedSet.iterate_typed_chunk; by rewrite Hc).
  destruct (MemoryChunkIterator.in_scope mode c);
    cbn [mbind Result_bind]; by rewrite IH.
Qed.

(** C2: on a heap with well-formed tables, [Iterate] with a filtering
    callback returns, and for every chunk in scope that has a table it
    has called the callback once on each recorded slot of each unit of
    the chunk; the slots recorded afterwards are those the callback kept,
    and the table is released exactly when the number of kept slots,
    summed over the units, is zero. Chunks out of scope or without a
    table are not touched. A later scan finds no table at a chunk whose
    table was released: it leaves the chunk as it is, without a table,
    and calls the callback on none of its slots. The tables are those
    held in the chunk's fields [old_to_old_slots] and
    [old_to_new_slots]. *)
Theorem Iterate_filters_and_releases (direction : PointerDirection)
    {S : Type} (callback : Address → S → SlotCallbackResult * S)
    (heap : Heap) (s : S) :
  heap_ok direction heap →
  ∃ heap' s' logs,
    RememberedSet.Iterate (infallible callback) direction heap s
      = Ok (heap', s')
    ∧ run (infallible callback) s (mjoin logs) s'
    ∧ Forall3 (chunk_scanned direction) (chunks heap) (chunks heap') logs
    ∧ ∀ (S2 : Type) (callback2 : Address → S2 → SlotCallbackResult * S2)
        (s2 : S2),
        ∃ heap'' s2' logs2,
          RememberedSet.Iterate (infallible callback2) direction heap' s2
            = Ok (heap'', s2')
          ∧ run (infallible callback2) s2 (mjoin logs2) s2'
          ∧ Forall3 (λ chunk' chunk'' (vs2 : list (Visit S2)),
                       table direction chunk' = None →
                       chunk'' = chunk' ∧ vs2 = [])
                    (chunks heap') (chunks heap'') logs2.
Proof.
  intros Hheap.
  pose proof (Iterate_scan (infallible callback) (λ _, False)
                (infallible_fails callback) kPageSize_pos
                direction heap s Hheap) as Hscan.
  destruct (RememberedSet.Iterate _ _ _ _) as [[heap' s']|e]; [|done].
  destruct Hscan as (logs & Hrun & Hscanned & Hheap' & _).
  exists heap', s', logs. do 3 (split; [done|]).
  intros S2 callback2 s2.
  pose proof (Iterate_scan (infallible callback2) (λ _, False)
                (infallible_fails callback2) kPageSize_pos
                direction heap' s2 Hheap') as Hscan2.
  destruct (RememberedSet.Iterate _ _ _ _) as [[heap'' s2']|e]; [|done].
  destruct Hscan2 as (logs2 & Hrun2 & Hscanned2 & _ & _).
  exists heap'', s2', logs2. do 2 (split; [done|]).
  eapply Forall3_impl; [done|].
  intros chunk' chunk'' vs2 (_ & _ & _ & _ & _ & Hcase) Hnone.
  rewrite Hnone in Hcase. by destruct (scanned direction chunk').
Qed.

Section WrapperFacts.
Context {S : Type}.
Variable load : S → Address → Object.
Variable slot_callback : Address → Object → S → S.

(** One call of [Wrapper] for the Old-to-New direction: it fails exactly
    in a debug build on a word that does not pass its [DCHECK]. *)
Lemma Wrapper_checked (heap : Heap) (slot_address : Address) (s : S) :
  match RememberedSet.Wrapper load slot_callback OLD_TO_NEW heap
          slot_address s with
  | Ok (r, s') =>
      wrapped load slot_callback heap (mkVisit slot_address s r s')
      ∧ (DEBUG = true → wrapper_checks heap (load s slot_address) = true)
  | Fail e =>
      DEBUG = true ∧ e = DcheckFailure
      ∧ wrapper_checks heap (load s slot_address) = false
  end.
Proof.
  unfold RememberedSet.Wrapper, wrapped, wrapper_checks, DCHECK. simpl.
  destruct (InFromSpace heap (load s slot_address)) eqn:Hfrom.
  - destruct DEBUG, (IsHeapObject (load s slot_address)); simpl; try done;
      (destruct (InToSpace heap _) eqn:Hto; simpl; by rewrite ?Hto).
  - destruct DEBUG, (InNewSpace heap (load s slot_address)); simpl; done.
Qed.

Lemma Wrapper_cases (heap : Heap) (slot_address : Address) (s : S) :
  match RememberedSet.Wrapper load slot_callback OLD_TO_NEW heap
          slot_address s with
  | Ok (r, s') =>
      wrapped load slot_callback heap (mkVisit slot_address s r s')
  | Fail e => DEBUG = true ∧ e = DcheckFailure
  end.
Proof.
  pose proof (Wrapper_checked heap slot_address s) as Hw.
  destruct (RememberedSet.Wrapper _ _ _ _ _ _) as [[r s']|e]; [apply Hw|].
  by destruct Hw as (? & ? & _).
Qed.

(** C1 (amended): for the Old-to-New direction, [IterateWithWrapper] on
    a heap with well-formed tables. In a release build it returns. In a
    debug build it returns unless a visited slot holds a word that does
    not pass the [DCHECK] of [Wrapper]: a word in from-space that is not
    a heap object, or a word outside from-space that is in new space,
    such as one in to-space.

    When it returns, every recorded slot of the chunks in scope was
    visited once and treated as follows. If the word in the slot pointed
    into from-space, the callback was called with the slot and that
    word, and the slot is kept exactly when the word in the slot after
    the call points into to-space. Otherwise the callback was not called
    (the state is the one before the visit) and the slot is removed. The
    slots recorded afterwards are the kept ones, and in a debug build
    the word of every visited slot passed the [DCHECK].

    When it stops at a failed [DCHECK], it does so at the first slot, in
    the order of the scan, whose word at that moment does not pass; the
    slots before it were treated as above. The tables are those held in
    the field [old_to_new_slots] of the chunks. *)
Theorem IterateWithWrapper_filters (heap : Heap) (s : S) :
  heap_ok OLD_TO_NEW heap →
  match RememberedSet.IterateWithWrapper load slot_callback OLD_TO_NEW
          heap s with
  | Ok (heap', s') =>
      ∃ logs,
        run (RememberedSet.Wrapper load slot_callback OLD_TO_NEW heap)
            s (mjoin logs) s'
        ∧ Forall3 (chunk_scanned OLD_TO_NEW)
                  (chunks heap) (chunks heap') logs
        ∧ Forall (wrapped load slot_callback heap) (mjoin logs)
        ∧ (DEBUG = true →
           Forall (λ v, wrapper_checks heap
                          (load (visit_pre v) (visit_addr v)) = true)
                  (mjoin logs))
  | Fail e =>
      DEBUG = true ∧ e = DcheckFailure
      ∧ ∃ vs a s1,
          run (RememberedSet.Wrapper load slot_callback OLD_TO_NEW heap)
              s vs s1
          ∧ Forall (wrapped load slot_callback heap) vs
          ∧ Forall (λ v, wrapper_checks heap
                           (load (visit_pre v) (visit_addr v)) = true) vs
          ∧ (visit_addr <$> vs) ++ [a]
            `prefix_of` scan_order OLD_TO_NEW (chunks heap)
          ∧ wrapper_checks heap (load s1 a) = false
  end
  ∧ (DEBUG = false →
     ∃ heap' s',
       RememberedSet.IterateWithWrapper load slot_callback OLD_TO_NEW
         heap s = Ok (heap', s')).
Proof.
  intros Hheap.
  match goal with |- ?P ∧ _ => assert P as Hmain end.
  2:{ split; [exact Hmain|]. intros Hrelease.
      destruct (RememberedSet.IterateWithWrapper _ _ _ _ _)
        as [[heap' s']|e]; [by exists heap', s'|].
      destruct Hmain as [Hdebug _]. congruence. }
  unfold RememberedSet.IterateWithWrapper. simpl.
  assert (∀ vs s0 s1,
            run (RememberedSet.Wrapper load slot_callback OLD_TO_NEW heap)
                s0 vs s1 →
            Forall (wrapped load slot_callback heap) vs
            ∧ (DEBUG = true →
               Forall (λ v, wrapper_checks heap
                              (load (visit_pre v) (visit_addr v)) = true) vs))
    as Hvisits.
  { intros vs s0 s1 Hrun%run_Forall.
    split; [|intros Hdebug]; (eapply Forall_impl; [exact Hrun|]);
      intros v Hv;
      pose proof (Wrapper_checked heap (visit_addr v) (visit_pre v)) as Hw;
      rewrite Hv in Hw; destruct v; [apply Hw|by apply Hw]. }
  pose proof (Iterate_trace
                (RememberedSet.Wrapper load slot_callback OLD_TO_NEW heap)
                kPageSize_pos OLD_TO_NEW heap s Hheap) as Hscan.
  destruct (RememberedSet.Iterate _ _ _ _) as [[heap' s']|e].
  - destruct Hscan as (logs & Hrun & Hscanned & _).
    exists logs. do 2 (split; [done|]). by eapply Hvisits.
  - destruct Hscan as (vs & a & s1 & Hrun & Hfail & Hpre).
    pose proof (Wrapper_checked heap a s1) as Hw. rewrite Hfail in Hw.
    destruct Hw as (Hdebug & -> & Hcheck). do 2 (split; [done|]).
    exists vs, a, s1. split; [done|].
    destruct (Hvisits vs s s1 Hrun) as [Hwrapped Hchecks].
    split; [done|]. split; [by apply Hchecks|]. done.
Qed.
End WrapperFacts.
End ScanClaims.

(** ** RememberedSet: the slots recorded in a table *)

Section UpdateFacts.
Context `{Config}.
Hypothesis kPageSize_pos : 0 < kPageSize.
Import MemoryChunk.

Lemma table_shape_lookup chunk slots (j : nat) ss :
  table_shape chunk slots → slots !! j = Some ss →
  SlotSet.page_start_ ss = address chunk + Z.of_nat j * kPageSize
  ∧ set_Forall (λ o, 0 ≤ o < kPageSize) (SlotSet.slots ss)
  ∧ Z.of_nat j < pages chunk.
Proof.
  intros [Hstart Hoff] Hj.
  assert ((SlotSet.page_start_ <$> slots) !! j
          = Some (SlotSet.page_start_ ss)) as Hps
    by (by rewrite list_lookup_fmap, Hj).
  rewrite Hstart, list_lookup_fmap in Hps.
  destruct (seqZ 0 (pages chunk) !! j) as [m|] eqn:Hm; [|done].
  apply lookup_seqZ in Hm as [-> Hlt]. simpl in Hps.
  split; [injection Hps; lia|]. split; [|done].
  eapply Forall_lookup_1 in Hoff; eauto.
Qed.

(** In a table of the right shape, an address is recorded exactly in the
    unit that its offset in the chunk selects, at its offset in that
    unit. *)
Lemma recorded_in_table chunk slots (a : Address) :
  table_shape chunk slots →
  a ∈ slots ≫= SlotSet.addresses ↔
  address chunk ≤ a
  ∧ ∃ ss, slots !! Z.to_nat ((a - address chunk) `div` kPageSize) = Some ss
          ∧ (a - address chunk) `mod` kPageSize ∈ SlotSet.slots ss.
Proof.
  intros Hshape. rewrite list_elem_of_bind. split.
  - intros (ss & Ha & [j Hj]%list_elem_of_lookup).
    destruct (table_shape_lookup _ _ _ _ Hshape Hj) as (Hps & Hoff & _).
    unfold SlotSet.addresses in Ha.
    apply list_elem_of_fmap in Ha as (o & -> & Ho%elem_of_elements).
    specialize (Hoff o Ho). simpl in Hoff. rewrite Hps.
    replace (address chunk + Z.of_nat j * kPageSize + o - address chunk)
      with (o + Z.of_nat j * kPageSize) by lia.
    rewrite Z.div_add, Z.mod_add by lia.
    rewrite Z.div_small, Z.mod_small by lia. simpl.
    rewrite Z.add_0_l, Nat2Z.id. split; [nia|]. by exists ss.
  - intros (Hle & ss & Hj & Ho). exists ss.
    split; [|by eapply list_elem_of_lookup_2].
    destruct (table_shape_lookup _ _ _ _ Hshape Hj) as (Hps & _ & _).
    unfold SlotSet.addresses. apply list_elem_of_fmap.
    exists ((a - address chunk) `mod` kPageSize).
    split; [|by apply elem_of_elements].
    rewrite Hps, Z2Nat.id by (apply Z.div_pos; lia).
    pose proof (Z.div_mod (a - address chunk) kPageSize). lia.
Qed.

(** Replacing the slot set of one unit by another one for the same unit
    keeps the shape of the table, and changes what is recorded only at
    addresses of that unit. *)
Lemma table_shape_insert chunk slots (idx : nat) ss ss' :
  table_shape chunk slots → slots !! idx = Some ss →
  SlotSet.page_start_ ss' = SlotSet.page_start_ ss →
  set_Forall (λ o, 0 ≤ o < kPageSize) (SlotSet.slots ss') →
  table_shape chunk (<[idx := ss']> slots).
Proof.
  intros [Hstart Hoff] Hidx Hps Hoff'. split.
  - rewrite list_fmap_insert, Hps, list_insert_id; [done|].
    by rewrite list_lookup_fmap, Hidx.
  - by apply Forall_insert.
Qed.

Lemma recorded_insert chunk slots (idx : nat) ss ss' (a : Address) :
  table_shape chunk slots → slots !! idx = Some ss →
  SlotSet.page_start_ ss' = SlotSet.page_start_ ss →
  set_Forall (λ o, 0 ≤ o < kPageSize) (SlotSet.slots ss') →
  a ∈ <[idx := ss']> slots ≫= SlotSet.addresses ↔
  address chunk ≤ a
  ∧ if decide (Z.to_nat ((a - address chunk) `div` kPageSize) = idx)
    then (a - address chunk) `mod` kPageSize ∈ SlotSet.slots ss'
    else a ∈ slots ≫= SlotSet.addresses.
Proof.
  intros Hshape Hidx Hps Hoff'.
  pose proof (table_shape_insert _ _ _ _ _ Hshape Hidx Hps Hoff') as Hshape'.
  rewrite (recorded_in_table _ _ _ Hshape').
  apply lookup_lt_Some in Hidx as Hlt.
  case_decide as Hcase.
  - rewrite Hcase, list_lookup_insert_eq by done.
    split; [intros (? & ? & [= <-] & ?); done|]. intros [? ?]. eauto.
  - rewrite (recorded_in_table _ _ _ Hshape).
    rewrite list_lookup_insert_ne by done.
    split; [intros [? ?]; done|]. by intros [_ ?].
Qed.

Lemma length_addresses (ss : SlotSet.t) :
  length (SlotSet.addresses ss) = base.size (SlotSet.slots ss).
Proof. unfold SlotSet.addresses. by rewrite length_fmap. Qed.

Lemma count_shrink (slots slots' : list SlotSet.t) :
  Forall2 (λ ss ss', SlotSet.slots ss' ⊆ SlotSet.slots ss) slots slots' →
  (length (slots' ≫= SlotSet.addresses)
   ≤ length (slots ≫= SlotSet.addresses))%nat.
Proof.
  induction 1 as [|ss ss' slots slots' Hsub _ IH]; [done|].
  rewrite !bind_cons, !length_app, !length_addresses.
  apply subseteq_size in Hsub. lia.
Qed.

Lemma count_shrink_insert (slots : list SlotSet.t) (idx : nat) ss ss' :
  slots !! idx = Some ss → SlotSet.slots ss' ⊆ SlotSet.slots ss →
  (length (<[idx := ss']> slots ≫= SlotSet.addresses)
   ≤ length (slots ≫= SlotSet.addresses))%nat.
Proof.
  intros Hidx Hsub. apply count_shrink.
  rewrite <- (list_insert_id slots idx ss) at 1 by done.
  apply Forall2_insert; [|done].
  apply Forall_Forall2_diag, Forall_true. done.
Qed.

(** The table that allocation makes. *)
Lemma new_slot_sets_shape chunk : table_shape chunk (new_slot_sets chunk).
Proof.
  unfold new_slot_sets. split.
  - by rewrite <- list_fmap_compose.
  - apply Forall_fmap, Forall_true. intros i o Ho. simpl in Ho. set_solver.
Qed.

Lemma new_slot_sets_empty chunk :
  new_slot_sets chunk ≫= SlotSet.addresses = [].
Proof.
  unfold new_slot_sets. induction (seqZ 0 (pages chunk)) as [|i l IH]; [done|].
  rewrite fmap_cons, bind_cons, IH. simpl.
  unfold SlotSet.addresses. simpl. by rewrite elements_empty.
Qed.

(** The unit and the offset that [Insert] and [Remove] compute for an
    address inside the chunk. *)
Lemma unit_of_address chunk slots (a : Address) :
  chunk_fits chunk → Contains chunk a = true → table_shape chunk slots →
  wrap64 (a - address chunk) = a - address chunk
  ∧ 0 ≤ (a - address chunk) `mod` kPageSize < kPageSize
  ∧ ∃ ss, slots !! Z.to_nat ((a - address chunk) `div` kPageSize) = Some ss
          ∧ array_get slots ((a - address chunk) `div` kPageSize) = Ok ss
          ∧ ∀ x, array_set slots ((a - address chunk) `div` kPageSize) x
                 = Ok (<[Z.to_nat ((a - address chunk) `div` kPageSize) := x]>
                         slots).
Proof.
  intros [Hsize Hfit] Hin%bool_decide_eq_true Hshape.
  pose proof (table_shape_length _ _ kPageSize_pos Hshape) as Hlen.
  assert (wrap64 (a - address chunk) = a - address chunk) as Hwrap
    by (unfold wrap64; apply Z.mod_small; lia).
  split; [done|]. split; [apply Z.mod_pos_bound; lia|].
  set (q := (a - address chunk) `div` kPageSize).
  assert (0 ≤ q < pages chunk) as Hq.
  { subst q. split; [apply Z.div_pos; lia|].
    unfold pages, wrap64. rewrite Z.mod_small by lia.
    apply Z.div_lt_upper_bound; [lia|].
    pose proof (Z.mul_div_le (size chunk + kPageSize - 1) kPageSize).
    pose proof (Z.mod_pos_bound (size chunk + kPageSize - 1) kPageSize).
    pose proof (Z.div_mod (size chunk + kPageSize - 1) kPageSize).
    lia. }
  destruct (lookup_lt_is_Some_2 slots (Z.to_nat q)) as [ss Hss]; [lia|].
  exists ss. split; [done|]. split.
  - rewrite <- (Z2Nat.id q) by lia. by apply array_get_lookup.
  - intros x. rewrite <- (Z2Nat.id q) at 1 by lia.
    apply array_set_insert. lia.
Qed.

Lemma table_shape_fields chunk chunk' slots :
  address chunk' = address chunk → size chunk' = size chunk →
  table_shape chunk slots → table_shape chunk' slots.
Proof. unfold table_shape, pages. by intros -> ->. Qed.

Lemma chunk_ok_shaped direction chunk :
  chunk_ok direction chunk → chunk_shaped direction chunk.
Proof.
  unfold chunk_ok, chunk_shaped. rewrite <- ?GetSlotSet_table.
  destruct (RememberedSet.GetSlotSet direction chunk); [by intros [? _]|done].
Qed.

Lemma PutSlotSet_Allocate direction chunk slots :
  RememberedSet.PutSlotSet direction
    (RememberedSet.AllocateSlotSet direction chunk).1 slots
  = RememberedSet.PutSlotSet direction chunk slots.
Proof. by destruct direction. Qed.

Lemma PutSlotSet_PutSlotSet direction chunk slots slots' :
  RememberedSet.PutSlotSet direction
    (RememberedSet.PutSlotSet direction chunk slots) slots'
  = RememberedSet.PutSlotSet direction chunk slots'.
Proof. by destruct direction. Qed.

Lemma recorded_PutSlotSet direction chunk slots :
  recorded direction (RememberedSet.PutSlotSet direction chunk slots)
  = slots ≫= SlotSet.addresses.
Proof.
  unfold recorded. rewrite <- ?GetSlotSet_table.
  by rewrite GetSlotSet_PutSlotSet.
Qed.

(** [Insert] for an address inside the chunk: the table is allocated if
    there is none, and the offset of the address in its unit is added to
    the slot set of that unit. *)
Lemma Insert_table direction chunk (a : Address) :
  chunk_fits chunk → Contains chunk a = true →
  chunk_shaped direction chunk →
  ∃ slots0 ss,
    slots0 = default (new_slot_sets chunk)
                     (RememberedSet.GetSlotSet direction chunk)
    ∧ table_shape chunk slots0
    ∧ slots0 ≫= SlotSet.addresses = recorded direction chunk
    ∧ slots0 !! Z.to_nat ((a - address chunk) `div` kPageSize) = Some ss
    ∧ RememberedSet.Insert direction chunk a
      = Ok (RememberedSet.PutSlotSet direction chunk
              (<[Z.to_nat ((a - address chunk) `div` kPageSize)
                 := SlotSet.Insert ((a - address chunk) `mod` kPageSize) ss]>
                 slots0)).
Proof.
  intros Hfits Hin Hshaped.
  set (slots0 := default (new_slot_sets chunk)
                         (RememberedSet.GetSlotSet direction chunk)).
  assert (table_shape chunk slots0) as Hshape.
  { subst slots0. unfold chunk_shaped in Hshaped.
    rewrite <- ?GetSlotSet_table in Hshaped.
    destruct (RememberedSet.GetSlotSet direction chunk); [done|].
    apply new_slot_sets_shape. }
  destruct (unit_of_address chunk slots0 a Hfits Hin Hshape)
    as (Hwrap & _ & ss & Hss & Hget & Hset).
  exists slots0, ss. split; [done|]. split; [done|]. split.
  { subst slots0. unfold recorded. rewrite <- ?GetSlotSet_table.
    destruct (RememberedSet.GetSlotSet direction chunk); [done|].
    apply new_slot_sets_empty. }
  split; [done|].
  unfold RememberedSet.Insert. rewrite Hin, DCHECK_true.
  cbn [mbind Result_bind]. subst slots0.
  destruct (RememberedSet.GetSlotSet direction chunk) as [slots|] eqn:Hg;
    cbn [default from_option id] in *.
  - cbn [deref mbind Result_bind]. rewrite Hwrap, Hget.
    cbn [mbind Result_bind]. rewrite Hset. done.
  - assert (RememberedSet.AllocateSlotSet direction chunk
            = ((RememberedSet.AllocateSlotSet direction chunk).1,
               Some (new_slot_sets chunk))) as Halloc
      by (by destruct direction).
    rewrite Halloc. cbn [deref mbind Result_bind].
    assert (address (RememberedSet.AllocateSlotSet direction chunk).1
            = address chunk) as -> by (by destruct direction).
    rewrite Hwrap, Hget. cbn [mbind Result_bind]. rewrite Hset.
    cbn [mbind Result_bind]. by rewrite PutSlotSet_Allocate.
Qed.

(** [Remove] for an address inside a chunk that has a table: the offset
    of the address in its unit is removed from the slot set of that
    unit. *)
Lemma Remove_table direction chunk slots (a : Address) :
  chunk_fits chunk → Contains chunk a = true →
  RememberedSet.GetSlotSet direction chunk = Some slots →
  table_shape chunk slots →
  ∃ ss,
    slots !! Z.to_nat ((a - address chunk) `div` kPageSize) = Some ss
    ∧ RememberedSet.Remove direction chunk a
      = Ok (RememberedSet.PutSlotSet direction chunk
              (<[Z.to_nat ((a - address chunk) `div` kPageSize)
                 := SlotSet.Remove ((a - address chunk) `mod` kPageSize) ss]>
                 slots)).
Proof.
  intros Hfits Hin Hg Hshape.
  destruct (unit_of_address chunk slots a Hfits Hin Hshape)
    as (Hwrap & _ & ss & Hss & Hget & Hset).
  exists ss. split; [done|].
  unfold RememberedSet.Remove. rewrite Hin, DCHECK_true, Hg.
  cbn [mbind Result_bind]. rewrite Hwrap, Hget.
  cbn [mbind Result_bind]. by rewrite Hset.
Qed.

(** Two addresses of a chunk with the same unit and the same offset in
    it are the same address. *)
Lemma address_unit_offset chunk (a a' : Address) :
  address chunk ≤ a → address chunk ≤ a' →
  Z.to_nat ((a' - address chunk) `div` kPageSize)
  = Z.to_nat ((a - address chunk) `div` kPageSize) →
  (a' - address chunk) `mod` kPageSize = (a - address chunk) `mod` kPageSize →
  a' = a.
Proof.
  intros Ha Ha' Hdiv Hmod.
  pose proof (Z.div_mod (a - address chunk) kPageSize).
  pose proof (Z.div_mod (a' - address chunk) kPageSize).
  assert (0 ≤ (a - address chunk) `div` kPageSize)
    by (apply Z.div_pos; lia).
  assert (0 ≤ (a' - address chunk) `div` kPageSize)
    by (apply Z.div_pos; lia).
  assert ((a' - address chunk) `div` kPageSize
          = (a - address chunk) `div` kPageSize) as Heq by lia.
  rewrite Heq, Hmod in *. lia.
Qed.
End UpdateFacts.

(** ** RememberedSet: Insert, Remove and RemoveRange *)

Section UpdateClaims.
Context `{Config}.
Hypothesis kPageSize_pos : 0 < kPageSize.
Import MemoryChunk.

Lemma chunk_ok_count direction chunk :
  chunk_ok direction chunk →
  Z.of_nat (length (recorded direction chunk)) ≤ INT_MAX.
Proof.
  unfold chunk_ok, recorded. rewrite <- ?GetSlotSet_table.
  destruct (RememberedSet.GetSlotSet direction chunk); simpl.
  - by intros [_ ?].
  - intros _. unfold INT_MAX. lia.
Qed.

(** A scan visits only recorded slots. *)
Lemma scanned_recorded {S : Type} direction (a : Address)
    (cs cs' : list MemoryChunk.t) (logs : list (list (Visit S))) :
  Forall3 (chunk_scanned direction) cs cs' logs →
  Forall (λ c, a ∉ recorded direction c) cs →
  Forall (λ v, visit_addr v ≠ a) (mjoin logs).
Proof.
  induction 1 as [|c c' vs cs cs' logs Hc _ IH]; [constructor|].
  intros [Ha Hcs]%Forall_cons. simpl. apply Forall_app. split; [|auto].
  destruct Hc as (_ & _ & _ & _ & _ & Hcase).
  rewrite <- ?GetSlotSet_table in Hcase.
  apply Forall_forall. intros v Hv Heq.
  destruct (if scanned direction c
            then RememberedSet.GetSlotSet direction c else None).
  - destruct Hcase as (Hperm & _). apply Ha. rewrite <- Hperm, <- Heq.
    by apply list_elem_of_fmap_2.
  - destruct Hcase as [_ ->]. by apply elem_of_nil in Hv.
Qed.

(** C7: for an address inside a chunk of the heap, [Insert] followed by
    [Remove] of that address returns and leaves the address unrecorded
    in the table of the chunk; in a scan of the heap after the two calls,
    with any callback, none of the calls made for the chunk is on the
    address, and no call at all is on it when no other chunk holds it (as
    is the case when chunks do not overlap). *)
Theorem Insert_Remove_Iterate (direction : PointerDirection) {S : Type}
    (callback : Address → S → SlotCallbackResult * S) (heap : Heap)
    (before after : list MemoryChunk.t) (chunk : MemoryChunk.t)
    (a : Address) (s : S) :
  chunks heap = before ++ chunk :: after →
  heap_ok direction heap →
  chunk_fits chunk →
  Contains chunk a = true →
  ∃ chunk1 chunk2,
    RememberedSet.Insert direction chunk a = Ok chunk1
    ∧ a ∈ recorded direction chunk1
    ∧ RememberedSet.Remove direction chunk1 a = Ok chunk2
    ∧ (a ∉ recorded direction chunk2)
    ∧ ∃ heap' s' logs_before vs logs_after,
        RememberedSet.Iterate (infallible callback) direction
          (set_chunks (before ++ chunk2 :: after) heap) s = Ok (heap', s')
        ∧ run (infallible callback) s
              (mjoin (logs_before ++ vs :: logs_after)) s'
        ∧ Forall3 (chunk_scanned direction)
                  (before ++ chunk2 :: after) (chunks heap')
                  (logs_before ++ vs :: logs_after)
        ∧ length logs_before = length before
        ∧ Forall (λ v, visit_addr v ≠ a) vs
        ∧ (Forall (λ c, ¬ (a ∈ recorded direction c)) (before ++ after) →
           Forall (λ v, visit_addr v ≠ a)
                  (mjoin (logs_before ++ vs :: logs_after))).
Proof.
  intros Hchunks Hheap Hfits Hin.
  unfold heap_ok in Hheap. rewrite Hchunks in Hheap.
  apply Forall_app in Hheap as [Hbefore [Hchunk Hafter]%Forall_cons].
  pose proof (chunk_ok_count _ _ Hchunk) as Hcount.
  destruct (Insert_table kPageSize_pos direction chunk a Hfits Hin
              (chunk_ok_shaped _ _ Hchunk))
    as (slots0 & ss & _ & Hshape0 & Hrec0 & Hss & HI).
  set (idx := Z.to_nat ((a - address chunk) `div` kPageSize)) in *.
  set (o := (a - address chunk) `mod` kPageSize) in *.
  set (slots1 := <[idx := SlotSet.Insert o ss]> slots0) in *.
  set (chunk1 := RememberedSet.PutSlotSet direction chunk slots1) in *.
  pose proof (PutSlotSet_fields direction chunk slots1)
    as (Ha1 & Hs1 & _ & _). fold chunk1 in Ha1, Hs1.
  destruct (table_shape_lookup _ _ _ _ Hshape0 Hss)
    as (_ & Hrange & _).
  assert (Hin' := Hin). apply bool_decide_eq_true in Hin'.
  assert (0 ≤ o < kPageSize) as Ho
    by (subst o; apply Z.mod_pos_bound; lia).
  assert (table_shape chunk slots1) as Hshape1.
  { eapply table_shape_insert; [done..|].
    intros o' [->%elem_of_singleton|Ho']%elem_of_union; [done|auto]. }
  assert (slots1 !! idx = Some (SlotSet.Insert o ss)) as Hss1.
  { subst slots1. apply list_lookup_insert_eq. by eapply lookup_lt_Some. }
  destruct (Remove_table kPageSize_pos direction chunk1 slots1 a)
    as (ss1 & Hss1' & HR).
  { unfold chunk_fits. by rewrite Hs1. }
  { unfold Contains. rewrite Ha1, Hs1. by apply bool_decide_eq_true. }
  { apply GetSlotSet_PutSlotSet. }
  { by eapply table_shape_fields. }
  rewrite Ha1 in Hss1', HR. fold idx o in Hss1', HR.
  rewrite Hss1 in Hss1'. injection Hss1' as <-.
  subst chunk1. rewrite PutSlotSet_PutSlotSet in HR.
  subst slots1. rewrite list_insert_insert_eq in HR.
  set (ss2 := SlotSet.Remove o (SlotSet.Insert o ss)) in *.
  set (slots2 := <[idx := ss2]> slots0) in *.
  set (chunk2 := RememberedSet.PutSlotSet direction chunk slots2) in *.
  assert (SlotSet.slots ss2 ⊆ SlotSet.slots ss) as Hsub.
  { subst ss2. simpl. intros o' [Ho' Hne]%elem_of_difference.
    apply elem_of_union in Ho' as [Ho'|Ho']; done. }
  assert (table_shape chunk slots2) as Hshape2.
  { eapply table_shape_insert; [done..|]. intros o' Ho'. auto. }
  exists (RememberedSet.PutSlotSet direction chunk
            (<[idx := SlotSet.Insert o ss]> slots0)), chunk2.
  split; [done|]. split.
  { rewrite recorded_PutSlotSet.
    apply (recorded_insert kPageSize_pos chunk slots0 idx ss); [done..| |].
    - intros o' [->%elem_of_singleton|Ho']%elem_of_union; [done|auto].
    - split; [lia|]. fold idx o. rewrite decide_True by done.
      simpl. apply elem_of_union_l. by apply elem_of_singleton. }
  split; [done|].
  assert (a ∉ recorded direction chunk2) as Hgone.
  { subst chunk2. rewrite recorded_PutSlotSet. subst slots2.
    rewrite (recorded_insert kPageSize_pos chunk slots0 idx ss ss2);
      [|done..|by intros o' Ho'; auto].
    fold idx o. rewrite decide_True by done.
    subst ss2. simpl. intros [_ [_ Hne]%elem_of_difference].
    apply Hne. by apply elem_of_singleton. }
  split; [done|].
  assert (chunk_ok direction chunk2) as Hchunk2.
  { unfold chunk_ok.
    rewrite <- ?GetSlotSet_table. subst chunk2. rewrite GetSlotSet_PutSlotSet.
    split.
    - eapply table_shape_fields; [apply PutSlotSet_fields..|done].
    - pose proof (count_shrink_insert slots0 idx ss ss2 Hss Hsub) as Hle.
      fold slots2 in Hle. rewrite Hrec0 in Hle. lia. }
  pose proof (Iterate_scan (infallible callback) (λ _, False)
                (infallible_fails callback) kPageSize_pos direction
                (set_chunks (before ++ chunk2 :: after) heap) s) as Hscan.
  destruct (RememberedSet.Iterate _ _ _ _) as [[heap' s']|e].
  - destruct Hscan as (logs & Hrun & Hscanned & _).
    { unfold heap_ok. simpl. apply Forall_app. split; [done|].
      by constructor. }
    simpl in Hscanned.
    assert (Hsplit := Hscanned).
    apply Forall3_app_inv_l in Hsplit
      as (cs1 & cs2 & logs_before & logs2 & Hcs & -> & Hsc1 & Hsc2).
    apply Forall3_cons_inv_l in Hsc2
      as (c2' & cs3 & vs & logs_after & -> & -> & Hc2 & Hsc3).
    exists heap', s', logs_before, vs, logs_after.
    do 3 (split; [done|]).
    split; [symmetry; by eapply Forall3_length_lr|].
    split.
    + pose proof (scanned_recorded direction a [chunk2] [c2'] [vs]) as Hvs.
      simpl in Hvs. rewrite app_nil_r in Hvs. apply Hvs.
      * constructor; [done|constructor].
      * by constructor.
    + intros [Hnb Hna]%Forall_app.
      eapply scanned_recorded; [done|].
      apply Forall_app. split; [done|]. by constructor.
  - destruct Hscan. unfold heap_ok. simpl. apply Forall_app.
    split; [done|]. by constructor.
Qed.

(** What is recorded after [Insert]. *)
Lemma Insert_recorded direction chunk (a : Address) :
  chunk_fits chunk → Contains chunk a = true →
  chunk_shaped direction chunk →
  ∃ chunk',
    RememberedSet.Insert direction chunk a = Ok chunk'
    ∧ chunk_shaped direction chunk'
    ∧ address chunk' = address chunk ∧ size chunk' = size chunk
    ∧ ∀ a', a' ∈ recorded direction chunk' ↔
            a' = a ∨ a' ∈ recorded direction chunk.
Proof.
  intros Hfits Hin Hshaped.
  destruct (Insert_table kPageSize_pos direction chunk a Hfits Hin Hshaped)
    as (slots0 & ss & _ & Hshape0 & Hrec0 & Hss & HI).
  set (idx := Z.to_nat ((a - address chunk) `div` kPageSize)) in *.
  set (o := (a - address chunk) `mod` kPageSize) in *.
  destruct (table_shape_lookup _ _ _ _ Hshape0 Hss) as (_ & Hrange & _).
  assert (Hin' := Hin). apply bool_decide_eq_true in Hin'.
  assert (0 ≤ o < kPageSize) as Ho
    by (subst o; apply Z.mod_pos_bound; lia).
  assert (set_Forall (λ o, 0 ≤ o < kPageSize)
            (SlotSet.slots (SlotSet.Insert o ss))) as Hrange'.
  { intros o' [->%elem_of_singleton|Ho']%elem_of_union; [done|auto]. }
  eexists. split; [exact HI|].
  pose proof (PutSlotSet_fields direction chunk
                (<[idx := SlotSet.Insert o ss]> slots0)) as (Ha & Hs & _ & _).
  split.
  { unfold chunk_shaped.
    rewrite <- ?GetSlotSet_table. rewrite GetSlotSet_PutSlotSet.
    eapply table_shape_fields; [done..|]. by eapply table_shape_insert. }
  do 2 (split; [done|]).
  intros a'. rewrite recorded_PutSlotSet, <- Hrec0.
  rewrite (recorded_insert kPageSize_pos chunk slots0 idx ss) by done.
  rewrite (recorded_in_table kPageSize_pos chunk slots0 a' Hshape0).
  case_decide as Hcase; simpl.
  - rewrite elem_of_union, elem_of_singleton. split.
    + intros [Hle [Ho'|Ho']].
      * left. eapply address_unit_offset; eauto. lia.
      * right. split; [done|]. exists ss. by rewrite Hcase.
    + intros [->|[Hle (ss' & Hss' & Ho')]]; (split; [lia|]); [by left|].
      right. rewrite Hcase, Hss in Hss'. by injection Hss' as <-.
  - rewrite (recorded_in_table kPageSize_pos chunk slots0 a' Hshape0).
    split.
    + intros [_ ?]. by right.
    + intros [->|[? ?]]; [by destruct Hcase|done].
Qed.

(** [RemoveRange] for a range inside the first unit of a chunk that has
    a table: the offsets of the range are removed from the slot set of
    the first unit. *)
Lemma RemoveRange_table direction chunk slots (start end_ : Address) :
  kPageSize ≤ INT_MAX → chunk_fits chunk →
  RememberedSet.GetSlotSet direction chunk = Some slots →
  table_shape chunk slots →
  address chunk ≤ start → start < end_ →
  end_ ≤ address chunk + kPageSize → end_ ≤ address chunk + size chunk →
  ∃ ss,
    slots !! 0%nat = Some ss
    ∧ RememberedSet.RemoveRange direction chunk start end_
      = Ok (RememberedSet.PutSlotSet direction chunk
              (<[0%nat := SlotSet.RemoveRange (start - address chunk)
                                              (end_ - address chunk) ss]>
                 slots)).
Proof.
  intros Hint [Hsize Hfit] Hg Hshape Hstart Hlt Hend Hend'.
  unfold INT_MAX in Hint.
  pose proof (table_shape_length _ _ kPageSize_pos Hshape) as Hlen.
  assert (1 ≤ pages chunk) as Hpages.
  { unfold pages, wrap64. rewrite Z.mod_small by lia.
    apply Z.div_le_lower_bound; lia. }
  destruct (lookup_lt_is_Some_2 slots 0) as [ss Hss]; [lia|].
  exists ss. split; [done|].
  unfold RememberedSet.RemoveRange. rewrite Hg.
  assert (wrap64 (start - address chunk) = start - address chunk) as ->
    by (unfold wrap64; apply Z.mod_small; lia).
  assert (wrap64 (end_ - address chunk) = end_ - address chunk) as ->
    by (unfold wrap64; apply Z.mod_small; lia).
  assert (wrap64 kPageSize = kPageSize) as ->
    by (unfold wrap64; apply Z.mod_small; lia).
  assert (wrap32 (start - address chunk) = start - address chunk) as ->
    by (unfold wrap32; apply Z.mod_small; lia).
  assert (wrap32 (end_ - address chunk) = end_ - address chunk) as ->
    by (unfold wrap32; apply Z.mod_small; lia).
  destruct (Z.ltb_spec (start - address chunk) (end_ - address chunk));
    [|lia].
  destruct (Z.leb_spec (end_ - address chunk) kPageSize); [|lia].
  rewrite DCHECK_true. cbn [mbind Result_bind].
  change 0 with (Z.of_nat 0).
  rewrite (array_get_lookup _ _ _ Hss). cbn [mbind Result_bind].
  rewrite array_set_insert by lia. done.
Qed.

Lemma Contains_fields chunk chunk' (a : Address) :
  address chunk' = address chunk → size chunk' = size chunk →
  Contains chunk' a = Contains chunk a.
Proof. unfold Contains. by intros -> ->. Qed.

Lemma chunk_fits_fields chunk chunk' :
  size chunk' = size chunk → chunk_fits chunk → chunk_fits chunk'.
Proof. unfold chunk_fits. by intros ->. Qed.

(** What is recorded after [RemoveRange] for a range inside the first
    unit. *)
Lemma RemoveRange_recorded direction chunk (start end_ : Address) :
  kPageSize ≤ INT_MAX → chunk_fits chunk → chunk_shaped direction chunk →
  address chunk ≤ start → start < end_ →
  end_ ≤ address chunk + kPageSize → end_ ≤ address chunk + size chunk →
  ∃ chunk',
    RememberedSet.RemoveRange direction chunk start end_ = Ok chunk'
    ∧ chunk_shaped direction chunk'
    ∧ address chunk' = address chunk ∧ size chunk' = size chunk
    ∧ ∀ a, a ∈ recorded direction chunk' ↔
           a ∈ recorded direction chunk ∧ ¬ (start ≤ a < end_).
Proof.
  intros Hint Hfits Hshaped Hstart Hlt Hend Hend'.
  destruct (RememberedSet.GetSlotSet direction chunk) as [slots|] eqn:Hg.
  2:{ exists chunk. unfold RememberedSet.RemoveRange, recorded.
      rewrite <- ?GetSlotSet_table.
      rewrite Hg. do 4 (split; [done|]). simpl.
      intros a. split; [by intros ?%elem_of_nil|by intros [?%elem_of_nil _]]. }
  assert (table_shape chunk slots) as Hshape
    by (unfold chunk_shaped in Hshaped;
        rewrite <- GetSlotSet_table in Hshaped; by rewrite Hg in Hshaped).
  destruct (RemoveRange_table direction chunk slots start end_)
    as (ss & Hss & HR); [done..|].
  destruct (table_shape_lookup _ _ _ _ Hshape Hss) as (_ & Hrange & _).
  set (ss' := SlotSet.RemoveRange (start - address chunk)
                                  (end_ - address chunk) ss) in *.
  assert (set_Forall (λ o, 0 ≤ o < kPageSize) (SlotSet.slots ss'))
    as Hrange'.
  { intros o [_ Ho]%elem_of_filter. auto. }
  pose proof (PutSlotSet_fields direction chunk (<[0%nat := ss']> slots))
    as (Ha & Hs & _ & _).
  eexists. split; [exact HR|]. split.
  { unfold chunk_shaped.
    rewrite <- ?GetSlotSet_table. rewrite GetSlotSet_PutSlotSet.
    eapply table_shape_fields; [done..|]. by eapply table_shape_insert. }
  do 2 (split; [done|]).
  intros a. rewrite recorded_PutSlotSet.
  rewrite (recorded_insert kPageSize_pos chunk slots 0%nat ss) by done.
  unfold recorded.
  rewrite <- ?GetSlotSet_table. rewrite Hg. cbn [table_addresses].
  case_decide as Hcase.
  - rewrite (recorded_in_table kPageSize_pos chunk slots a Hshape).
    assert (0 ≤ a - address chunk →
            (a - address chunk) `mod` kPageSize = a - address chunk) as Hmod.
    { intros Hge.
      assert ((a - address chunk) `div` kPageSize = 0) as Hdiv.
      { pose proof (Z.div_pos (a - address chunk) kPageSize). lia. }
      pose proof (Z.div_mod (a - address chunk) kPageSize). lia. }
    subst ss'. simpl. rewrite elem_of_filter. split.
    + intros (Hle & Hout & Ho). split.
      * split; [done|]. exists ss. by rewrite Hcase.
      * rewrite Hmod in Hout by lia. lia.
    + intros ((Hle & ss0 & Hss0 & Ho) & Hout).
      rewrite Hcase, Hss in Hss0. injection Hss0 as <-.
      split; [done|]. split; [|done]. rewrite Hmod by lia. lia.
  - split.
    + intros [Hle Ha']. split; [done|].
      assert (1 ≤ (a - address chunk) `div` kPageSize) as Hdiv.
      { pose proof (Z.div_pos (a - address chunk) kPageSize). lia. }
      pose proof (Z.div_mod (a - address chunk) kPageSize).
      pose proof (Z.mod_pos_bound (a - address chunk) kPageSize). nia.
    + intros [Ha' _]. split; [|done].
      by apply (recorded_in_table kPageSize_pos chunk slots a Hshape).
Qed.

(** C5 (amended): [RemoveRange] does nothing to a chunk without a table.
    For a chunk with a table and a half-open range with
    start < end <= kPageSize (the size of one unit, not the size of the
    region) that lies inside the region, it removes exactly the recorded
    slots inside the range and leaves all others recorded. In
    particular, with the offsets 10, 50 and 200 recorded in a region,
    removing the range from 40 to 100 leaves exactly 10 and 200. *)
Theorem RemoveRange_first_unit (direction : PointerDirection)
    (chunk : MemoryChunk.t) :
  kPageSize ≤ INT_MAX → chunk_fits chunk → chunk_shaped direction chunk →
  (table direction chunk = None →
   ∀ start end_,
     RememberedSet.RemoveRange direction chunk start end_ = Ok chunk)
  ∧ (∀ start end_,
       address chunk ≤ start → start < end_ →
       end_ ≤ address chunk + kPageSize →
       end_ ≤ address chunk + size chunk →
       ∃ chunk',
         RememberedSet.RemoveRange direction chunk start end_ = Ok chunk'
         ∧ ∀ a, a ∈ recorded direction chunk' ↔
                a ∈ recorded direction chunk ∧ ¬ (start ≤ a < end_))
  ∧ (recorded direction chunk = [] → 200 < size chunk → 100 ≤ kPageSize →
     ∃ chunk1 chunk2 chunk3 chunk4,
       RememberedSet.Insert direction chunk (address chunk + 10) = Ok chunk1
       ∧ RememberedSet.Insert direction chunk1 (address chunk + 50)
         = Ok chunk2
       ∧ RememberedSet.Insert direction chunk2 (address chunk + 200)
         = Ok chunk3
       ∧ RememberedSet.RemoveRange direction chunk3
           (address chunk + 40) (address chunk + 100) = Ok chunk4
       ∧ ∀ a, a ∈ recorded direction chunk4 ↔
              a = address chunk + 10 ∨ a = address chunk + 200).
Proof.
  intros Hint Hfits Hshaped. split; [|split].
  - intros Hg start end_. unfold RememberedSet.RemoveRange.
    by rewrite GetSlotSet_table, Hg.
  - intros start end_ Hstart Hlt Hend Hend'.
    destruct (RemoveRange_recorded direction chunk start end_)
      as (chunk' & HR & _ & _ & _ & Hrec); [done..|].
    by exists chunk'.
  - intros Hempty Hsize Hunit.
    destruct (Insert_recorded direction chunk (address chunk + 10))
      as (chunk1 & HI1 & Hshaped1 & Ha1 & Hs1 & Hrec1); [done| |done|].
    { apply bool_decide_eq_true. lia. }
    destruct (Insert_recorded direction chunk1 (address chunk + 50))
      as (chunk2 & HI2 & Hshaped2 & Ha2 & Hs2 & Hrec2); [| |done|].
    { by eapply chunk_fits_fields. }
    { rewrite (Contains_fields chunk) by done.
      apply bool_decide_eq_true. lia. }
    destruct (Insert_recorded direction chunk2 (address chunk + 200))
      as (chunk3 & HI3 & Hshaped3 & Ha3 & Hs3 & Hrec3); [| |done|].
    { eapply chunk_fits_fields; [|done]. congruence. }
    { rewrite (Contains_fields chunk) by congruence.
      apply bool_decide_eq_true. lia. }
    destruct (RemoveRange_recorded direction chunk3
                (address chunk + 40) (address chunk + 100))
      as (chunk4 & HR & _ & _ & _ & Hrec4);
      [done| |done|
       (rewrite ?Ha3, ?Ha2, ?Ha1, ?Hs3, ?Hs2, ?Hs1; lia)..|].
    { eapply chunk_fits_fields; [|done]. congruence. }
    exists chunk1, chunk2, chunk3, chunk4. do 4 (split; [done|]).
    intros a. rewrite Hrec4, Hrec3, Hrec2, Hrec1, Hempty.
    rewrite elem_of_nil. lia.
Qed.
End UpdateClaims.

(** ** RememberedSet: typed operations and ClearAll *)

Section TypedClaims.
Context `{Config}.
Import MemoryChunk.

Lemma for_each_ALL_map (f : MemoryChunk.t → MemoryChunk.t)
    (cs : list MemoryChunk.t) :
  MemoryChunkIterator.for_each MemoryChunkIterator.ALL
    (λ chunk (u : unit), Ok (f chunk, u)) cs () = Ok (f <$> cs, ()).
Proof.
  induction cs as [|c cs IH]; [done|].
  cbn [MemoryChunkIterator.for_each].
  assert (MemoryChunkIterator.in_scope MemoryChunkIterator.ALL c = true)
    as -> by done.
  cbn [mbind Result_bind]. by rewrite IH.
Qed.

(** C8: for the Old-to-Old direction and every heap, [ClearAll] returns
    and has released the old-to-old table and the typed old-to-old table
    of every chunk of the heap, leaving everything else as it was;
    afterwards [Iterate] and [IterateTyped] leave the heap as it is and
    call their callback on nothing, whatever the callback. *)
Theorem ClearAll_releases_all (heap : Heap) :
  ∃ heap',
    RememberedSet.ClearAll OLD_TO_OLD heap = Ok heap'
    ∧ heap' = set_chunks
                ((λ chunk, ReleaseTypedOldToOldSlots
                             (ReleaseOldToOldSlots chunk)) <$> chunks heap)
                heap
    ∧ Forall (λ chunk, old_to_old_slots chunk = None
                       ∧ typed_old_to_old_slots chunk = None)
             (chunks heap')
    ∧ (∀ (S : Type)
         (callback : Address → S → Result (SlotCallbackResult * S)) (s : S),
         RememberedSet.Iterate callback OLD_TO_OLD heap' s = Ok (heap', s))
    ∧ (∀ (S : Type)
         (callback : SlotType → Address → S
                     → Result (SlotCallbackResult * S)) (s : S),
         RememberedSet.IterateTyped callback OLD_TO_OLD heap' s
         = Ok (heap', s)).
Proof.
  eexists. split.
  { unfold RememberedSet.ClearAll. simpl.
    rewrite for_each_ALL_map. simpl. done. }
  split; [done|].
  assert (Forall (λ chunk, old_to_old_slots chunk = None
                           ∧ typed_old_to_old_slots chunk = None)
            ((λ chunk, ReleaseTypedOldToOldSlots
                         (ReleaseOldToOldSlots chunk)) <$> chunks heap))
    as Hnone by (by apply Forall_fmap, Forall_true).
  split; [done|]. split.
  - intros S callback s. unfold RememberedSet.Iterate.
    rewrite for_each_no_table.
    + simpl. by destruct heap.
    + eapply Forall_impl; [exact Hnone|]. by intros c [? _].
  - intros S callback s. unfold RememberedSet.IterateTyped.
    rewrite for_each_no_typed_table.
    + simpl. by destruct heap.
    + eapply Forall_impl; [exact Hnone|]. by intros c [_ ?].
Qed.
End TypedClaims.

(** C6: of the operations that are meant for the Old-to-Old direction
    only, [InsertTyped] and [ClearAll] carry a [STATIC_ASSERT] and are
    rejected when instantiated for Old-to-New. [RemoveRangeTyped] and
    [IterateTyped] carry none: instantiated for Old-to-New they are the
    same functions as for Old-to-Old, and they run. On a page with one
    typed slot, [RemoveRangeTyped] for Old-to-New removes the slot, and
    [IterateTyped] for Old-to-New calls the callback on it and releases
    the table. *)
Theorem typed_operations_direction_check :
  (∀ (config : Config) page slot_type slot_addr,
     RememberedSet.InsertTyped OLD_TO_NEW page slot_type slot_addr
     = Fail StaticAssertFailure)
  ∧ (∀ heap, RememberedSet.ClearAll OLD_TO_NEW heap = Fail StaticAssertFailure)
  ∧ (∀ page start end_,
       RememberedSet.RemoveRangeTyped OLD_TO_NEW page start end_
       = RememberedSet.RemoveRangeTyped OLD_TO_OLD page start end_)
  ∧ (∀ (S : Type)
       (callback : SlotType → Address → S → Result (SlotCallbackResult * S))
       heap s,
       RememberedSet.IterateTyped callback OLD_TO_NEW heap s
       = RememberedSet.IterateTyped callback OLD_TO_OLD heap s)
  ∧ RememberedSet.RemoveRangeTyped OLD_TO_NEW sample_typed_page
      8388608 8388708
    = Ok (MemoryChunk.set_typed_old_to_old_slots
            (Some (TypedSlotSet.create 8388608)) sample_typed_page)
  ∧ RememberedSet.IterateTyped
      (λ slot_type slot_addr visited,
         Ok (REMOVE_SLOT, (slot_type, slot_addr) :: visited))
      OLD_TO_NEW sample_typed_heap []
    = Ok (set_chunks
            [MemoryChunk.ReleaseTypedOldToOldSlots sample_typed_page]
            sample_typed_heap,
          [(3, 8388672)]).
Proof. repeat split. Qed.

(** C1, as stated, fails in a debug build: the first slot of
    [sample_page] is recorded and holds, in [sample_memory_to_space], a
    word that points into to-space, so its pointee is not in from-space.
    The slot is not removed: the scan stops at
    [DCHECK(!heap->InNewSpace(object))] of [Wrapper], and there is no
    heap after the scan. In a release build the same scan returns and
    removes the slot. *)
Lemma IterateWithWrapper_to_space_counterexample :
  heap_ok (H:=sample_config) OLD_TO_NEW sample_heap
  ∧ In sample_page (chunks sample_heap)
  ∧ scanned OLD_TO_NEW sample_page = true
  ∧ 1048592 ∈ recorded OLD_TO_NEW sample_page
  ∧ InFromSpace sample_heap (sample_load sample_memory_to_space 1048592)
    = false
  ∧ InToSpace sample_heap (sample_load sample_memory_to_space 1048592)
    = true
  ∧ RememberedSet.IterateWithWrapper (H:=sample_config) sample_load
      sample_relocate OLD_TO_NEW sample_heap sample_memory_to_space
    = Fail DcheckFailure
  ∧ ¬ (∃ heap' s',
         RememberedSet.IterateWithWrapper (H:=sample_config) sample_load
           sample_relocate OLD_TO_NEW sample_heap sample_memory_to_space
         = Ok (heap', s')
         ∧ Forall (λ chunk', 1048592 ∉ recorded OLD_TO_NEW chunk')
                  (chunks heap'))
  ∧ ∃ heap',
      RememberedSet.IterateWithWrapper (H:=sample_release_config)
        sample_load sample_relocate OLD_TO_NEW sample_heap
        sample_memory_to_space
      = Ok (heap', sample_memory_to_space)
      ∧ recorded OLD_TO_NEW <$> chunks heap' = [[]; []].
Proof.
  split; [by_computation|]. split; [by left|].
  split; [reflexivity|]. split; [by_computation|].
  split; [reflexivity|]. split; [reflexivity|].
  assert (RememberedSet.IterateWithWrapper (H:=sample_config) sample_load
            sample_relocate OLD_TO_NEW sample_heap sample_memory_to_space
          = Fail DcheckFailure) as Hfail by (vm_compute; reflexivity).
  split; [exact Hfail|]. split.
  - intros (heap' & s' & Heq & _). rewrite Hfail in Heq. discriminate.
  - eexists. split; vm_compute; reflexivity.
Qed.

(** C5, as stated, fails for a region larger than one unit: in the
    two-unit chunk [sample_large_page] with the slot at offset
    [kPageSize + 50] recorded, the range from [kPageSize + 40] to
    [kPageSize + 100] satisfies start < end <= region size, and the slot
    lies inside it (the chunk starts at 4194304, so these are the
    addresses 5242920, 5242980 and 5242930); yet [RemoveRange] does not
    remove the slot. In a debug
    build the call stops at [DCHECK_LE(end_offset, kPageSize)]; in a
    release build it returns and the slot is still recorded. *)
Lemma RemoveRange_second_unit_counterexample :
  ∃ chunk,
    RememberedSet.Insert (H:=sample_config) OLD_TO_NEW sample_large_page
      5242930 = Ok chunk
    ∧ RememberedSet.Insert (H:=sample_release_config) OLD_TO_NEW
        sample_large_page 5242930 = Ok chunk
    ∧ recorded OLD_TO_NEW chunk = [5242930]
    ∧ 5242920 - MemoryChunk.address chunk
      < 5242980 - MemoryChunk.address chunk ≤ MemoryChunk.size chunk
    ∧ 5242920 ≤ 5242930 < 5242980
    ∧ RememberedSet.RemoveRange (H:=sample_config) OLD_TO_NEW chunk
        5242920 5242980 = Fail DcheckFailure
    ∧ RememberedSet.RemoveRange (H:=sample_release_config) OLD_TO_NEW chunk
        5242920 5242980 = Ok chunk
    ∧ ¬ (∃ chunk',
           RememberedSet.RemoveRange (H:=sample_config) OLD_TO_NEW chunk
             5242920 5242980 = Ok chunk'
           ∧ ∀ a, a ∈ recorded OLD_TO_NEW chunk' ↔
                  a ∈ recorded OLD_TO_NEW chunk
                  ∧ ¬ (5242920 ≤ a < 5242980))
    ∧ ¬ (∃ chunk',
           RememberedSet.RemoveRange (H:=sample_release_config) OLD_TO_NEW
             chunk 5242920 5242980 = Ok chunk'
           ∧ ∀ a, a ∈ recorded OLD_TO_NEW chunk' ↔
                  a ∈ recorded OLD_TO_NEW chunk
                  ∧ ¬ (5242920 ≤ a < 5242980)).
Proof.
  exists (MemoryChunk.set_old_to_new_slots
            (Some [SlotSet.create 4194304;
                   SlotSet.Insert 50 (SlotSet.create 5242880)])
            sample_large_page).
  split; [vm_compute; reflexivity|].
  split; [vm_compute; reflexivity|].
  split; [vm_compute; reflexivity|].
  split; [simpl; lia|].
  split; [lia|].
  split; [vm_compute; reflexivity|].
  split; [vm_compute; reflexivity|].
  split.
  - intros (chunk' & Hrr & _). vm_compute in Hrr. discriminate.
  - intros (chunk' & Hrr & Hrec).
    assert (5242930 ∈ recorded OLD_TO_NEW chunk') as Hin.
    { vm_compute in Hrr. injection Hrr as <-. vm_compute. by left. }
    apply Hrec in Hin as [_ Hout]. apply Hout. lia.
Qed.

(** ** The model at sample inputs *)

(** Twenty addresses in nodes of sixteen words: [Iterate] reads the newest
    node first and each node in the order it was filled. *)
Example Iterate_newest_node_first :
  (b ← LocalSlotsBuffer.record_all (H:=sample_config)
         (LocalSlotsBuffer.Untyped <$> seqZ 100 20)
         (LocalSlotsBuffer.create (H:=sample_config));
   LocalSlotsBuffer.Iterate (H:=sample_config)
     (λ addr visited, visited ++ [addr]) (λ _ _ visited, visited) b [])
  = Ok (seqZ 116 4 ++ seqZ 100 16).
Proof. vm_compute. reflexivity. Qed.

(** A typed pair that does not fit behind fifteen words of a node goes to
    a new node as a whole. *)
Example typed_pair_moves_to_new_node :
  (b ← LocalSlotsBuffer.record_all (H:=sample_config)
         sample_full_node_records
         (LocalSlotsBuffer.create (H:=sample_config));
   Ok (LocalSlotsBuffer.entries <$> LocalSlotsBuffer.top_ b))
  = Ok [[3; 200]; seqZ 100 15].
Proof. vm_compute. reflexivity. Qed.

(** The precondition of [Record] matters: an address below
    [NUMBER_OF_SLOT_TYPES] stops a debug build at the [DCHECK]; a release
    build stores it, and [Iterate] then takes it for a tag marker. *)
Example Record_below_NUMBER_OF_SLOT_TYPES :
  LocalSlotsBuffer.RecordAddress (H:=sample_config) 3
    (LocalSlotsBuffer.create (H:=sample_config)) = Fail DcheckFailure
  ∧ (b ← LocalSlotsBuffer.record_all (H:=sample_release_config)
           [LocalSlotsBuffer.Untyped 3; LocalSlotsBuffer.Untyped 100]
           (LocalSlotsBuffer.create (H:=sample_release_config));
     LocalSlotsBuffer.Iterate (H:=sample_release_config)
       (λ addr visited, visited ++ [inl addr])
       (λ type addr visited, visited ++ [inr (type, addr)]) b [])
    = Ok [inr (3, 100)].
Proof. split; vm_compute; reflexivity. Qed.

(** [IterateWithWrapper] on the sample heap: the slot whose object is
    moved to to-space is kept and updated, the slot that points to an old
    object and the slot whose object dies are removed. *)
Example IterateWithWrapper_sample :
  ('(heap', memory) ←
     RememberedSet.IterateWithWrapper (H:=sample_config) sample_load
       sample_relocate OLD_TO_NEW sample_heap sample_memory;
   Ok (recorded OLD_TO_NEW <$> chunks heap',
       sample_load memory <$> [1048592; 1048608; 1048624]))
  = Ok ([[1048592]; []], [105906177; 2097153; 104857665]).
Proof. vm_compute. reflexivity. Qed.

(** A scan that removes every slot releases the table. *)
Example Iterate_releases_empty_table :
  ('(heap', visited) ←
     RememberedSet.Iterate (H:=sample_config)
       (infallible (λ addr visited, (REMOVE_SLOT, visited ++ [addr])))
       OLD_TO_NEW sample_heap [];
   Ok (MemoryChunk.old_to_new_slots <$> chunks heap', length visited))
  = Ok ([None; None], 3%nat).
Proof. vm_compute. reflexivity. Qed.

(** ** The theorems at sample inputs *)

Lemma IterateWithWrapper_filters_witness :
  0 < kPageSize (Config:=sample_config)
  ∧ heap_ok (H:=sample_config) OLD_TO_NEW sample_heap
  ∧ match RememberedSet.IterateWithWrapper (H:=sample_config)
            sample_load sample_relocate OLD_TO_NEW sample_heap
            sample_memory with
    | Ok (heap', s') =>
        ∃ logs,
          run (RememberedSet.Wrapper (H:=sample_config) sample_load
                 sample_relocate OLD_TO_NEW sample_heap)
              sample_memory (mjoin logs) s'
          ∧ Forall3 (chunk_scanned OLD_TO_NEW)
                    (chunks sample_heap) (chunks heap') logs
          ∧ Forall (wrapped sample_load sample_relocate sample_heap)
                   (mjoin logs)
          ∧ (DEBUG (Config:=sample_config) = true →
             Forall (λ v, wrapper_checks (H:=sample_config) sample_heap
                            (sample_load (visit_pre v) (visit_addr v))
                          = true)
                    (mjoin logs))
    | Fail e =>
        DEBUG (Config:=sample_config) = true ∧ e = DcheckFailure
        ∧ ∃ vs a s1,
            run (RememberedSet.Wrapper (H:=sample_config) sample_load
                   sample_relocate OLD_TO_NEW sample_heap)
                sample_memory vs s1
            ∧ Forall (wrapped sample_load sample_relocate sample_heap) vs
            ∧ Forall (λ v, wrapper_checks (H:=sample_config) sample_heap
                             (sample_load (visit_pre v) (visit_addr v))
                           = true) vs
            ∧ (visit_addr <$> vs) ++ [a]
              `prefix_of` scan_order OLD_TO_NEW (chunks sample_heap)
            ∧ wrapper_checks (H:=sample_config) sample_heap
                (sample_load s1 a) = false
    end
    ∧ (DEBUG (Config:=sample_config) = false →
       ∃ heap' s',
         RememberedSet.IterateWithWrapper (H:=sample_config)
           sample_load sample_relocate OLD_TO_NEW sample_heap
           sample_memory = Ok (heap', s')).
Proof.
  assert (0 < kPageSize (Config:=sample_config)) as Hpos by reflexivity.
  assert (heap_ok (H:=sample_config) OLD_TO_NEW sample_heap) as Hheap
    by by_computation.
  split; [exact Hpos|]. split; [exact Hheap|].
  exact (IterateWithWrapper_filters (H:=sample_config) Hpos sample_load
           sample_relocate sample_heap sample_memory Hheap).
Defined.

Lemma Iterate_filters_and_releases_witness :
  0 < kPageSize (Config:=sample_config)
  ∧ heap_ok (H:=sample_config) OLD_TO_NEW sample_heap
  ∧ ∃ heap' s' logs,
      RememberedSet.Iterate (H:=sample_config)
        (infallible (λ a visited, (REMOVE_SLOT, a :: visited)))
        OLD_TO_NEW sample_heap [] = Ok (heap', s')
      ∧ run (infallible (λ a visited, (REMOVE_SLOT, a :: visited)))
            [] (mjoin logs) s'
      ∧ Forall3 (chunk_scanned OLD_TO_NEW)
                (chunks sample_heap) (chunks heap') logs
      ∧ ∀ (S2 : Type) (callback2 : Address → S2 → SlotCallbackResult * S2)
          (s2 : S2),
          ∃ heap'' s2' logs2,
            RememberedSet.Iterate (H:=sample_config) (infallible callback2)
              OLD_TO_NEW heap' s2 = Ok (heap'', s2')
            ∧ run (infallible callback2) s2 (mjoin logs2) s2'
            ∧ Forall3 (λ chunk' chunk'' (vs2 : list (Visit S2)),
                         table OLD_TO_NEW chunk' = None →
                         chunk'' = chunk' ∧ vs2 = [])
                      (chunks heap') (chunks heap'') logs2.
Proof.
  assert (0 < kPageSize (Config:=sample_config)) as Hpos by reflexivity.
  assert (heap_ok (H:=sample_config) OLD_TO_NEW sample_heap) as Hheap
    by by_computation.
  split; [exact Hpos|]. split; [exact Hheap|].
  exact (Iterate_filters_and_releases (H:=sample_config) Hpos OLD_TO_NEW
           (λ a visited, (REMOVE_SLOT, a :: visited)) sample_heap [] Hheap).
Defined.

Lemma Record_untyped_Iterate_witness :
  0 < KB (Config:=sample_config)
  ∧ forallb (λ a, NUMBER_OF_SLOT_TYPES (Config:=sample_config) <=? a)
            (seqZ 100 20) = true
  ∧ ∃ b visited,
      LocalSlotsBuffer.record_all (H:=sample_config)
        (LocalSlotsBuffer.Untyped <$> seqZ 100 20)
        (LocalSlotsBuffer.create (H:=sample_config)) = Ok b
      ∧ visited ≡ₚ seqZ 100 20
      ∧ length visited = length (seqZ 100 20)
      ∧ (∀ (S : Type) (ucb : Address → S → S)
           (tcb : SlotType → Address → S → S) (s : S),
           LocalSlotsBuffer.Iterate (H:=sample_config) ucb tcb b s
           = Ok (foldl (λ s a, ucb a s) s visited))
      ∧ (LocalSlotsBuffer.kBufferSize (H:=sample_config)
         < Z.of_nat (length (seqZ 100 20)) →
         (1 < length (LocalSlotsBuffer.top_ b))%nat).
Proof.
  assert (0 < KB (Config:=sample_config)) as Hpos by reflexivity.
  assert (forallb (λ a, NUMBER_OF_SLOT_TYPES (Config:=sample_config) <=? a)
            (seqZ 100 20) = true) as Hvalid by reflexivity.
  split; [exact Hpos|]. split; [exact Hvalid|].
  exact (Record_untyped_Iterate (H:=sample_config) Hpos (seqZ 100 20) Hvalid).
Defined.

Lemma Record_typed_pairs_Iterate_witness :
  0 < KB (Config:=sample_config)
  ∧ forallb (LocalSlotsBuffer.valid_record (H:=sample_config))
      sample_records = true
  ∧ ∃ b visited,
      LocalSlotsBuffer.record_all (H:=sample_config) sample_records
        (LocalSlotsBuffer.create (H:=sample_config)) = Ok b
      ∧ (∀ type addr,
           LocalSlotsBuffer.valid_record (H:=sample_config)
             (LocalSlotsBuffer.Typed type addr) = true →
           ∃ b' pre post,
             LocalSlotsBuffer.RecordTyped (H:=sample_config) type addr b
             = Ok b'
             ∧ LocalSlotsBuffer.stream b = pre ++ post
             ∧ LocalSlotsBuffer.stream b' = pre ++ [type; addr] ++ post)
      ∧ LocalSlotsBuffer.markers_paired (H:=sample_config)
          (LocalSlotsBuffer.stream b)
      ∧ (∀ (i : nat) e1 e2,
           LocalSlotsBuffer.stream b !! i = Some e1 →
           LocalSlotsBuffer.stream b !! Datatypes.S i = Some e2 →
           ¬ (LocalSlotsBuffer.is_marker (H:=sample_config) e1 = true
              ∧ LocalSlotsBuffer.is_marker (H:=sample_config) e2 = true))
      ∧ visited ≡ₚ sample_records
      ∧ (∀ (S : Type) (ucb : Address → S → S)
           (tcb : SlotType → Address → S → S) (s : S),
           LocalSlotsBuffer.Iterate (H:=sample_config) ucb tcb b s
           = Ok (foldl (LocalSlotsBuffer.dispatch ucb tcb) s visited)).
Proof.
  assert (0 < KB (Config:=sample_config)) as Hpos by reflexivity.
  assert (forallb (LocalSlotsBuffer.valid_record (H:=sample_config))
            sample_records = true) as Hvalid by reflexivity.
  split; [exact Hpos|]. split; [exact Hvalid|].
  exact (Record_typed_pairs_Iterate (H:=sample_config) Hpos sample_records Hvalid).
Defined.

Lemma typed_pair_in_one_node_witness :
  0 < KB (Config:=sample_config)
  ∧ forallb (LocalSlotsBuffer.valid_record (H:=sample_config))
      sample_full_node_records = true
  ∧ ∃ b,
      LocalSlotsBuffer.record_all (H:=sample_config)
        sample_full_node_records
        (LocalSlotsBuffer.create (H:=sample_config)) = Ok b
      ∧ (∀ type addr,
           LocalSlotsBuffer.valid_record (H:=sample_config)
             (LocalSlotsBuffer.Typed type addr) = true →
           ∃ n1 rest n',
             LocalSlotsBuffer.EnsureSpaceFor (H:=sample_config) 2 b
             = Ok {| LocalSlotsBuffer.top_ := n1 :: rest |}
             ∧ 2 ≤ LocalSlotsBuffer.remaining_free_slots
                     (H:=sample_config) n1
             ∧ LocalSlotsBuffer.RecordTyped (H:=sample_config) type addr b
               = Ok {| LocalSlotsBuffer.top_ := n' :: rest |}
             ∧ LocalSlotsBuffer.entries n'
               = LocalSlotsBuffer.entries n1 ++ [type; addr])
      ∧ Forall (λ n, LocalSlotsBuffer.markers_paired (H:=sample_config)
                       (LocalSlotsBuffer.entries n))
               (LocalSlotsBuffer.top_ b)
      ∧ (∀ (S : Type) (ucb : Address → S → S)
           (tcb : SlotType → Address → S → S) (s : S) (k : nat),
           ∃ c, foldM (LocalSlotsBuffer.iterate_node (H:=sample_config)
                         ucb tcb)
                      (LocalSlotsBuffer.mkCursor false 0 s)
                      (take k (LocalSlotsBuffer.top_ b)) = Ok c
                ∧ LocalSlotsBuffer.typed c = false).
Proof.
  assert (0 < KB (Config:=sample_config)) as Hpos by reflexivity.
  assert (forallb (LocalSlotsBuffer.valid_record (H:=sample_config))
            sample_full_node_records = true) as Hvalid by reflexivity.
  split; [exact Hpos|]. split; [exact Hvalid|].
  exact (typed_pair_in_one_node (H:=sample_config) Hpos sample_full_node_records Hvalid).
Defined.

Lemma RemoveRange_first_unit_witness :
  0 < kPageSize (Config:=sample_config)
  ∧ kPageSize (Config:=sample_config) ≤ INT_MAX
  ∧ chunk_fits (H:=sample_config) sample_large_page
  ∧ chunk_shaped (H:=sample_config) OLD_TO_NEW sample_large_page
  ∧ (table OLD_TO_NEW sample_large_page = None →
     ∀ start end_,
       RememberedSet.RemoveRange (H:=sample_config) OLD_TO_NEW
         sample_large_page start end_ = Ok sample_large_page)
    ∧ (∀ start end_,
         MemoryChunk.address sample_large_page ≤ start → start < end_ →
         end_ ≤ MemoryChunk.address sample_large_page
                + kPageSize (Config:=sample_config) →
         end_ ≤ MemoryChunk.address sample_large_page
                + MemoryChunk.size sample_large_page →
         ∃ chunk',
           RememberedSet.RemoveRange (H:=sample_config) OLD_TO_NEW
             sample_large_page start end_ = Ok chunk'
           ∧ ∀ a, a ∈ recorded OLD_TO_NEW chunk' ↔
                  a ∈ recorded OLD_TO_NEW sample_large_page
                  ∧ ¬ (start ≤ a < end_))
    ∧ (recorded OLD_TO_NEW sample_large_page = [] →
       200 < MemoryChunk.size sample_large_page →
       100 ≤ kPageSize (Config:=sample_config) →
       ∃ chunk1 chunk2 chunk3 chunk4,
         RememberedSet.Insert (H:=sample_config) OLD_TO_NEW sample_large_page
           (MemoryChunk.address sample_large_page + 10) = Ok chunk1
         ∧ RememberedSet.Insert (H:=sample_config) OLD_TO_NEW chunk1
             (MemoryChunk.address sample_large_page + 50) = Ok chunk2
         ∧ RememberedSet.Insert (H:=sample_config) OLD_TO_NEW chunk2
             (MemoryChunk.address sample_large_page + 200) = Ok chunk3
         ∧ RememberedSet.RemoveRange (H:=sample_config) OLD_TO_NEW chunk3
             (MemoryChunk.address sample_large_page + 40)
             (MemoryChunk.address sample_large_page + 100) = Ok chunk4
         ∧ ∀ a, a ∈ recorded OLD_TO_NEW chunk4 ↔
                a = MemoryChunk.address sample_large_page + 10
                ∨ a = MemoryChunk.address sample_large_page + 200).
Proof.
  assert (0 < kPageSize (Config:=sample_config)) as Hpos by reflexivity.
  assert (kPageSize (Config:=sample_config) ≤ INT_MAX) as Hint
    by (vm_compute; discriminate).
  assert (chunk_fits (H:=sample_config) sample_large_page) as Hfits
    by by_computation.
  assert (chunk_shaped (H:=sample_config) OLD_TO_NEW sample_large_page)
    as Hshaped by exact I.
  do 4 (split; [assumption|]).
  exact (RemoveRange_first_unit (H:=sample_config) Hpos OLD_TO_NEW
           sample_large_page Hint Hfits Hshaped).
Defined.

Lemma Insert_Remove_Iterate_witness :
  chunks sample_heap = [] ++ sample_page :: [sample_large_page]
  ∧ 0 < kPageSize (Config:=sample_config)
  ∧ heap_ok (H:=sample_config) OLD_TO_NEW sample_heap
  ∧ chunk_fits (H:=sample_config) sample_page
  ∧ MemoryChunk.Contains sample_page 1048640 = true
  ∧ ∃ chunk1 chunk2,
      RememberedSet.Insert (H:=sample_config) OLD_TO_NEW sample_page 1048640
      = Ok chunk1
      ∧ 1048640 ∈ recorded OLD_TO_NEW chunk1
      ∧ RememberedSet.Remove (H:=sample_config) OLD_TO_NEW chunk1 1048640
        = Ok chunk2
      ∧ (1048640 ∉ recorded OLD_TO_NEW chunk2)
      ∧ ∃ heap' s' logs_before vs logs_after,
          RememberedSet.Iterate (H:=sample_config)
            (infallible (λ a visited, (KEEP_SLOT, a :: visited))) OLD_TO_NEW
            (set_chunks ([] ++ chunk2 :: [sample_large_page]) sample_heap) []
          = Ok (heap', s')
          ∧ run (infallible (λ a visited, (KEEP_SLOT, a :: visited)))
                [] (mjoin (logs_before ++ vs :: logs_after)) s'
          ∧ Forall3 (chunk_scanned OLD_TO_NEW)
                    ([] ++ chunk2 :: [sample_large_page]) (chunks heap')
                    (logs_before ++ vs :: logs_after)
          ∧ length logs_before = length (@nil MemoryChunk.t)
          ∧ Forall (λ v, visit_addr v ≠ 1048640) vs
          ∧ (Forall (λ c, ¬ (1048640 ∈ recorded OLD_TO_NEW c))
                    ([] ++ [sample_large_page]) →
             Forall (λ v, visit_addr v ≠ 1048640)
                    (mjoin (logs_before ++ vs :: logs_after))).
Proof.
  assert (0 < kPageSize (Config:=sample_config)) as Hpos by reflexivity.
  assert (heap_ok (H:=sample_config) OLD_TO_NEW sample_heap) as Hheap
    by by_computation.
  assert (chunk_fits (H:=sample_config) sample_page) as Hfits
    by by_computation.
  split; [reflexivity|]. do 3 (split; [assumption|]).
  split; [reflexivity|].
  exact (Insert_Remove_Iterate (H:=sample_config) Hpos OLD_TO_NEW
           (λ a visited, (KEEP_SLOT, a :: visited)) sample_heap
           [] [sample_large_page] sample_page 1048640 []
           eq_refl Hheap Hfits eq_refl).
Defined.

(** * Further properties *)

(** ** LocalSlotsBuffer: the order of [Iterate] and the use of the nodes *)

Section LocalSlotsBufferNodes.
Import LocalSlotsBuffer.
Context `{Config}.
Hypothesis KB_pos : 0 < KB.

Lemma length_encode (r : SlotRecord) :
  Z.of_nat (length (encode r)) = record_size r.
Proof. by destruct r. Qed.

Lemma record_size_bounds (r : SlotRecord) : 1 ≤ record_size r ≤ 2.
Proof. destruct r; simpl; lia. Qed.

Lemma record_words_length (rs : list SlotRecord) :
  Z.of_nat (length (rs ≫= encode)) = record_words rs.
Proof.
  induction rs as [|r rs IH]; [done|].
  rewrite bind_cons, length_app, Nat2Z.inj_add, length_encode, IH. done.
Qed.

Lemma record_words_app (rs1 rs2 : list SlotRecord) :
  record_words (rs1 ++ rs2) = record_words rs1 + record_words rs2.
Proof.
  induction rs1 as [|r rs1 IH]; simpl; [done|]. rewrite IH. lia.
Qed.

Lemma record_words_untyped (addrs : list Address) :
  record_words (Untyped <$> addrs) = Z.of_nat (length addrs).
Proof.
  induction addrs as [|a addrs IH]; [done|].
  rewrite fmap_cons. simpl. rewrite IH. lia.
Qed.

(** One call of [Record], with the counts of the nodes: the record goes
    to the head node when it has room for it, and otherwise, when fewer
    free words are left than the record takes, to a new head node. *)
Lemma record_counts (b : t) (rss : list (list SlotRecord)) (r : SlotRecord) :
  chain_holds b rss →
  valid_record r = true →
  ∃ n rest rs rss0 n',
    top_ b = n :: rest ∧ rss = rs :: rss0
    ∧ 0 ≤ count n ≤ kBufferSize
    ∧ ((record_size r ≤ kBufferSize - count n
        ∧ record b r = Ok {| top_ := n' :: rest |}
        ∧ chain_holds {| top_ := n' :: rest |} ((rs ++ [r]) :: rss0)
        ∧ count n' = count n + record_size r)
       ∨ (kBufferSize - count n < record_size r
          ∧ record b r = Ok {| top_ := n' :: n :: rest |}
          ∧ chain_holds {| top_ := n' :: n :: rest |} ([r] :: rs :: rss0)
          ∧ count n' = record_size r)).
Proof.
  intros Hb Hr.
  destruct (record_spec KB_pos b rss r Hb Hr)
    as (n & rest & rs & rss0 & n' & Htop & -> & Hcase).
  destruct Hb as [Hb _]. rewrite Htop in Hb.
  apply Forall2_cons in Hb as [Hn Hrest].
  pose proof (node_holds_length n rs Hn) as Hcount.
  rewrite record_words_length in Hcount.
  exists n, rest, rs, rss0, n'. do 2 (split; [done|]).
  split; [apply Hn|].
  destruct Hcase as [(_ & Hroom & HR & Hn' & _)|(HE & HR & Hn' & _)].
  - left. unfold remaining_free_slots in Hroom.
    split; [done|]. split; [done|].
    split; [split; [by constructor|done]|].
    apply node_holds_length in Hn'.
    rewrite record_words_length, record_words_app in Hn'. simpl in Hn'. lia.
  - right. split.
    + unfold EnsureSpaceFor, remaining_free_slots in HE. rewrite Htop in HE.
      destruct (Z.ltb_spec (kBufferSize - count n) (record_size r));
        [done|].
      injection HE as ->. simpl in Htop.
      apply (f_equal length) in Htop. simpl in Htop. lia.
    + split; [done|].
      split; [split; [constructor; [done|by constructor]|done]|].
      apply node_holds_length in Hn'.
      rewrite record_words_length in Hn'. simpl in Hn'. lia.
Qed.

Lemma record_all_snoc (rs : list SlotRecord) (r : SlotRecord) (b0 b : t) :
  record_all rs b0 = Ok b →
  record_all (rs ++ [r]) b0 = record b r.
Proof.
  intros Hrs. unfold record_all in *. rewrite foldM_app, Hrs. simpl.
  by destruct (record b r).
Qed.

(** What is known of the counts of the nodes of a buffer reached from
    the fresh one by valid calls of [Record]. *)
Lemma reachable_counts (rs : list SlotRecord) :
  Forall (λ r, valid_record r = true) rs →
  ∃ b rss n rest,
    record_all rs create = Ok b ∧ chain_holds b rss
    ∧ mjoin (reverse rss) = rs
    ∧ top_ b = n :: rest
    ∧ 0 ≤ count n ≤ kBufferSize
    ∧ (rs ≠ [] → 1 ≤ count n)
    ∧ (∀ m, head rest = Some m → kBufferSize < count m + count n)
    ∧ Forall (λ m, kBufferSize - 1 ≤ count m ≤ kBufferSize) rest
    ∧ (Forall is_untyped rs → Forall (λ m, count m = kBufferSize) rest)
    ∧ used_words (top_ b) = record_words rs.
Proof.
  pose proof (kBufferSize_ge KB_pos) as Hk.
  induction rs as [|r rs IH] using rev_ind; intros Hrs.
  - exists create, [[]], new_Node, []. split; [done|].
    split; [by apply create_holds|]. do 2 (split; [done|]).
    split; [simpl; lia|]. split; [done|]. by repeat split.
  - apply Forall_app in Hrs as [Hrs [Hr _]%Forall_cons].
    destruct (IH Hrs)
      as (b & rss & n & rest & Hrec & Hb & Hjoin & Htop & Hn & Hpos & Hprev
          & Hrest & Huntyped & Hused).
    destruct (record_counts b rss r Hb Hr)
      as (n0 & rest0 & rs0 & rss0 & n' & Htop0 & -> & _ & Hcase).
    rewrite Htop in Htop0. injection Htop0 as <- <-.
    rewrite (record_all_snoc rs r create b Hrec).
    pose proof (record_size_bounds r) as Hsize.
    rewrite reverse_cons, join_app in Hjoin. simpl in Hjoin.
    rewrite app_nil_r in Hjoin.
    destruct Hcase as [(Hroom & -> & Hb' & Hcnt)|(Hfull & -> & Hb' & Hcnt)].
    + exists {| top_ := n' :: rest |}, ((rs0 ++ [r]) :: rss0), n', rest.
      split; [done|]. split; [done|]. split.
      { rewrite reverse_cons, join_app. simpl.
        by rewrite app_nil_r, app_assoc, Hjoin. }
      split; [done|]. split; [lia|]. split; [lia|].
      split; [intros m Hm; specialize (Hprev m Hm); lia|].
      split; [done|]. split.
      { intros [Hu _]%Forall_app. auto. }
      rewrite record_words_app. simpl. rewrite Htop in Hused. simpl in Hused.
      lia.
    + exists {| top_ := n' :: n :: rest |}, ([r] :: rs0 :: rss0), n',
        (n :: rest).
      split; [done|]. split; [done|]. split.
      { rewrite !reverse_cons, !join_app. simpl.
        by rewrite !app_nil_r, Hjoin. }
      split; [done|]. split; [lia|]. split; [lia|].
      split; [intros m [= <-]; lia|].
      split; [constructor; [lia|done]|]. split.
      { intros [Hu [Hur _]%Forall_cons]%Forall_app.
        constructor; [|auto]. destruct r; [simpl in *; lia|done]. }
      rewrite record_words_app. simpl. rewrite Htop in Hused. simpl in Hused.
      lia.
Qed.

Lemma used_words_bounds (nodes : list Node) (lo : Z) :
  Forall (λ m, lo ≤ count m) nodes →
  Z.of_nat (length nodes) * lo ≤ used_words nodes.
Proof.
  induction 1 as [|m nodes Hm _ IH]; simpl; [lia|]. lia.
Qed.

Lemma used_words_full (nodes : list Node) (k : Z) :
  Forall (λ m, count m = k) nodes →
  used_words nodes = Z.of_nat (length nodes) * k.
Proof.
  induction 1 as [|m nodes Hm _ IH]; simpl; [lia|]. lia.
Qed.

(** X1: after any sequence of valid calls of [Record] on a fresh buffer,
    the records are split into consecutive runs, one for each node of the
    chain, the oldest run in the last node; [Iterate] replays the runs
    from the newest node to the oldest and the records inside a run in
    the order in which they were recorded. *)
Theorem Iterate_node_order (rs : list SlotRecord) :
  forallb valid_record rs = true →
  ∃ b runs,
    record_all rs create = Ok b
    ∧ mjoin runs = rs
    ∧ Forall2 (λ n run, entries n = run ≫= encode) (top_ b) (reverse runs)
    ∧ ∀ (S : Type) (ucb : Address → S → S)
        (tcb : SlotType → Address → S → S) (s : S),
        Iterate ucb tcb b s
        = Ok (foldl (dispatch ucb tcb) s (mjoin (reverse runs))).
Proof.
  intros Hrs.
  destruct (reachable_spec KB_pos rs Hrs)
    as (b & rss & Hrec & Hb & Hjoin & Hvalid).
  exists b, (reverse rss). split; [done|]. split; [done|].
  rewrite reverse_involutive. split.
  - destruct Hb as [Hb _]. eapply Forall2_impl; [exact Hb|].
    by intros n run (_ & _ & Hent).
  - intros S ucb tcb s. by apply Iterate_spec.
Qed.

(** X2: records that together take no more words than a node has stay in
    the node the constructor made: no node is allocated, the words of
    the records fill the node in the order of the calls, and [Iterate]
    dispatches the records in exactly the order in which they were
    recorded. *)
Theorem Record_within_one_node (rs : list SlotRecord) :
  forallb valid_record rs = true →
  record_words rs ≤ kBufferSize →
  ∃ n,
    record_all rs create = Ok {| top_ := [n] |}
    ∧ entries n = rs ≫= encode
    ∧ count n = record_words rs
    ∧ ∀ (S : Type) (ucb : Address → S → S)
        (tcb : SlotType → Address → S → S) (s : S),
        Iterate ucb tcb {| top_ := [n] |} s
        = Ok (foldl (dispatch ucb tcb) s rs).
Proof.
  intros Hrs%forallb_valid Hfit.
  destruct (reachable_counts rs Hrs)
    as (b & rss & n & rest & Hrec & Hb & Hjoin & Htop & Hn & _ & Hprev
        & Hrest & _ & Hused).
  assert (rest = []) as ->.
  { destruct rest as [|m rest]; [done|]. exfalso.
    specialize (Hprev m eq_refl).
    apply Forall_cons in Hrest as [_ Hrest].
    pose proof (used_words_bounds rest 0) as Hlo.
    rewrite Htop in Hused. simpl in Hused.
    assert (0 ≤ used_words rest).
    { etrans; [|apply Hlo]; [lia|].
      pose proof (kBufferSize_ge KB_pos).
      eapply Forall_impl; [exact Hrest|]. intros m0 Hm0. simpl in *. lia. }
    lia. }
  destruct b as [nodes]. simpl in Htop. subst nodes.
  exists n. split; [done|].
  destruct Hb as [Hb _]. simpl in Hb.
  apply Forall2_cons_inv_l in Hb as (rs0 & rss0 & Hn' & Hnil & ->).
  apply Forall2_nil_inv_l in Hnil as ->.
  simpl in Hjoin. rewrite app_nil_r in Hjoin. subst rs0.
  split; [apply Hn'|].
  split; [simpl in Hused; lia|].
  intros S ucb tcb s.
  rewrite (Iterate_spec ucb tcb _ [rs]).
  - simpl. by rewrite app_nil_r.
  - split; [|done]. simpl. by constructor.
  - simpl. by rewrite app_nil_r.
Qed.


(** X4: after N calls of the untyped [Record] on a fresh buffer the
    chain has exactly as many nodes as N words need, N / kBufferSize
    rounded up, and one node when N is zero. *)
Theorem untyped_node_count (addrs : list Address) :
  forallb (λ a, NUMBER_OF_SLOT_TYPES <=? a) addrs = true →
  ∃ b,
    record_all (Untyped <$> addrs) create = Ok b
    ∧ Z.of_nat (length (top_ b))
      = Z.max 1 ((Z.of_nat (length addrs) + kBufferSize - 1)
                 `div` kBufferSize).
Proof.
  intros Haddrs.
  assert (Forall (λ r, valid_record r = true) (Untyped <$> addrs)) as Hrs.
  { apply Forall_fmap, Forall_forall. intros a Ha. simpl.
    rewrite forallb_forall in Haddrs. apply Haddrs.
    by apply list_elem_of_In. }
  destruct (reachable_counts _ Hrs)
    as (b & rss & n & rest & Hrec & Hb & Hjoin & Htop & Hn & Hpos & _
        & Hrest & Huntyped & Hused).
  pose proof (kBufferSize_ge KB_pos) as Hk.
  exists b. split; [done|].
  rewrite record_words_untyped in Hused.
  rewrite Htop in Hused |- *. simpl in Hused.
  rewrite (used_words_full rest kBufferSize) in Hused
    by (apply Huntyped; by apply Forall_fmap, Forall_true).
  destruct addrs as [|a addrs].
  - simpl in *.
    assert (length rest = 0%nat) as -> by nia.
    simpl. rewrite Z.div_small by lia. lia.
  - assert (1 ≤ count n) as Hc by (by apply Hpos).
    replace (Z.of_nat (length (a :: addrs)) + kBufferSize - 1)
      with (Z.of_nat (length rest) * kBufferSize
            + (count n + kBufferSize - 1)) by lia.
    rewrite Z.div_add_l by lia.
    assert ((count n + kBufferSize - 1) `div` kBufferSize = 1) as ->.
    { symmetry. apply (Z.div_unique _ _ 1 (count n - 1)); lia. }
    simpl length. lia.
Qed.

(** X5: the precondition of [Record] on the address. With an address
    below [NUMBER_OF_SLOT_TYPES], both overloads of [Record] stop a debug
    build at the [DCHECK], on every buffer reached by valid calls. A
    release build stores the address; [Iterate] then reads it as a tag
    marker: recorded on a fresh buffer and followed by a valid address,
    the pair is given to the typed callback, with the first address as
    the type, and the untyped callback is not called. *)
Theorem Record_address_below_slot_types (rs : list SlotRecord)
    (a a' : Address) (type : SlotType) :
  forallb valid_record rs = true →
  a < NUMBER_OF_SLOT_TYPES →
  NUMBER_OF_SLOT_TYPES ≤ a' →
  ∃ b,
    record_all rs create = Ok b
    ∧ (DEBUG = true →
       RecordAddress a b = Fail DcheckFailure
       ∧ RecordTyped type a b = Fail DcheckFailure)
    ∧ (DEBUG = false →
       ∃ b', record_all [Untyped a; Untyped a'] create = Ok b'
         ∧ ∀ (S : Type) (ucb : Address → S → S)
             (tcb : SlotType → Address → S → S) (s : S),
             Iterate ucb tcb b' s = Ok (tcb a a' s)).
Proof.
  intros Hrs Ha Ha'.
  pose proof (kBufferSize_ge KB_pos) as Hk.
  destruct (reachable_spec KB_pos rs Hrs)
    as (b & rss & Hrec & Hb & _ & _).
  exists b. split; [done|]. split.
  - intros Hdebug.
    assert (DCHECK (NUMBER_OF_SLOT_TYPES <=? a) = Fail DcheckFailure)
      as Hcheck.
    { unfold DCHECK. rewrite Hdebug.
      destruct (Z.leb_spec NUMBER_OF_SLOT_TYPES a); [lia|done]. }
    destruct Hb as [Hb Hne].
    destruct rss as [|rs0 rss]; [done|].
    destruct (top_ b) as [|n rest] eqn:Htop; [by inversion Hb|].
    apply Forall2_cons in Hb as [(Hlen & Hcnt & _) _].
    split.
    + unfold RecordAddress, EnsureSpaceFor. rewrite Htop.
      destruct (remaining_free_slots n <? 1); simpl; by rewrite Hcheck.
    + unfold RecordTyped, EnsureSpaceFor, remaining_free_slots.
      rewrite Htop.
      destruct (Z.ltb_spec (kBufferSize - count n) 2); simpl.
      * destruct (Insert_spec type new_Node (n :: rest))
          as (n1 & -> & _); [apply (new_Node_holds KB_pos)|simpl; lia|].
        simpl. by rewrite Hcheck.
      * destruct (Insert_spec type n rest)
          as (n1 & HI & _); [done|lia|].
        destruct b as [nodes]. simpl in Htop. subst nodes.
        rewrite HI. simpl. by rewrite Hcheck.
  - intros Hrelease.
    assert (∀ c, DCHECK c = Ok ()) as Hcheck
      by (intros c; unfold DCHECK; by rewrite Hrelease).
    destruct (Insert_spec a new_Node [])
      as (n1 & HI1 & Hlen1 & Hcnt1 & Hent1);
      [apply (new_Node_holds KB_pos)|simpl; lia|].
    destruct (Insert_spec a' n1 [])
      as (n2 & HI2 & Hlen2 & Hcnt2 & Hent2); [done|simpl in *; lia|].
    exists {| top_ := [n2] |}. split.
    + assert (∀ entry n, 0 ≤ count n < kBufferSize →
                RecordAddress entry {| top_ := [n] |}
                = Insert entry {| top_ := [n] |}) as Hrecord.
      { intros entry n Hn.
        unfold RecordAddress, EnsureSpaceFor, remaining_free_slots.
        cbn [top_]. destruct (Z.ltb_spec (kBufferSize - count n) 1); [lia|].
        cbn [mbind Result_bind]. by rewrite Hcheck. }
      unfold record_all. cbn [foldM record]. unfold create.
      rewrite Hrecord, HI1 by (simpl; lia). cbn [mbind Result_bind].
      rewrite Hrecord, HI2 by (simpl in *; lia). done.
    + intros S ucb tcb s. unfold Iterate, iterate_chain. simpl.
      rewrite iterate_node_entries by (simpl in *; lia).
      rewrite Hent2, Hent1. simpl.
      unfold decode at 2. simpl.
      destruct (Z.ltb_spec a NUMBER_OF_SLOT_TYPES); [|lia].
      rewrite Hcheck. simpl.
      unfold decode. simpl.
      destruct (Z.ltb_spec a' NUMBER_OF_SLOT_TYPES); [lia|]. done.
Qed.
End LocalSlotsBufferNodes.

(** ** RememberedSet: what [Insert], [Remove] and [RemoveRange] change *)

Section UpdateEffects.
Context `{Config}.
Hypothesis kPageSize_pos : 0 < kPageSize.
Import MemoryChunk.

Lemma DCHECK_fails (c : bool) (e : Failure) :
  DCHECK c = Fail e → DEBUG = true ∧ e = DcheckFailure.
Proof. unfold DCHECK. destruct DEBUG, c; simpl; by intros [= <-]. Qed.

(** A table of the right shape holds every address once. *)
Lemma table_shape_NoDup chunk slots :
  table_shape chunk slots → NoDup (slots ≫= SlotSet.addresses).
Proof.
  intros Hshape. apply NoDup_bind.
  - intros x1 x2 y [j1 Hj1]%list_elem_of_lookup [j2 Hj2]%list_elem_of_lookup
      Hy1 Hy2.
    destruct (table_shape_lookup _ _ _ _ Hshape Hj1) as (Hps1 & Hoff1 & _).
    destruct (table_shape_lookup _ _ _ _ Hshape Hj2) as (Hps2 & Hoff2 & _).
    unfold SlotSet.addresses in Hy1, Hy2.
    apply list_elem_of_fmap in Hy1 as (o1 & -> & Ho1%elem_of_elements).
    apply list_elem_of_fmap in Hy2 as (o2 & Heq & Ho2%elem_of_elements).
    specialize (Hoff1 o1 Ho1). specialize (Hoff2 o2 Ho2). simpl in *.
    assert (j1 = j2) as -> by nia. congruence.
  - intros x _. unfold SlotSet.addresses.
    apply NoDup_fmap_2; [intros ???; lia|apply NoDup_elements].
  - apply (NoDup_fmap_1 SlotSet.page_start_). rewrite (proj1 Hshape).
    apply NoDup_fmap_2; [intros i j ?; nia|apply NoDup_seqZ].
Qed.

Lemma recorded_NoDup direction chunk :
  chunk_shaped direction chunk → NoDup (recorded direction chunk).
Proof.
  unfold chunk_shaped, recorded. rewrite <- ?GetSlotSet_table.
  destruct (RememberedSet.GetSlotSet direction chunk); simpl.
  - apply table_shape_NoDup.
  - intros _. constructor.
Qed.

Lemma PutSlotSet_id direction chunk slots :
  RememberedSet.GetSlotSet direction chunk = Some slots →
  RememberedSet.PutSlotSet direction chunk slots = chunk.
Proof. destruct direction, chunk; intros Hg; cbv in Hg; by subst. Qed.

Lemma scanned_owner direction chunk chunk' :
  owner chunk' = owner chunk →
  scanned direction chunk' = scanned direction chunk.
Proof.
  unfold scanned, MemoryChunkIterator.in_scope. by intros ->.
Qed.

Lemma SlotSet_Insert_id (o : Z) (ss : SlotSet.t) :
  o ∈ SlotSet.slots ss → SlotSet.Insert o ss = ss.
Proof.
  intros Ho. destruct ss as [ps slots]. unfold SlotSet.Insert. simpl in *.
  f_equal. apply set_eq. intros x.
  rewrite elem_of_union, elem_of_singleton. split; [by intros [->|]|by right].
Qed.

Lemma SlotSet_Remove_id (o : Z) (ss : SlotSet.t) :
  o ∉ SlotSet.slots ss → SlotSet.Remove o ss = ss.
Proof.
  intros Ho. destruct ss as [ps slots]. unfold SlotSet.Remove. simpl in *.
  f_equal. apply set_eq. intros x.
  rewrite elem_of_difference, elem_of_singleton. split; [by intros [? _]|].
  intros Hx. split; [done|]. by intros ->.
Qed.

(** The effect of [Insert] for an address inside the chunk. *)
Lemma Insert_effect direction chunk (a : Address) :
  chunk_fits chunk → Contains chunk a = true →
  chunk_shaped direction chunk →
  ∃ chunk',
    RememberedSet.Insert direction chunk a = Ok chunk'
    ∧ recorded direction chunk'
      ≡ₚ (if decide (a ∈ recorded direction chunk)
          then recorded direction chunk
          else a :: recorded direction chunk)
    ∧ chunk_shaped direction chunk'
    ∧ table direction chunk' ≠ None
    ∧ address chunk' = address chunk
    ∧ size chunk' = size chunk
    ∧ owner chunk' = owner chunk
    ∧ table (other direction) chunk'
      = table (other direction) chunk
    ∧ typed_old_to_old_slots chunk' = typed_old_to_old_slots chunk.
Proof.
  intros Hfits Hin Hshaped.
  destruct (Insert_table kPageSize_pos direction chunk a Hfits Hin Hshaped)
    as (slots0 & ss & _ & _ & _ & _ & HI).
  destruct (Insert_recorded kPageSize_pos direction chunk a Hfits Hin Hshaped)
    as (chunk' & HI' & Hshaped' & _ & _ & Hrec).
  rewrite HI in HI'. injection HI' as Heq.
  exists chunk'. split; [by rewrite HI, Heq|]. split.
  { apply NoDup_Permutation.
    - by apply recorded_NoDup.
    - case_decide; [by apply recorded_NoDup|].
      apply NoDup_cons. split; [done|by apply recorded_NoDup].
    - intros a'. rewrite Hrec. case_decide as Ha.
      + split; [by intros [->|]|by right].
      + by rewrite elem_of_cons. }
  split; [done|]. subst chunk'.
  rewrite <- !GetSlotSet_table.
  rewrite GetSlotSet_PutSlotSet, GetSlotSet_other_PutSlotSet.
  split; [done|]. by destruct direction.
Qed.

(** The effect of [Remove] for an address inside the chunk. *)
Lemma Remove_effect direction chunk (a : Address) :
  chunk_fits chunk → Contains chunk a = true →
  chunk_shaped direction chunk →
  ∃ chunk',
    RememberedSet.Remove direction chunk a = Ok chunk'
    ∧ (a ∉ recorded direction chunk → chunk' = chunk)
    ∧ recorded direction chunk'
      ≡ₚ filter (λ a', a' ≠ a) (recorded direction chunk)
    ∧ chunk_shaped direction chunk'
    ∧ (table direction chunk' = None
       ↔ table direction chunk = None)
    ∧ address chunk' = address chunk
    ∧ size chunk' = size chunk
    ∧ owner chunk' = owner chunk
    ∧ table (other direction) chunk'
      = table (other direction) chunk
    ∧ typed_old_to_old_slots chunk' = typed_old_to_old_slots chunk.
Proof.
  intros Hfits Hin Hshaped.
  destruct (RememberedSet.GetSlotSet direction chunk) as [slots|] eqn:Hg.
  2:{ exists chunk. unfold RememberedSet.Remove, recorded.
      rewrite <- ?GetSlotSet_table.
      rewrite Hin, DCHECK_true, Hg. by repeat split. }
  assert (table_shape chunk slots) as Hshape
    by (unfold chunk_shaped in Hshaped;
        rewrite <- GetSlotSet_table in Hshaped; by rewrite Hg in Hshaped).
  destruct (Remove_table kPageSize_pos direction chunk slots a Hfits Hin Hg
              Hshape) as (ss & Hss & HR).
  set (idx := Z.to_nat ((a - address chunk) `div` kPageSize)) in *.
  set (o := (a - address chunk) `mod` kPageSize) in *.
  destruct (table_shape_lookup _ _ _ _ Hshape Hss) as (_ & Hrange & _).
  assert (Hin' := Hin). apply bool_decide_eq_true in Hin'.
  assert (set_Forall (λ o, 0 ≤ o < kPageSize)
            (SlotSet.slots (SlotSet.Remove o ss))) as Hrange'.
  { intros o' [Ho' _]%elem_of_difference. auto. }
  assert (table_shape chunk (<[idx := SlotSet.Remove o ss]> slots))
    as Hshape' by (by eapply table_shape_insert).
  assert (∀ a', a' ∈ <[idx := SlotSet.Remove o ss]> slots
                     ≫= SlotSet.addresses
                ↔ a' ∈ slots ≫= SlotSet.addresses ∧ a' ≠ a) as Hrec.
  { intros a'.
    rewrite (recorded_insert kPageSize_pos chunk slots idx ss) by done.
    rewrite (recorded_in_table kPageSize_pos chunk slots a' Hshape).
    case_decide as Hcase; simpl.
    - rewrite elem_of_difference, elem_of_singleton. split.
      + intros (Hle & Ho' & Hne). split.
        * split; [done|]. exists ss. by rewrite Hcase.
        * intros ->. by apply Hne.
      + intros ((Hle & ss' & Hss' & Ho') & Hne).
        rewrite Hcase, Hss in Hss'. injection Hss' as <-.
        split; [done|]. split; [done|]. intros Heq. apply Hne.
        eapply (address_unit_offset kPageSize_pos); eauto. lia.
    - rewrite (recorded_in_table kPageSize_pos chunk slots a' Hshape).
      split.
      + intros [Hle Hrest]. split; [done|]. intros ->. by apply Hcase.
      + by intros [[? ?] _]. }
  eexists. split; [exact HR|]. split.
  { intros Hnot. unfold recorded in Hnot.
    rewrite <- ?GetSlotSet_table in Hnot. rewrite Hg in Hnot. simpl in Hnot.
    rewrite (recorded_in_table kPageSize_pos chunk slots a Hshape) in Hnot.
    rewrite SlotSet_Remove_id.
    - rewrite list_insert_id by done. by apply PutSlotSet_id.
    - intros Ho. apply Hnot. split; [lia|]. by exists ss. }
  split.
  { rewrite recorded_PutSlotSet. unfold recorded.
    rewrite <- ?GetSlotSet_table. rewrite Hg. simpl.
    apply NoDup_Permutation.
    - by apply (table_shape_NoDup chunk).
    - apply NoDup_filter. by apply (table_shape_NoDup chunk).
    - intros a'. by rewrite Hrec, list_elem_of_filter, (comm and). }
  split.
  { unfold chunk_shaped.
    rewrite <- ?GetSlotSet_table. rewrite GetSlotSet_PutSlotSet.
    eapply table_shape_fields; [apply PutSlotSet_fields..|done]. }
  rewrite <- !GetSlotSet_table.
  rewrite GetSlotSet_PutSlotSet, GetSlotSet_other_PutSlotSet, Hg.
  split; [done|]. by destruct direction.
Qed.

(** X6: [Insert] for an address inside the chunk adds that address and
    nothing else: the table then holds the address together with what it
    held before, each address once. The table is allocated if there was
    none; the address, the size and the owner of the chunk, its table of
    the other direction and its typed table stay as they are. *)
Theorem Insert_adds_one (direction : PointerDirection)
    (chunk : MemoryChunk.t) (a : Address) :
  chunk_fits chunk → Contains chunk a = true →
  chunk_shaped direction chunk →
  ∃ chunk',
    RememberedSet.Insert direction chunk a = Ok chunk'
    ∧ recorded direction chunk'
      ≡ₚ (if decide (a ∈ recorded direction chunk)
          then recorded direction chunk
          else a :: recorded direction chunk)
    ∧ chunk_shaped direction chunk'
    ∧ table direction chunk' ≠ None
    ∧ address chunk' = address chunk
    ∧ size chunk' = size chunk
    ∧ owner chunk' = owner chunk
    ∧ table (other direction) chunk'
      = table (other direction) chunk
    ∧ typed_old_to_old_slots chunk' = typed_old_to_old_slots chunk.
Proof. apply Insert_effect. Qed.

(** X7: [Insert] of an address that the table already holds leaves the
    chunk exactly as it is. *)
Theorem Insert_recorded_again (direction : PointerDirection)
    (chunk : MemoryChunk.t) (a : Address) :
  chunk_fits chunk → Contains chunk a = true →
  chunk_shaped direction chunk →
  a ∈ recorded direction chunk →
  RememberedSet.Insert direction chunk a = Ok chunk.
Proof.
  intros Hfits Hin Hshaped Ha.
  destruct (Insert_table kPageSize_pos direction chunk a Hfits Hin Hshaped)
    as (slots0 & ss & Hslots0 & Hshape & _ & Hss & ->).
  unfold recorded in Ha. rewrite <- ?GetSlotSet_table in Ha.
  destruct (RememberedSet.GetSlotSet direction chunk) as [slots|] eqn:Hg;
    [|by apply elem_of_nil in Ha].
  simpl in Ha, Hslots0. subst slots0.
  apply (recorded_in_table kPageSize_pos chunk slots a Hshape) in Ha
    as (_ & ss' & Hss' & Ho).
  rewrite Hss in Hss'. injection Hss' as <-.
  rewrite SlotSet_Insert_id, list_insert_id by done.
  by rewrite PutSlotSet_id.
Qed.

(** X8: [Remove] of an address inside the chunk that the table does not
    hold does nothing: the chunk is exactly as before, and a chunk
    without a table gets none. *)
Theorem Remove_unrecorded (direction : PointerDirection)
    (chunk : MemoryChunk.t) (a : Address) :
  chunk_fits chunk → Contains chunk a = true →
  chunk_shaped direction chunk →
  a ∉ recorded direction chunk →
  RememberedSet.Remove direction chunk a = Ok chunk.
Proof.
  intros Hfits Hin Hshaped Ha.
  destruct (Remove_effect direction chunk a Hfits Hin Hshaped)
    as (chunk' & HR & Hid & _).
  by rewrite HR, Hid.
Qed.

(** X9: [Remove] for an address inside the chunk removes that address
    and nothing else. It neither allocates nor releases the table: a
    table that becomes empty stays allocated. The address, the size and
    the owner of the chunk, its table of the other direction and its
    typed table stay as they are. *)
Theorem Remove_removes_one (direction : PointerDirection)
    (chunk : MemoryChunk.t) (a : Address) :
  chunk_fits chunk → Contains chunk a = true →
  chunk_shaped direction chunk →
  ∃ chunk',
    RememberedSet.Remove direction chunk a = Ok chunk'
    ∧ recorded direction chunk'
      ≡ₚ filter (λ a', a' ≠ a) (recorded direction chunk)
    ∧ chunk_shaped direction chunk'
    ∧ (table direction chunk' = None
       ↔ table direction chunk = None)
    ∧ address chunk' = address chunk
    ∧ size chunk' = size chunk
    ∧ owner chunk' = owner chunk
    ∧ table (other direction) chunk'
      = table (other direction) chunk
    ∧ typed_old_to_old_slots chunk' = typed_old_to_old_slots chunk.
Proof.
  intros Hfits Hin Hshaped.
  destruct (Remove_effect direction chunk a Hfits Hin Hshaped)
    as (chunk' & HR & _ & Hrest).
  by exists chunk'.
Qed.

(** X10: [Insert] and [Remove] for an address outside the chunk. A debug
    build stops at [DCHECK(page->Contains(slot_addr))]. A release build
    goes on: when the offset of the address from the start of the chunk,
    computed in [uintptr_t], is not below the size of the chunk rounded
    up to whole units, the unit index is outside the array of slot sets,
    so [Insert] accesses the array out of bounds, and so does [Remove]
    unless the chunk has no table, in which case it does nothing. *)
Theorem Insert_Remove_outside_chunk (direction : PointerDirection)
    (chunk : MemoryChunk.t) (a : Address) :
  chunk_shaped direction chunk →
  (DEBUG = true → Contains chunk a = false →
   RememberedSet.Insert direction chunk a = Fail DcheckFailure
   ∧ RememberedSet.Remove direction chunk a = Fail DcheckFailure)
  ∧ (DEBUG = false →
     pages chunk * kPageSize ≤ wrap64 (a - address chunk) →
     RememberedSet.Insert direction chunk a = Fail UndefinedBehavior
     ∧ RememberedSet.Remove direction chunk a
       = match table direction chunk with
         | None => Ok chunk
         | Some _ => Fail UndefinedBehavior
         end).
Proof.
  intros Hshaped. split.
  - intros Hdebug Hout.
    unfold RememberedSet.Insert, RememberedSet.Remove, DCHECK.
    by rewrite Hdebug, Hout.
  - intros Hrelease Hbeyond.
    pose proof (pages_nonneg chunk kPageSize_pos) as Hpages.
    assert (∀ slots : list SlotSet.t, table_shape chunk slots →
              array_get slots (wrap64 (a - address chunk) `div` kPageSize)
              = Fail UndefinedBehavior) as Hget.
    { intros slots Hshape.
      pose proof (table_shape_length _ _ kPageSize_pos Hshape) as Hlen.
      assert (pages chunk ≤ wrap64 (a - address chunk) `div` kPageSize)
        by (apply Z.div_le_lower_bound; lia).
      unfold array_get. rewrite bool_decide_true by lia.
      rewrite lookup_ge_None_2; [done|lia]. }
    unfold RememberedSet.Insert, RememberedSet.Remove, DCHECK.
    rewrite Hrelease. cbn [andb mbind Result_bind].
    unfold chunk_shaped in Hshaped.
    rewrite <- ?GetSlotSet_table in Hshaped. rewrite <- ?GetSlotSet_table.
    destruct (RememberedSet.GetSlotSet direction chunk) as [slots|] eqn:Hg.
    + cbn [deref mbind Result_bind]. by rewrite (Hget slots Hshaped).
    + split; [|done].
      assert (RememberedSet.AllocateSlotSet direction chunk
              = ((RememberedSet.AllocateSlotSet direction chunk).1,
                 Some (new_slot_sets chunk))) as ->
        by (by destruct direction).
      cbn [deref mbind Result_bind].
      assert (address (RememberedSet.AllocateSlotSet direction chunk).1
              = address chunk) as -> by (by destruct direction).
      by rewrite (Hget _ (new_slot_sets_shape kPageSize_pos chunk)).
Qed.

(** X11: [RemoveRange] works on the first unit of the table only. On a
    chunk with a table it either returns or, in a debug build, stops at
    one of its two [DCHECK]s; whatever the range, when it returns it has
    recorded no new slot and every slot recorded behind the first unit,
    at [kPageSize] bytes or more into the chunk, is still recorded. *)
Theorem RemoveRange_only_first_unit (direction : PointerDirection)
    (chunk : MemoryChunk.t) (start end_ : Address) :
  0 < size chunk → chunk_fits chunk → chunk_shaped direction chunk →
  match RememberedSet.RemoveRange direction chunk start end_ with
  | Ok chunk' =>
      (∀ a, a ∈ recorded direction chunk' → a ∈ recorded direction chunk)
      ∧ (∀ a, a ∈ recorded direction chunk →
              address chunk + kPageSize ≤ a →
              a ∈ recorded direction chunk')
  | Fail e => DEBUG = true ∧ e = DcheckFailure
  end
  ∧ (DEBUG = false →
     ∃ chunk', RememberedSet.RemoveRange direction chunk start end_
               = Ok chunk').
Proof.
  intros Hsize [_ Hfit] Hshaped.
  match goal with |- ?P ∧ _ => assert P as Hmain end.
  2:{ split; [exact Hmain|]. intros Hrelease.
      destruct (RememberedSet.RemoveRange _ _ _ _) as [chunk'|e];
        [by exists chunk'|].
      destruct Hmain as [Hdebug _]. congruence. }
  unfold RememberedSet.RemoveRange, recorded. rewrite <- ?GetSlotSet_table.
  destruct (RememberedSet.GetSlotSet direction chunk) as [slots|] eqn:Hg.
  2:{ rewrite <- ?GetSlotSet_table, ?Hg. done. }
  assert (table_shape chunk slots) as Hshape
    by (unfold chunk_shaped in Hshaped;
        rewrite <- GetSlotSet_table in Hshaped; by rewrite Hg in Hshaped).
  pose proof (table_shape_length _ _ kPageSize_pos Hshape) as Hlen.
  assert (1 ≤ pages chunk) as Hpages.
  { unfold pages, wrap64. rewrite Z.mod_small by lia.
    apply Z.div_le_lower_bound; lia. }
  destruct (lookup_lt_is_Some_2 slots 0) as [ss Hss]; [lia|].
  destruct (DCHECK (_ <? _)) as [[]|e1] eqn:Hcheck1; cbn [mbind Result_bind].
  2:{ by apply DCHECK_fails in Hcheck1. }
  destruct (DCHECK (_ <=? _)) as [[]|e2] eqn:Hcheck2; cbn [mbind Result_bind].
  2:{ by apply DCHECK_fails in Hcheck2. }
  change 0 with (Z.of_nat 0).
  rewrite (array_get_lookup _ _ _ Hss). cbn [mbind Result_bind].
  rewrite array_set_insert by lia. cbn [mbind Result_bind].
  rewrite <- ?GetSlotSet_table, GetSlotSet_PutSlotSet. cbn [table_addresses].
  set (ss' := SlotSet.RemoveRange _ _ ss).
  destruct (table_shape_lookup _ _ _ _ Hshape Hss) as (_ & Hrange & _).
  assert (set_Forall (λ o, 0 ≤ o < kPageSize) (SlotSet.slots ss'))
    as Hrange'.
  { intros o [_ Ho]%elem_of_filter. auto. }
  assert (∀ a, a ∈ <[0%nat := ss']> slots ≫= SlotSet.addresses ↔
               address chunk ≤ a
               ∧ if decide (Z.to_nat ((a - address chunk) `div` kPageSize)
                            = 0%nat)
                 then (a - address chunk) `mod` kPageSize ∈ SlotSet.slots ss'
                 else a ∈ slots ≫= SlotSet.addresses) as Hrec.
  { intros a. by apply (recorded_insert kPageSize_pos chunk slots 0%nat ss). }
  split.
  - intros a [Hle Ha]%Hrec. case_decide as Hcase; [|done].
    apply (recorded_in_table kPageSize_pos chunk slots a Hshape).
    split; [done|]. exists ss. rewrite Hcase. split; [done|].
    by apply elem_of_filter in Ha as [_ Ha].
  - intros a Ha Hbehind. apply Hrec. split; [lia|].
    rewrite decide_False; [done|].
    assert (1 ≤ (a - address chunk) `div` kPageSize)
      by (apply Z.div_le_lower_bound; lia).
    lia.
Qed.
End UpdateEffects.

(** ** RememberedSet: scans after updates and after scans *)

Section ScanComposition.
Context `{Config}.
Hypothesis kPageSize_pos : 0 < kPageSize.
Import MemoryChunk.

(** What a second scan visits at a chunk is what the first scan kept
    there. *)
Lemma chunk_scanned_twice {S1 S2 : Type} direction
    (chunk chunk' chunk'' : MemoryChunk.t)
    (vs1 : list (Visit S1)) (vs2 : list (Visit S2)) :
  chunk_scanned direction chunk chunk' vs1 →
  chunk_scanned direction chunk' chunk'' vs2 →
  visit_addr <$> vs2 ≡ₚ kept vs1.
Proof.
  intros (_ & _ & Ho & _ & _ & Hcase1) (_ & _ & _ & _ & _ & Hcase2).
  rewrite <- ?GetSlotSet_table in Hcase1, Hcase2.
  rewrite (scanned_owner direction chunk chunk' Ho) in Hcase2.
  destruct (scanned direction chunk).
  - destruct (RememberedSet.GetSlotSet direction chunk) as [slots|] eqn:Hg.
    + destruct Hcase1 as (_ & Hkept & Hrel).
      destruct (RememberedSet.GetSlotSet direction chunk') as [slots'|].
      * destruct Hcase2 as (Hvisits & _). by rewrite Hvisits.
      * destruct Hcase2 as [_ ->].
        assert (length (kept vs1) = 0%nat) as Hnone by (by apply Hrel).
        by apply length_zero_iff_nil in Hnone as ->.
    + destruct Hcase1 as [-> ->]. rewrite Hg in Hcase2.
      by destruct Hcase2 as [_ ->].
  - destruct Hcase1 as [_ ->]. by destruct Hcase2 as [_ ->].
Qed.

Lemma Forall3_chain {A B C D E : Type}
    (P : A → B → C → Prop) (Q : B → D → E → Prop) (R : C → E → Prop)
    (la : list A) (lb : list B) (lc : list C) (ld : list D) (le : list E) :
  (∀ a b c d e, P a b c → Q b d e → R c e) →
  Forall3 P la lb lc → Forall3 Q lb ld le → Forall2 R lc le.
Proof.
  intros HR HP. revert ld le.
  induction HP as [|a b c la lb lc Hp _ IH]; intros ld le HQ.
  - inversion HQ; subst. constructor.
  - inversion HQ as [|? d e ? ld' le' Hq HQ']; subst.
    constructor; [by eapply HR|by eapply IH].
Qed.

(** A slot set whose offsets lie inside its unit holds at most as many
    slots as the unit has bytes. *)
Lemma unit_size_bound (X : gset Z) (k : Z) :
  set_Forall (λ o, 0 ≤ o < k) X → Z.of_nat (base.size X) ≤ Z.max 0 k.
Proof.
  intros HX.
  assert (X ⊆ list_to_set (seqZ 0 k)) as Hsub.
  { intros o Ho. apply elem_of_list_to_set, elem_of_seqZ.
    specialize (HX o Ho). simpl in HX. lia. }
  apply subseteq_size in Hsub.
  rewrite size_list_to_set, length_seqZ in Hsub by apply NoDup_seqZ. lia.
Qed.

Lemma table_count_bound chunk slots :
  table_shape chunk slots →
  Z.of_nat (length (slots ≫= SlotSet.addresses))
  ≤ pages chunk * kPageSize.
Proof.
  intros Hshape.
  rewrite <- (table_shape_length _ _ kPageSize_pos Hshape).
  destruct Hshape as [_ Hoff].
  induction Hoff as [|ss slots Hss _ IH]; [simpl; lia|].
  rewrite bind_cons, length_app, length_addresses.
  apply unit_size_bound in Hss. simpl length. lia.
Qed.

(** X12: an address inserted into a chunk in the scope of [Iterate] is
    visited by the next scan exactly once among the calls made for that
    chunk, and it is recorded afterwards exactly when the callback
    answered [KEEP_SLOT] for it. *)
Theorem Insert_then_Iterate (direction : PointerDirection) {S : Type}
    (callback : Address → S → SlotCallbackResult * S) (heap : Heap)
    (before after : list MemoryChunk.t) (chunk : MemoryChunk.t)
    (a : Address) (s : S) :
  chunks heap = before ++ chunk :: after →
  heap_ok direction heap →
  chunk_fits chunk →
  Contains chunk a = true →
  scanned direction chunk = true →
  Z.of_nat (length (recorded direction chunk)) < INT_MAX →
  ∃ chunk1 heap' s' logs_before vs1 v vs2 logs_after before' chunk' after',
    RememberedSet.Insert direction chunk a = Ok chunk1
    ∧ RememberedSet.Iterate (infallible callback) direction
        (set_chunks (before ++ chunk1 :: after) heap) s = Ok (heap', s')
    ∧ run (infallible callback) s
          (mjoin (logs_before ++ (vs1 ++ v :: vs2) :: logs_after)) s'
    ∧ length logs_before = length before
    ∧ chunks heap' = before' ++ chunk' :: after'
    ∧ length before' = length before
    ∧ chunk_scanned direction chunk1 chunk' (vs1 ++ v :: vs2)
    ∧ visit_addr v = a
    ∧ Forall (λ v', visit_addr v' ≠ a) (vs1 ++ vs2)
    ∧ (a ∈ recorded direction chunk' ↔ visit_result v = KEEP_SLOT).
Proof.
  intros Hchunks Hheap Hfits Hin Hscope Hcount.
  unfold heap_ok in Hheap. rewrite Hchunks in Hheap.
  apply Forall_app in Hheap as [Hbefore [Hchunk Hafter]%Forall_cons].
  destruct (Insert_effect kPageSize_pos direction chunk a Hfits Hin
              (chunk_ok_shaped _ _ Hchunk))
    as (chunk1 & HI & Hperm & Hshaped1 & Htable1 & Ha1 & Hs1 & Ho1 & _).
  rewrite <- GetSlotSet_table in Htable1.
  assert (a ∈ recorded direction chunk1) as Hrecorded.
  { rewrite Hperm. case_decide; [done|by left]. }
  assert (chunk_ok direction chunk1) as Hchunk1.
  { unfold chunk_ok, chunk_shaped, recorded in *.
    rewrite <- ?GetSlotSet_table in *.
    destruct (RememberedSet.GetSlotSet direction chunk1) as [slots1|];
      [|done].
    split; [done|]. simpl in Hperm. rewrite Hperm.
    case_decide; simpl; lia. }
  pose proof (Iterate_scan (infallible callback) (λ _, False)
                (infallible_fails callback) kPageSize_pos direction
                (set_chunks (before ++ chunk1 :: after) heap) s) as Hscan.
  destruct (RememberedSet.Iterate _ _ _ _) as [[heap' s']|e] eqn:Hiter.
  2:{ destruct Hscan. unfold heap_ok. simpl. apply Forall_app.
      split; [done|]. by constructor. }
  destruct Hscan as (logs & Hrun & Hscanned & _).
  { unfold heap_ok. simpl. apply Forall_app. split; [done|].
    by constructor. }
  simpl in Hscanned.
  apply Forall3_app_inv_l in Hscanned
    as (before' & cs2 & logs_before & logs2 & Hcs & -> & Hsc1 & Hsc2).
  apply Forall3_cons_inv_l in Hsc2
    as (chunk' & after' & vs & logs_after & -> & -> & Hc & Hsc3).
  assert (Hc' := Hc).
  destruct Hc' as (_ & _ & _ & _ & _ & Hcase).
  rewrite <- ?GetSlotSet_table in Hcase.
  rewrite (scanned_owner direction chunk chunk1 Ho1), Hscope in Hcase.
  destruct (RememberedSet.GetSlotSet direction chunk1) as [slots1|] eqn:Hg;
    [|done].
  destruct Hcase as (Hvisits & Hkept & _).
  assert (NoDup (visit_addr <$> vs)) as Hnodup.
  { rewrite Hvisits. by apply (recorded_NoDup kPageSize_pos). }
  assert (a ∈ visit_addr <$> vs) as Hvisited by (by rewrite Hvisits).
  apply list_elem_of_fmap in Hvisited as (v & Hva & Hv).
  apply list_elem_of_split in Hv as (vs1 & vs2 & ->).
  assert (Forall (λ v', visit_addr v' ≠ a) (vs1 ++ vs2)) as Hothers.
  { rewrite fmap_app, fmap_cons in Hnodup.
    apply NoDup_app in Hnodup as (_ & Hdisjoint & [Hnot2 _]%NoDup_cons).
    apply Forall_app. split; apply Forall_forall; intros v' Hv' Heq.
    - apply (Hdisjoint a); [rewrite <- Heq; by apply list_elem_of_fmap_2|].
      rewrite <- Hva. by left.
    - apply Hnot2. rewrite <- Hva, <- Heq. by apply list_elem_of_fmap_2. }
  exists chunk1, heap', s', logs_before, vs1, v, vs2, logs_after,
    before', chunk', after'.
  do 3 (split; [done|]).
  split; [symmetry; by eapply Forall3_length_lr|].
  split; [done|].
  split; [symmetry; by eapply Forall3_length_lm|].
  do 3 (split; [done|]).
  rewrite Hkept, kept_elem_of. split.
  - intros (v' & Hv' & Hva' & Hkeep).
    apply Forall_app in Hothers as [Hnot1 Hnot2].
    rewrite Forall_forall in Hnot1, Hnot2.
    apply elem_of_app in Hv' as [Hv'|[->|Hv']%elem_of_cons]; [|done|].
    + by destruct (Hnot1 v' Hv').
    + by destruct (Hnot2 v' Hv').
  - intros Hkeep. exists v. split; [|done].
    apply elem_of_app. right. by left.
Qed.

(** X13: two scans in a row. On a heap with well-formed tables both
    return, the heap is well-formed after each, each scan treats every
    chunk as [chunk_scanned] says, with [logs1] and [logs2] holding the
    calls made for each chunk, and at every chunk the second scan calls
    its callback on exactly the slots that the callback of the first
    scan kept there. *)
Theorem Iterate_twice (direction : PointerDirection) {S1 S2 : Type}
    (callback1 : Address → S1 → SlotCallbackResult * S1)
    (callback2 : Address → S2 → SlotCallbackResult * S2)
    (heap : Heap) (s1 : S1) (s2 : S2) :
  heap_ok direction heap →
  ∃ heap' s1' logs1 heap'' s2' logs2,
    RememberedSet.Iterate (infallible callback1) direction heap s1
      = Ok (heap', s1')
    ∧ run (infallible callback1) s1 (mjoin logs1) s1'
    ∧ Forall3 (chunk_scanned direction) (chunks heap) (chunks heap') logs1
    ∧ heap_ok direction heap'
    ∧ RememberedSet.Iterate (infallible callback2) direction heap' s2
      = Ok (heap'', s2')
    ∧ run (infallible callback2) s2 (mjoin logs2) s2'
    ∧ Forall3 (chunk_scanned direction) (chunks heap') (chunks heap'') logs2
    ∧ heap_ok direction heap''
    ∧ Forall2 (λ (vs1 : list (Visit S1)) (vs2 : list (Visit S2)),
                 visit_addr <$> vs2 ≡ₚ kept vs1) logs1 logs2.
Proof.
  intros Hheap.
  pose proof (Iterate_scan (infallible callback1) (λ _, False)
                (infallible_fails callback1) kPageSize_pos
                direction heap s1 Hheap) as Hscan1.
  destruct (RememberedSet.Iterate _ _ heap s1) as [[heap' s1']|e]
    eqn:Hiter1; [|done].
  destruct Hscan1 as (logs1 & Hrun1 & Hscanned1 & Hheap' & _).
  pose proof (Iterate_scan (infallible callback2) (λ _, False)
                (infallible_fails callback2) kPageSize_pos
                direction heap' s2 Hheap') as Hscan2.
  destruct (RememberedSet.Iterate _ _ heap' s2) as [[heap'' s2']|e]
    eqn:Hiter2; [|done].
  destruct Hscan2 as (logs2 & Hrun2 & Hscanned2 & Hheap'' & _).
  exists heap', s1', logs1, heap'', s2', logs2.
  do 8 (split; [done|]).
  eapply Forall3_chain; [|exact Hscanned1|exact Hscanned2].
  intros c c' vs1 c'' vs2. apply chunk_scanned_twice.
Qed.

(** X14: the counter of [Iterate] is an [int]. On a heap whose tables
    have the shape that allocation gives them and whose chunks, rounded
    up to whole units, are not larger than [INT_MAX] bytes, a table
    cannot hold so many slots that the counter overflows: the tables are
    well-formed and [Iterate] returns. *)
Theorem Iterate_counter_in_range (direction : PointerDirection) {S : Type}
    (callback : Address → S → SlotCallbackResult * S)
    (heap : Heap) (s : S) :
  Forall (λ chunk, chunk_shaped direction chunk
                   ∧ 0 ≤ size chunk
                   ∧ size chunk + kPageSize - 1 ≤ INT_MAX) (chunks heap) →
  heap_ok direction heap
  ∧ ∃ heap' s' logs,
      RememberedSet.Iterate (infallible callback) direction heap s
        = Ok (heap', s')
      ∧ run (infallible callback) s (mjoin logs) s'
      ∧ Forall3 (chunk_scanned direction) (chunks heap) (chunks heap') logs.
Proof.
  intros Hchunks.
  assert (heap_ok direction heap) as Hheap.
  { unfold heap_ok. eapply Forall_impl; [exact Hchunks|].
    intros chunk (Hshaped & Hsize & Hsmall).
    unfold chunk_ok, chunk_shaped in *.
    rewrite <- ?GetSlotSet_table in *.
    destruct (RememberedSet.GetSlotSet direction chunk) as [slots|];
      [|done].
    split; [done|].
    etrans; [by apply table_count_bound|].
    unfold pages, wrap64, INT_MAX in *. rewrite Z.mod_small by lia.
    pose proof (Z.mul_div_le (size chunk + kPageSize - 1) kPageSize).
    lia. }
  split; [done|].
  pose proof (Iterate_scan (infallible callback) (λ _, False)
                (infallible_fails callback) kPageSize_pos
                direction heap s Hheap) as Hscan.
  destruct (RememberedSet.Iterate _ _ heap s) as [[heap' s']|e]
    eqn:Hiter; [|done].
  destruct Hscan as (logs & Hrun & Hscanned & _).
  by exists heap', s', logs.
Qed.
(** A run in which every call answers [REMOVE_SLOT] and leaves the
    state as it is ends in the state it started in. *)
Lemma run_all_removed {S : Type}
    (callback : Address → S → Result (SlotCallbackResult * S))
    (s s' : S) (vs : list (Visit S)) :
  run callback s vs s' →
  Forall (λ v, callback (visit_addr v) s = Ok (REMOVE_SLOT, s)) vs →
  s' = s
  ∧ Forall (λ v, visit_pre v = s ∧ visit_result v = REMOVE_SLOT
                 ∧ visit_post v = s) vs.
Proof.
  induction vs as [|v vs IH]; simpl.
  - by intros ->.
  - intros (Hpre & Hcall & Hrun) [Hv Hvs]%Forall_cons.
    rewrite Hv in Hcall. injection Hcall as Hr Hp.
    rewrite <- Hp in Hrun. destruct (IH Hrun Hvs) as [-> Hall].
    split; [done|]. by constructor.
Qed.

Lemma scanned_visits {S : Type} direction (P : Address → Prop)
    (cs cs' : list MemoryChunk.t) (logs : list (list (Visit S))) :
  Forall3 (chunk_scanned direction) cs cs' logs →
  Forall (λ c, scanned direction c = true →
               Forall P (recorded direction c)) cs →
  Forall (λ v, P (visit_addr v)) (mjoin logs).
Proof.
  induction 1 as [|c c' vs cs cs' logs Hc _ IH]; [constructor|].
  intros [Hrec Hcs]%Forall_cons. simpl. apply Forall_app. split; [|auto].
  destruct Hc as (_ & _ & _ & _ & _ & Hcase).
  rewrite <- ?GetSlotSet_table in Hcase.
  destruct (scanned direction c); [|by destruct Hcase as [_ ->]].
  destruct (RememberedSet.GetSlotSet direction c);
    [|by destruct Hcase as [_ ->]].
  destruct Hcase as (Hvisits & _).
  apply Forall_fmap. rewrite Hvisits. by apply Hrec.
Qed.

Lemma chunk_scanned_all_removed {S : Type} (chunk chunk' : MemoryChunk.t)
    (vs : list (Visit S)) :
  chunk_scanned OLD_TO_NEW chunk chunk' vs →
  Forall (λ v, visit_result v = REMOVE_SLOT) vs →
  chunk' = (if scanned OLD_TO_NEW chunk
            then ReleaseOldToNewSlots chunk else chunk).
Proof.
  intros (Ha & Hs & Ho & Hoth & Ht & Hcase) Hall.
  rewrite <- ?GetSlotSet_table in Hoth, Hcase.
  assert (kept vs = []) as Hkept.
  { unfold kept. clear -Hall.
    induction Hall as [|v vs Hv _ IH]; [done|].
    rewrite filter_cons, decide_False by congruence. done. }
  destruct (scanned OLD_TO_NEW chunk); [|by destruct Hcase].
  destruct (RememberedSet.GetSlotSet OLD_TO_NEW chunk) as [slots|] eqn:Hg.
  - destruct Hcase as (_ & _ & Hrel). rewrite Hkept in Hrel.
    assert (RememberedSet.GetSlotSet OLD_TO_NEW chunk' = None) as Hg'
      by (by apply Hrel).
    destruct chunk, chunk'. cbv in Ha, Hs, Ho, Hoth, Ht, Hg'. by subst.
  - destruct Hcase as [-> _]. destruct chunk. cbv in Hg. by subst.
Qed.

(** X15: [IterateWithWrapper] when no recorded slot of a chunk in scope
    points into from-space. In a release build the scan returns, every
    call of [Wrapper] answers [REMOVE_SLOT] without calling the slot
    callback, the state is left as it was, and the old-to-new table of
    every chunk in scope is released; chunks of the code space are not
    touched. *)
Theorem IterateWithWrapper_nothing_in_from_space {S : Type}
    (load : S → Address → Object)
    (slot_callback : Address → Object → S → S) (heap : Heap) (s : S) :
  DEBUG = false →
  heap_ok OLD_TO_NEW heap →
  Forall (λ chunk, scanned OLD_TO_NEW chunk = true →
                   Forall (λ a, InFromSpace heap (load s a) = false)
                          (recorded OLD_TO_NEW chunk)) (chunks heap) →
  ∃ heap' logs,
    RememberedSet.IterateWithWrapper load slot_callback OLD_TO_NEW heap s
      = Ok (heap', s)
    ∧ run (RememberedSet.Wrapper load slot_callback OLD_TO_NEW heap)
          s (mjoin logs) s
    ∧ Forall (λ v, visit_pre v = s ∧ visit_result v = REMOVE_SLOT
                   ∧ visit_post v = s) (mjoin logs)
    ∧ Forall3 (chunk_scanned OLD_TO_NEW) (chunks heap) (chunks heap') logs
    ∧ chunks heap'
      = (λ chunk, if scanned OLD_TO_NEW chunk
                  then ReleaseOldToNewSlots chunk else chunk)
        <$> chunks heap.
Proof.
  intros Hrelease Hheap Hold.
  unfold RememberedSet.IterateWithWrapper. simpl.
  assert (∀ a s0 e,
            RememberedSet.Wrapper load slot_callback OLD_TO_NEW heap a s0
            = Fail e → DEBUG = true ∧ e = DcheckFailure) as Hfails.
  { intros a s0 e Hfail.
    pose proof (Wrapper_cases load slot_callback heap a s0) as Hw.
    by rewrite Hfail in Hw. }
  pose proof (Iterate_scan
                (RememberedSet.Wrapper load slot_callback OLD_TO_NEW heap)
                (λ e, DEBUG = true ∧ e = DcheckFailure)
                Hfails kPageSize_pos OLD_TO_NEW heap s Hheap) as Hscan.
  destruct (RememberedSet.Iterate _ _ heap s) as [[heap' s']|e] eqn:Hiter.
  2:{ destruct Hscan as [Hdebug _]. congruence. }
  destruct Hscan as (logs & Hrun & Hscanned & _).
  assert (Forall (λ v, RememberedSet.Wrapper load slot_callback OLD_TO_NEW
                         heap (visit_addr v) s = Ok (REMOVE_SLOT, s))
                 (mjoin logs)) as Hcalls.
  { eapply Forall_impl; [by eapply scanned_visits|].
    intros v Hv. simpl in Hv. unfold RememberedSet.Wrapper, DCHECK.
    simpl. by rewrite Hv, Hrelease. }
  destruct (run_all_removed _ _ _ _ Hrun Hcalls) as [-> Hall].
  exists heap', logs. do 4 (split; [done|]).
  assert (Forall (λ vs : list (Visit S),
                    Forall (λ v, visit_result v = REMOVE_SLOT) vs) logs)
    as Hremoved.
  { apply Forall_join_inv. eapply Forall_impl; [exact Hall|].
    by intros v (_ & ? & _). }
  clear -Hscanned Hremoved.
  induction Hscanned as [|c c' vs cs cs' logs Hc _ IH]; [done|].
  apply Forall_cons in Hremoved as [Hvs Hlogs].
  rewrite fmap_cons, <- IH by done.
  by rewrite (chunk_scanned_all_removed c c' vs Hc Hvs).
Qed.
End ScanComposition.

(** ** RememberedSet: the typed table *)

Section TypedEffects.
Context `{Config}.
Import MemoryChunk.

Lemma run_typed_app {S : Type}
    (callback : SlotType → Address → S → Result (SlotCallbackResult * S))
    (s s1 s2 : S) (vs1 vs2 : list (TypedVisit S)) :
  run_typed callback s vs1 s1 → run_typed callback s1 vs2 s2 →
  run_typed callback s (vs1 ++ vs2) s2.
Proof.
  revert s. induction vs1 as [|v vs1 IH]; intros s; simpl.
  - by intros ->.
  - intros (Hpre & Hcall & Hrun) Hrun2. eauto.
Qed.

Lemma filter_fmap_list {A B : Type} (f : A → B) (P : B → Prop)
    `{!∀ x, Decision (P x)} (l : list A) :
  filter P (f <$> l) = f <$> filter (λ x, P (f x)) l.
Proof.
  induction l as [|x l IH]; [done|].
  rewrite fmap_cons, !filter_cons. simpl.
  case_decide; by rewrite ?fmap_cons, IH.
Qed.

Lemma kept_typed_cons {S : Type} (v : TypedVisit S) (vs : list (TypedVisit S)) :
  kept_typed (v :: vs)
  = (if decide (tvisit_result v = KEEP_SLOT) then [tvisit_slot v] else [])
    ++ kept_typed vs.
Proof. unfold kept_typed. rewrite filter_cons. by case_decide. Qed.

Section TypedScan.
Context {S : Type}.
Variable callback :
  SlotType → Address → S → Result (SlotCallbackResult * S).
Variable E : Failure → Prop.
Hypothesis callback_fails : ∀ t a s e, callback t a s = Fail e → E e.

(** The loop of [TypedSlotSet::Iterate]: the callback is called on the
    slots in the order of the table, and the kept ones are appended, in
    this order, to the slots of the new table. *)
Lemma foldM_typed_visit (page_start : Address)
    (slots : list (SlotType * Z)) (n : Z) (K : list (SlotType * Z)) (s : S) :
  match foldM (TypedSlotSet.visit callback page_start) (n, K, s) slots with
  | Ok (n', K', s') =>
      ∃ vs, run_typed callback s vs s'
            ∧ tvisit_slot <$> vs
              = (λ e, (e.1, page_start + e.2)) <$> slots
            ∧ n' = n + Z.of_nat (length (kept_typed vs))
            ∧ (λ e, (e.1, page_start + e.2)) <$> K'
              = ((λ e, (e.1, page_start + e.2)) <$> K) ++ kept_typed vs
  | Fail e => E e
  end.
Proof.
  revert n K s. induction slots as [|e slots IH]; intros n K s; simpl.
  - exists []. simpl. split; [done|]. split; [done|]. split; [lia|].
    by rewrite app_nil_r.
  - destruct (callback e.1 (page_start + e.2) s) as [[r s1]|err] eqn:Hcall;
      simpl; [|by eapply callback_fails].
    destruct r; simpl.
    + specialize (IH (n + 1) (K ++ [e]) s1).
      destruct (foldM _ _ slots) as [[[n' K'] s']|err]; [|done].
      destruct IH as (vs & Hrun & Hslots & Hn & HK).
      exists (mkTypedVisit e.1 (page_start + e.2) s KEEP_SLOT s1 :: vs).
      split; [by simpl|]. split; [by rewrite fmap_cons, Hslots|].
      rewrite kept_typed_cons. simpl. split; [lia|].
      rewrite HK, fmap_app. simpl. by rewrite <- app_assoc.
    + specialize (IH n K s1).
      destruct (foldM _ _ slots) as [[[n' K'] s']|err]; [|done].
      destruct IH as (vs & Hrun & Hslots & Hn & HK).
      exists (mkTypedVisit e.1 (page_start + e.2) s REMOVE_SLOT s1 :: vs).
      split; [by simpl|]. split; [by rewrite fmap_cons, Hslots|].
      rewrite kept_typed_cons. simpl. split; [lia|done].
Qed.

Lemma TypedSlotSet_Iterate_spec (ss : TypedSlotSet.t) (s : S) :
  match TypedSlotSet.Iterate callback ss s with
  | Ok (n, ss', s') =>
      ∃ vs, run_typed callback s vs s'
            ∧ tvisit_slot <$> vs = TypedSlotSet.addresses ss
            ∧ TypedSlotSet.page_start_ ss' = TypedSlotSet.page_start_ ss
            ∧ TypedSlotSet.addresses ss' = kept_typed vs
            ∧ n = Z.of_nat (length (kept_typed vs))
  | Fail e => E e
  end.
Proof.
  unfold TypedSlotSet.Iterate.
  pose proof (foldM_typed_visit (TypedSlotSet.page_start_ ss)
                (TypedSlotSet.slots ss) 0 [] s) as Hfold.
  destruct (foldM _ _ _) as [[[n K] s']|e]; simpl; [|done].
  destruct Hfold as (vs & Hrun & Hslots & Hn & HK).
  exists vs. do 3 (split; [done|]). split; [done|lia].
Qed.

(** The body of the loop of [IterateTyped] on one chunk. *)
Lemma iterate_typed_chunk_spec direction (chunk : MemoryChunk.t) (s : S) :
  match RememberedSet.iterate_typed_chunk callback direction chunk s with
  | Ok (chunk', s') =>
      ∃ vs, run_typed callback s vs s'
        ∧ address chunk' = address chunk
        ∧ size chunk' = size chunk
        ∧ owner chunk' = owner chunk
        ∧ old_to_old_slots chunk' = old_to_old_slots chunk
        ∧ old_to_new_slots chunk' = old_to_new_slots chunk
        ∧ match typed_old_to_old_slots chunk with
          | None => chunk' = chunk ∧ vs = []
          | Some _ =>
              tvisit_slot <$> vs = recorded_typed chunk
              ∧ recorded_typed chunk' = kept_typed vs
              ∧ (typed_old_to_old_slots chunk' = None
                 ↔ kept_typed vs = [])
          end
  | Fail e => E e
  end.
Proof.
  unfold RememberedSet.iterate_typed_chunk, recorded_typed.
  destruct (typed_old_to_old_slots chunk) as [slots|] eqn:Hget.
  2:{ exists []. rewrite ?Hget. by repeat split. }
  pose proof (TypedSlotSet_Iterate_spec slots s) as Hit.
  destruct (TypedSlotSet.Iterate callback slots s) as [[[n slots'] s']|e];
    cbn [mbind Result_bind]; [|done].
  destruct Hit as (vs & Hrun & Hslots & _ & Hkept & Hn).
  destruct (Z.eqb_spec n 0) as [Hzero|Hnonzero].
  - exists vs. do 6 (split; [done|]). split; [done|]. simpl.
    assert (kept_typed vs = []) as ->
      by (apply length_zero_iff_nil; lia).
    done.
  - exists vs. do 6 (split; [done|]). split; [done|]. simpl.
    split; [done|]. split; [done|]. intros Hnil. rewrite Hnil in Hn.
    simpl in Hn. lia.
Qed.

(** The loop of [IterateTyped] over the chunks of the heap. *)
Lemma for_each_iterate_typed_chunk direction (cs : list MemoryChunk.t)
    (s : S) :
  match MemoryChunkIterator.for_each MemoryChunkIterator.ALL_BUT_MAP_SPACE
          (RememberedSet.iterate_typed_chunk callback direction) cs s with
  | Ok (cs', s') =>
      ∃ logs, run_typed callback s (mjoin logs) s'
        ∧ Forall3 typed_chunk_scanned cs cs' logs
  | Fail e => E e
  end.
Proof.
  revert s. induction cs as [|chunk cs IH]; intros s.
  - exists []. simpl. split; [done|constructor].
  - cbn [MemoryChunkIterator.for_each].
    destruct (MemoryChunkIterator.in_scope _ chunk) eqn:Hscope.
    + pose proof (iterate_typed_chunk_spec direction chunk s) as Hbody.
      destruct (RememberedSet.iterate_typed_chunk _ _ _ _)
        as [[chunk' s1]|e]; cbn [mbind Result_bind]; [|done].
      destruct Hbody as (vs & Hrun & Ha & Hs & Ho & Hoo & Hon & Hcase).
      specialize (IH s1).
      destruct (MemoryChunkIterator.for_each _ _ _ _) as [[cs' s']|e];
        cbn [mbind Result_bind]; [|done].
      destruct IH as (logs & Hrun' & Hscanned).
      exists (vs :: logs). split; [by eapply run_typed_app|].
      constructor; [|done].
      unfold typed_chunk_scanned. rewrite Hscope.
      by do 5 (split; [done|]).
    + cbn [mbind Result_bind]. specialize (IH s).
      destruct (MemoryChunkIterator.for_each _ _ _ _) as [[cs' s']|e];
        cbn [mbind Result_bind]; [|done].
      destruct IH as (logs & Hrun' & Hscanned).
      exists ([] :: logs). split; [done|].
      constructor; [|done].
      unfold typed_chunk_scanned. rewrite Hscope. by repeat split.
Qed.
End TypedScan.

Lemma infallible_typed_fails {S : Type}
    (callback : SlotType → Address → S → SlotCallbackResult * S) t a s e :
  infallible_typed callback t a s = Fail e → False.
Proof. done. Qed.

(** [IterateTyped] with a callback that returns. *)
Lemma IterateTyped_scan {S : Type} direction
    (callback : SlotType → Address → S → SlotCallbackResult * S)
    (heap : Heap) (s : S) :
  ∃ heap' s' logs,
    RememberedSet.IterateTyped (infallible_typed callback) direction heap s
      = Ok (heap', s')
    ∧ run_typed (infallible_typed callback) s (mjoin logs) s'
    ∧ Forall3 typed_chunk_scanned (chunks heap) (chunks heap') logs
    ∧ heap' = set_chunks (chunks heap') heap.
Proof.
  unfold RememberedSet.IterateTyped.
  pose proof (for_each_iterate_typed_chunk (infallible_typed callback)
                (λ _, False) (infallible_typed_fails callback)
                direction (chunks heap) s) as Hloop.
  destruct (MemoryChunkIterator.for_each _ _ _ _) as [[cs' s']|e];
    cbn [mbind Result_bind]; [|done].
  destruct Hloop as (logs & Hrun & Hscanned).
  by exists (set_chunks cs' heap), s', logs.
Qed.

(** The loop of [TypedSlotSet::Iterate] with the callback of
    [RemoveRangeTyped]. *)
Lemma foldM_typed_visit_range (start end_ page_start : Address)
    (slots : list (SlotType * Z)) (n : Z) (K : list (SlotType * Z)) :
  ∃ n',
    foldM (TypedSlotSet.visit
             (λ (slot_type : SlotType) (slot_addr : Address) (u : unit),
                Ok (if (start <=? slot_addr) && (slot_addr <? end_)
                    then REMOVE_SLOT else KEEP_SLOT, u))
             page_start) (n, K, ()) slots
    = Ok (n',
          K ++ filter (λ e, ¬ (start ≤ page_start + e.2 < end_)) slots, ()).
Proof.
  revert n K. induction slots as [|e slots IH]; intros n K.
  - exists n. simpl. by rewrite app_nil_r.
  - cbn [foldM]. unfold TypedSlotSet.visit at 2. cbn [mbind Result_bind].
    rewrite filter_cons.
    destruct (Z.leb_spec start (page_start + e.2));
      destruct (Z.ltb_spec (page_start + e.2) end_);
      cbn [andb mbind Result_bind].
    + rewrite decide_False by lia. apply IH.
    + rewrite decide_True by lia.
      destruct (IH (n + 1) (K ++ [e])) as (n' & ->). exists n'.
      by rewrite <- app_assoc.
    + rewrite decide_True by lia.
      destruct (IH (n + 1) (K ++ [e])) as (n' & ->). exists n'.
      by rewrite <- app_assoc.
    + rewrite decide_True by lia.
      destruct (IH (n + 1) (K ++ [e])) as (n' & ->). exists n'.
      by rewrite <- app_assoc.
Qed.

(** The effect of [InsertTyped] when the offset of the address passes
    the check. *)
Lemma InsertTyped_effect (page : MemoryChunk.t) (slot_type : SlotType)
    (slot_addr : Address) :
  kMaxOffset ≤ 2 ^ 32 →
  typed_shaped page →
  address page ≤ slot_addr →
  slot_addr - address page < kMaxOffset →
  ∃ page',
    RememberedSet.InsertTyped OLD_TO_OLD page slot_type slot_addr = Ok page'
    ∧ recorded_typed page' = recorded_typed page ++ [(slot_type, slot_addr)]
    ∧ typed_shaped page'
    ∧ address page' = address page
    ∧ size page' = size page
    ∧ owner page' = owner page
    ∧ old_to_old_slots page' = old_to_old_slots page
    ∧ old_to_new_slots page' = old_to_new_slots page.
Proof.
  intros Hmax Hshaped Hle Hlt.
  assert (wrap64 (slot_addr - address page) = slot_addr - address page)
    as Hwrap by (unfold wrap64; apply Z.mod_small; lia).
  assert (wrap64 kMaxOffset = kMaxOffset) as Hwrapmax
    by (unfold wrap64; apply Z.mod_small; lia).
  assert (wrap32 (slot_addr - address page) = slot_addr - address page)
    as Hwrap32 by (unfold wrap32; apply Z.mod_small; lia).
  unfold RememberedSet.InsertTyped, typed_shaped, recorded_typed in *.
  cbn [STATIC_ASSERT bool_decide decide_rel mbind Result_bind].
  rewrite bool_decide_true by done. cbn [mbind Result_bind].
  destruct (typed_old_to_old_slots page) as [slots|] eqn:Hget.
  - rewrite Hwrap, Hwrapmax, Hwrap32.
    destruct (Z.ltb_spec (slot_addr - address page) kMaxOffset); [|lia].
    rewrite DCHECK_true. cbn [mbind Result_bind deref].
    eexists. split; [done|]. simpl.
    unfold TypedSlotSet.addresses. simpl. rewrite fmap_app. simpl.
    rewrite Hshaped.
    replace (address page + (slot_addr - address page)) with slot_addr
      by lia.
    by repeat split.
  - cbn [AllocateTypedOldToOldSlots set_typed_old_to_old_slots
         typed_old_to_old_slots address].
    rewrite Hwrap, Hwrapmax, Hwrap32.
    destruct (Z.ltb_spec (slot_addr - address page) kMaxOffset); [|lia].
    rewrite DCHECK_true. cbn [mbind Result_bind deref].
    eexists. split; [done|]. simpl.
    unfold TypedSlotSet.addresses. simpl.
    replace (address page + (slot_addr - address page)) with slot_addr
      by lia.
    by repeat split.
Qed.

(** The effect of [RemoveRangeTyped]. *)
Lemma RemoveRangeTyped_effect (direction : PointerDirection)
    (page : MemoryChunk.t) (start end_ : Address) :
  ∃ page',
    RememberedSet.RemoveRangeTyped direction page start end_ = Ok page'
    ∧ recorded_typed page'
      = filter (λ e, ¬ (start ≤ e.2 < end_)) (recorded_typed page)
    ∧ (typed_old_to_old_slots page' = None
       ↔ typed_old_to_old_slots page = None)
    ∧ address page' = address page
    ∧ size page' = size page
    ∧ owner page' = owner page
    ∧ old_to_old_slots page' = old_to_old_slots page
    ∧ old_to_new_slots page' = old_to_new_slots page.
Proof.
  unfold RememberedSet.RemoveRangeTyped, recorded_typed.
  destruct (typed_old_to_old_slots page) as [slots|] eqn:Hget.
  2:{ exists page. rewrite ?Hget. by repeat split. }
  unfold TypedSlotSet.Iterate.
  destruct (foldM_typed_visit_range start end_
              (TypedSlotSet.page_start_ slots) (TypedSlotSet.slots slots)
              0 []) as (n' & ->).
  cbn [mbind Result_bind]. eexists. split; [done|]. simpl.
  split; [|by repeat split].
  unfold TypedSlotSet.addresses. simpl.
  by rewrite filter_fmap_list.
Qed.





(** X20: a typed slot inserted into a page and then covered by a
    [RemoveRangeTyped] is gone: the typed table holds what it held before
    the two calls, without the slots of the range, and no slot at the
    inserted address. *)
Theorem InsertTyped_then_RemoveRangeTyped (page : MemoryChunk.t)
    (slot_type : SlotType) (slot_addr start end_ : Address) :
  kMaxOffset ≤ 2 ^ 32 →
  typed_shaped page →
  address page ≤ slot_addr →
  slot_addr - address page < kMaxOffset →
  start ≤ slot_addr < end_ →
  ∃ page1 page2,
    RememberedSet.InsertTyped OLD_TO_OLD page slot_type slot_addr = Ok page1
    ∧ RememberedSet.RemoveRangeTyped OLD_TO_OLD page1 start end_ = Ok page2
    ∧ recorded_typed page2
      = filter (λ e, ¬ (start ≤ e.2 < end_)) (recorded_typed page)
    ∧ Forall (λ e, e.2 ≠ slot_addr) (recorded_typed page2).
Proof.
  intros Hmax Hshaped Hle Hlt Hin.
  destruct (InsertTyped_effect page slot_type slot_addr Hmax Hshaped Hle Hlt)
    as (page1 & HI & Hrec1 & _).
  destruct (RemoveRangeTyped_effect OLD_TO_OLD page1 start end_)
    as (page2 & HR & Hrec2 & _).
  exists page1, page2. do 2 (split; [done|]).
  assert (recorded_typed page2
          = filter (λ e, ¬ (start ≤ e.2 < end_)) (recorded_typed page))
    as Hrec.
  { rewrite Hrec2, Hrec1, filter_app, filter_cons. simpl.
    rewrite decide_False by (intros Hout; by apply Hout).
    by rewrite filter_nil, app_nil_r. }
  split; [done|]. rewrite Hrec. apply Forall_forall.
  intros e [Hout _]%list_elem_of_filter Heq. apply Hout.
  unfold Address, SlotType in *. by rewrite Heq.
Qed.
End TypedEffects.

(** ** The further theorems at sample inputs *)

(** In a debug build, [sample_config]. *)
Section DebugBuildSamples.
#[local] Existing Instance sample_config.

Lemma Iterate_node_order_witness :
  0 < KB
  ∧ forallb LocalSlotsBuffer.valid_record sample_full_node_records = true
  ∧ ∃ b runs,
      LocalSlotsBuffer.record_all sample_full_node_records
        LocalSlotsBuffer.create = Ok b
      ∧ mjoin runs = sample_full_node_records
      ∧ Forall2 (λ n run, LocalSlotsBuffer.entries n
                          = run ≫= LocalSlotsBuffer.encode)
                (LocalSlotsBuffer.top_ b) (reverse runs)
      ∧ ∀ (S : Type) (ucb : Address → S → S)
          (tcb : SlotType → Address → S → S) (s : S),
          LocalSlotsBuffer.Iterate ucb tcb b s
          = Ok (foldl (LocalSlotsBuffer.dispatch ucb tcb) s
                      (mjoin (reverse runs))).
Proof.
  assert (0 < KB) as Hpos by reflexivity.
  assert (forallb LocalSlotsBuffer.valid_record sample_full_node_records
          = true) as Hvalid by reflexivity.
  split; [exact Hpos|]. split; [exact Hvalid|].
  exact (Iterate_node_order Hpos sample_full_node_records Hvalid).
Defined.

Lemma Record_within_one_node_witness :
  0 < KB
  ∧ forallb LocalSlotsBuffer.valid_record sample_records = true
  ∧ record_words sample_records ≤ LocalSlotsBuffer.kBufferSize
  ∧ ∃ n,
      LocalSlotsBuffer.record_all sample_records LocalSlotsBuffer.create
      = Ok {| LocalSlotsBuffer.top_ := [n] |}
      ∧ LocalSlotsBuffer.entries n
        = sample_records ≫= LocalSlotsBuffer.encode
      ∧ LocalSlotsBuffer.count n = record_words sample_records
      ∧ ∀ (S : Type) (ucb : Address → S → S)
          (tcb : SlotType → Address → S → S) (s : S),
          LocalSlotsBuffer.Iterate ucb tcb
            {| LocalSlotsBuffer.top_ := [n] |} s
          = Ok (foldl (LocalSlotsBuffer.dispatch ucb tcb) s sample_records).
Proof.
  assert (0 < KB) as Hpos by reflexivity.
  assert (forallb LocalSlotsBuffer.valid_record sample_records = true)
    as Hvalid by reflexivity.
  assert (record_words sample_records ≤ LocalSlotsBuffer.kBufferSize)
    as Hfit by by_computation.
  split; [exact Hpos|]. split; [exact Hvalid|]. split; [exact Hfit|].
  exact (Record_within_one_node Hpos sample_records Hvalid Hfit).
Defined.


Lemma untyped_node_count_witness :
  0 < KB
  ∧ forallb (λ a, NUMBER_OF_SLOT_TYPES <=? a) (seqZ 100 20) = true
  ∧ ∃ b,
      LocalSlotsBuffer.record_all
        (LocalSlotsBuffer.Untyped <$> seqZ 100 20) LocalSlotsBuffer.create
      = Ok b
      ∧ Z.of_nat (length (LocalSlotsBuffer.top_ b))
        = Z.max 1 ((Z.of_nat (length (seqZ 100 20))
                    + LocalSlotsBuffer.kBufferSize - 1)
                   `div` LocalSlotsBuffer.kBufferSize).
Proof.
  assert (0 < KB) as Hpos by reflexivity.
  assert (forallb (λ a, NUMBER_OF_SLOT_TYPES <=? a) (seqZ 100 20) = true)
    as Hvalid by reflexivity.
  split; [exact Hpos|]. split; [exact Hvalid|].
  exact (untyped_node_count Hpos (seqZ 100 20) Hvalid).
Defined.

Lemma Record_address_below_slot_types_witness :
  0 < KB
  ∧ forallb LocalSlotsBuffer.valid_record sample_records = true
  ∧ 3 < NUMBER_OF_SLOT_TYPES
  ∧ NUMBER_OF_SLOT_TYPES ≤ 100
  ∧ ∃ b,
      LocalSlotsBuffer.record_all sample_records LocalSlotsBuffer.create
      = Ok b
      ∧ (DEBUG = true →
         LocalSlotsBuffer.RecordAddress 3 b = Fail DcheckFailure
         ∧ LocalSlotsBuffer.RecordTyped 2 3 b = Fail DcheckFailure)
      ∧ (DEBUG = false →
         ∃ b', LocalSlotsBuffer.record_all
                 [LocalSlotsBuffer.Untyped 3; LocalSlotsBuffer.Untyped 100]
                 LocalSlotsBuffer.create = Ok b'
           ∧ ∀ (S : Type) (ucb : Address → S → S)
               (tcb : SlotType → Address → S → S) (s : S),
               LocalSlotsBuffer.Iterate ucb tcb b' s = Ok (tcb 3 100 s)).
Proof.
  assert (0 < KB) as Hpos by reflexivity.
  assert (forallb LocalSlotsBuffer.valid_record sample_records = true)
    as Hvalid by reflexivity.
  assert (3 < NUMBER_OF_SLOT_TYPES) as Hbelow by reflexivity.
  assert (NUMBER_OF_SLOT_TYPES ≤ 100) as Hvalid' by by_computation.
  split; [exact Hpos|]. split; [exact Hvalid|]. split; [exact Hbelow|].
  split; [exact Hvalid'|].
  exact (Record_address_below_slot_types Hpos sample_records 3 100 2
           Hvalid Hbelow Hvalid').
Defined.

Lemma Insert_adds_one_witness :
  0 < kPageSize
  ∧ chunk_fits sample_page
  ∧ MemoryChunk.Contains sample_page 1048640 = true
  ∧ chunk_shaped OLD_TO_NEW sample_page
  ∧ ∃ chunk',
      RememberedSet.Insert OLD_TO_NEW sample_page 1048640 = Ok chunk'
      ∧ recorded OLD_TO_NEW chunk'
        ≡ₚ (if decide (1048640 ∈ recorded OLD_TO_NEW sample_page)
            then recorded OLD_TO_NEW sample_page
            else 1048640 :: recorded OLD_TO_NEW sample_page)
      ∧ chunk_shaped OLD_TO_NEW chunk'
      ∧ table OLD_TO_NEW chunk' ≠ None
      ∧ MemoryChunk.address chunk' = MemoryChunk.address sample_page
      ∧ MemoryChunk.size chunk' = MemoryChunk.size sample_page
      ∧ MemoryChunk.owner chunk' = MemoryChunk.owner sample_page
      ∧ table (other OLD_TO_NEW) chunk'
        = table (other OLD_TO_NEW) sample_page
      ∧ MemoryChunk.typed_old_to_old_slots chunk'
        = MemoryChunk.typed_old_to_old_slots sample_page.
Proof.
  assert (0 < kPageSize) as Hpos by reflexivity.
  assert (chunk_fits sample_page) as Hfits by by_computation.
  assert (chunk_shaped OLD_TO_NEW sample_page) as Hshaped by by_computation.
  split; [exact Hpos|]. split; [exact Hfits|]. split; [reflexivity|].
  split; [exact Hshaped|].
  exact (Insert_adds_one Hpos OLD_TO_NEW sample_page 1048640 Hfits eq_refl
           Hshaped).
Defined.

Lemma Insert_recorded_again_witness :
  0 < kPageSize
  ∧ chunk_fits sample_page
  ∧ MemoryChunk.Contains sample_page 1048592 = true
  ∧ chunk_shaped OLD_TO_NEW sample_page
  ∧ 1048592 ∈ recorded OLD_TO_NEW sample_page
  ∧ RememberedSet.Insert OLD_TO_NEW sample_page 1048592 = Ok sample_page.
Proof.
  assert (0 < kPageSize) as Hpos by reflexivity.
  assert (chunk_fits sample_page) as Hfits by by_computation.
  assert (chunk_shaped OLD_TO_NEW sample_page) as Hshaped by by_computation.
  assert (1048592 ∈ recorded OLD_TO_NEW sample_page) as Hrecorded
    by by_computation.
  split; [exact Hpos|]. split; [exact Hfits|]. split; [reflexivity|].
  split; [exact Hshaped|]. split; [exact Hrecorded|].
  exact (Insert_recorded_again Hpos OLD_TO_NEW sample_page 1048592 Hfits
           eq_refl Hshaped Hrecorded).
Defined.

Lemma Remove_unrecorded_witness :
  0 < kPageSize
  ∧ chunk_fits sample_page
  ∧ MemoryChunk.Contains sample_page 1048640 = true
  ∧ chunk_shaped OLD_TO_NEW sample_page
  ∧ (1048640 ∉ recorded OLD_TO_NEW sample_page)
  ∧ RememberedSet.Remove OLD_TO_NEW sample_page 1048640 = Ok sample_page.
Proof.
  assert (0 < kPageSize) as Hpos by reflexivity.
  assert (chunk_fits sample_page) as Hfits by by_computation.
  assert (chunk_shaped OLD_TO_NEW sample_page) as Hshaped by by_computation.
  assert (1048640 ∉ recorded OLD_TO_NEW sample_page) as Hnot
    by by_computation.
  split; [exact Hpos|]. split; [exact Hfits|]. split; [reflexivity|].
  split; [exact Hshaped|]. split; [exact Hnot|].
  exact (Remove_unrecorded Hpos OLD_TO_NEW sample_page 1048640 Hfits
           eq_refl Hshaped Hnot).
Defined.

Lemma Remove_removes_one_witness :
  0 < kPageSize
  ∧ chunk_fits sample_page
  ∧ MemoryChunk.Contains sample_page 1048592 = true
  ∧ chunk_shaped OLD_TO_NEW sample_page
  ∧ ∃ chunk',
      RememberedSet.Remove OLD_TO_NEW sample_page 1048592 = Ok chunk'
      ∧ recorded OLD_TO_NEW chunk'
        ≡ₚ filter (λ a', a' ≠ 1048592) (recorded OLD_TO_NEW sample_page)
      ∧ chunk_shaped OLD_TO_NEW chunk'
      ∧ (table OLD_TO_NEW chunk' = None
         ↔ table OLD_TO_NEW sample_page = None)
      ∧ MemoryChunk.address chunk' = MemoryChunk.address sample_page
      ∧ MemoryChunk.size chunk' = MemoryChunk.size sample_page
      ∧ MemoryChunk.owner chunk' = MemoryChunk.owner sample_page
      ∧ table (other OLD_TO_NEW) chunk'
        = table (other OLD_TO_NEW) sample_page
      ∧ MemoryChunk.typed_old_to_old_slots chunk'
        = MemoryChunk.typed_old_to_old_slots sample_page.
Proof.
  assert (0 < kPageSize) as Hpos by reflexivity.
  assert (chunk_fits sample_page) as Hfits by by_computation.
  assert (chunk_shaped OLD_TO_NEW sample_page) as Hshaped by by_computation.
  split; [exact Hpos|]. split; [exact Hfits|]. split; [reflexivity|].
  split; [exact Hshaped|].
  exact (Remove_removes_one Hpos OLD_TO_NEW sample_page 1048592 Hfits
           eq_refl Hshaped).
Defined.

Lemma Insert_then_Iterate_witness :
  0 < kPageSize
  ∧ chunks sample_heap = [] ++ sample_page :: [sample_large_page]
  ∧ heap_ok OLD_TO_NEW sample_heap
  ∧ chunk_fits sample_page
  ∧ MemoryChunk.Contains sample_page 1048640 = true
  ∧ scanned OLD_TO_NEW sample_page = true
  ∧ Z.of_nat (length (recorded OLD_TO_NEW sample_page)) < INT_MAX
  ∧ ∃ chunk1 heap' s' logs_before vs1 v vs2 logs_after before' chunk'
      after',
      RememberedSet.Insert OLD_TO_NEW sample_page 1048640 = Ok chunk1
      ∧ RememberedSet.Iterate
          (infallible (λ a visited, (KEEP_SLOT, a :: visited))) OLD_TO_NEW
          (set_chunks ([] ++ chunk1 :: [sample_large_page]) sample_heap) []
        = Ok (heap', s')
      ∧ run (infallible (λ a visited, (KEEP_SLOT, a :: visited))) []
            (mjoin (logs_before ++ (vs1 ++ v :: vs2) :: logs_after)) s'
      ∧ length logs_before = length (@nil MemoryChunk.t)
      ∧ chunks heap' = before' ++ chunk' :: after'
      ∧ length before' = length (@nil MemoryChunk.t)
      ∧ chunk_scanned OLD_TO_NEW chunk1 chunk' (vs1 ++ v :: vs2)
      ∧ visit_addr v = 1048640
      ∧ Forall (λ v', visit_addr v' ≠ 1048640) (vs1 ++ vs2)
      ∧ (1048640 ∈ recorded OLD_TO_NEW chunk'
         ↔ visit_result v = KEEP_SLOT).
Proof.
  assert (0 < kPageSize) as Hpos by reflexivity.
  assert (heap_ok OLD_TO_NEW sample_heap) as Hheap by by_computation.
  assert (chunk_fits sample_page) as Hfits by by_computation.
  assert (Z.of_nat (length (recorded OLD_TO_NEW sample_page)) < INT_MAX)
    as Hcount by by_computation.
  split; [exact Hpos|]. split; [reflexivity|]. split; [exact Hheap|].
  split; [exact Hfits|]. split; [reflexivity|]. split; [reflexivity|].
  split; [exact Hcount|].
  exact (Insert_then_Iterate Hpos OLD_TO_NEW
           (λ a visited, (KEEP_SLOT, a :: visited)) sample_heap
           [] [sample_large_page] sample_page 1048640 []
           eq_refl Hheap Hfits eq_refl eq_refl Hcount).
Defined.

Lemma Iterate_twice_witness :
  0 < kPageSize
  ∧ heap_ok OLD_TO_NEW sample_heap
  ∧ ∃ heap' s1' logs1 heap'' s2' logs2,
      RememberedSet.Iterate
        (infallible (λ a (kept : nat),
                       (if a =? 1048608 then REMOVE_SLOT else KEEP_SLOT,
                        Datatypes.S kept)))
        OLD_TO_NEW sample_heap 0%nat = Ok (heap', s1')
      ∧ run (infallible (λ a (kept : nat),
                           (if a =? 1048608 then REMOVE_SLOT else KEEP_SLOT,
                            Datatypes.S kept)))
            0%nat (mjoin logs1) s1'
      ∧ Forall3 (chunk_scanned OLD_TO_NEW)
                (chunks sample_heap) (chunks heap') logs1
      ∧ heap_ok OLD_TO_NEW heap'
      ∧ RememberedSet.Iterate
          (infallible (λ a visited, (KEEP_SLOT, a :: visited)))
          OLD_TO_NEW heap' [] = Ok (heap'', s2')
      ∧ run (infallible (λ a visited, (KEEP_SLOT, a :: visited)))
            [] (mjoin logs2) s2'
      ∧ Forall3 (chunk_scanned OLD_TO_NEW)
                (chunks heap') (chunks heap'') logs2
      ∧ heap_ok OLD_TO_NEW heap''
      ∧ Forall2 (λ (vs1 : list (Visit nat)) (vs2 : list (Visit (list Z))),
                   visit_addr <$> vs2 ≡ₚ kept vs1) logs1 logs2.
Proof.
  assert (0 < kPageSize) as Hpos by reflexivity.
  assert (heap_ok OLD_TO_NEW sample_heap) as Hheap by by_computation.
  split; [exact Hpos|]. split; [exact Hheap|].
  exact (Iterate_twice Hpos OLD_TO_NEW
           (λ a (kept : nat),
              (if a =? 1048608 then REMOVE_SLOT else KEEP_SLOT,
               Datatypes.S kept))
           (λ a visited, (KEEP_SLOT, a :: visited))
           sample_heap 0%nat [] Hheap).
Defined.

Lemma Iterate_counter_in_range_witness :
  0 < kPageSize
  ∧ Forall (λ chunk, chunk_shaped OLD_TO_NEW chunk
                     ∧ 0 ≤ MemoryChunk.size chunk
                     ∧ MemoryChunk.size chunk + kPageSize - 1 ≤ INT_MAX)
           (chunks sample_heap)
  ∧ heap_ok OLD_TO_NEW sample_heap
  ∧ ∃ heap' s' logs,
      RememberedSet.Iterate
        (infallible (λ a visited, (KEEP_SLOT, a :: visited)))
        OLD_TO_NEW sample_heap [] = Ok (heap', s')
      ∧ run (infallible (λ a visited, (KEEP_SLOT, a :: visited)))
            [] (mjoin logs) s'
      ∧ Forall3 (chunk_scanned OLD_TO_NEW)
                (chunks sample_heap) (chunks heap') logs.
Proof.
  assert (0 < kPageSize) as Hpos by reflexivity.
  assert (Forall (λ chunk, chunk_shaped OLD_TO_NEW chunk
                           ∧ 0 ≤ MemoryChunk.size chunk
                           ∧ MemoryChunk.size chunk + kPageSize - 1
                             ≤ INT_MAX)
            (chunks sample_heap)) as Hchunks by by_computation.
  split; [exact Hpos|]. split; [exact Hchunks|].
  exact (Iterate_counter_in_range Hpos OLD_TO_NEW
           (λ a visited, (KEEP_SLOT, a :: visited)) sample_heap []
           Hchunks).
Defined.



Lemma InsertTyped_then_RemoveRangeTyped_witness :
  kMaxOffset ≤ 2 ^ 32
  ∧ typed_shaped sample_typed_page
  ∧ MemoryChunk.address sample_typed_page ≤ 8388736
  ∧ 8388736 - MemoryChunk.address sample_typed_page < kMaxOffset
  ∧ 8388700 ≤ 8388736 < 8388800
  ∧ ∃ page1 page2,
      RememberedSet.InsertTyped OLD_TO_OLD sample_typed_page 2 8388736
      = Ok page1
      ∧ RememberedSet.RemoveRangeTyped OLD_TO_OLD page1 8388700 8388800
        = Ok page2
      ∧ recorded_typed page2
        = filter (λ e, ¬ (8388700 ≤ e.2 < 8388800))
                 (recorded_typed sample_typed_page)
      ∧ Forall (λ e, e.2 ≠ 8388736) (recorded_typed page2).
Proof.
  assert (kMaxOffset ≤ 2 ^ 32) as Hmax by by_computation.
  assert (typed_shaped sample_typed_page) as Hshaped by by_computation.
  assert (MemoryChunk.address sample_typed_page ≤ 8388736) as Hle
    by by_computation.
  assert (8388736 - MemoryChunk.address sample_typed_page < kMaxOffset)
    as Hlt by reflexivity.
  assert (8388700 ≤ 8388736 < 8388800) as Hin by by_computation.
  split; [exact Hmax|]. split; [exact Hshaped|]. split; [exact Hle|].
  split; [exact Hlt|]. split; [exact Hin|].
  exact (InsertTyped_then_RemoveRangeTyped sample_typed_page 2 8388736
           8388700 8388800 Hmax Hshaped Hle Hlt Hin).
Defined.
End DebugBuildSamples.

(** In a release build, [sample_release_config]. *)
Section ReleaseBuildSamples.
#[local] Existing Instance sample_release_config.

(** The address 4 MB lies three units behind the start of [sample_page],
    which has one unit. *)
Lemma Insert_Remove_outside_chunk_witness :
  0 < kPageSize
  ∧ chunk_shaped OLD_TO_NEW sample_page
  ∧ DEBUG = false
  ∧ MemoryChunk.pages sample_page * kPageSize
    ≤ wrap64 (4194304 - MemoryChunk.address sample_page)
  ∧ RememberedSet.Insert OLD_TO_NEW sample_page 4194304
    = Fail UndefinedBehavior
  ∧ RememberedSet.Remove OLD_TO_NEW sample_page 4194304
    = match table OLD_TO_NEW sample_page with
      | None => Ok sample_page
      | Some _ => Fail UndefinedBehavior
      end.
Proof.
  assert (0 < kPageSize) as Hpos by reflexivity.
  assert (chunk_shaped OLD_TO_NEW sample_page) as Hshaped by by_computation.
  assert (MemoryChunk.pages sample_page * kPageSize
          ≤ wrap64 (4194304 - MemoryChunk.address sample_page)) as Hbeyond
    by by_computation.
  split; [exact Hpos|]. split; [exact Hshaped|]. split; [reflexivity|].
  split; [exact Hbeyond|].
  exact (proj2 (Insert_Remove_outside_chunk Hpos OLD_TO_NEW sample_page
                  4194304 Hshaped) eq_refl Hbeyond).
Defined.

(** The range of the second unit of [sample_two_unit_chunk] that holds
    its slot. *)
Lemma RemoveRange_only_first_unit_witness :
  0 < kPageSize
  ∧ 0 < MemoryChunk.size sample_two_unit_chunk
  ∧ chunk_fits sample_two_unit_chunk
  ∧ chunk_shaped OLD_TO_NEW sample_two_unit_chunk
  ∧ match RememberedSet.RemoveRange OLD_TO_NEW sample_two_unit_chunk
            5242920 5242980 with
    | Ok chunk' =>
        (∀ a, a ∈ recorded OLD_TO_NEW chunk' →
              a ∈ recorded OLD_TO_NEW sample_two_unit_chunk)
        ∧ (∀ a, a ∈ recorded OLD_TO_NEW sample_two_unit_chunk →
                MemoryChunk.address sample_two_unit_chunk + kPageSize ≤ a →
                a ∈ recorded OLD_TO_NEW chunk')
    | Fail e => DEBUG = true ∧ e = DcheckFailure
    end
    ∧ (DEBUG = false →
       ∃ chunk', RememberedSet.RemoveRange OLD_TO_NEW sample_two_unit_chunk
                   5242920 5242980 = Ok chunk').
Proof.
  assert (0 < kPageSize) as Hpos by reflexivity.
  assert (0 < MemoryChunk.size sample_two_unit_chunk) as Hsize
    by reflexivity.
  assert (chunk_fits sample_two_unit_chunk) as Hfits by by_computation.
  assert (chunk_shaped OLD_TO_NEW sample_two_unit_chunk) as Hshaped
    by by_computation.
  split; [exact Hpos|]. split; [exact Hsize|]. split; [exact Hfits|].
  split; [exact Hshaped|].
  exact (RemoveRange_only_first_unit Hpos OLD_TO_NEW sample_two_unit_chunk
           5242920 5242980 Hsize Hfits Hshaped).
Defined.

(** The sample heap with a memory in which no slot points into
    from-space. *)
Lemma IterateWithWrapper_nothing_in_from_space_witness :
  0 < kPageSize
  ∧ DEBUG = false
  ∧ heap_ok OLD_TO_NEW sample_heap
  ∧ Forall (λ chunk, scanned OLD_TO_NEW chunk = true →
                     Forall (λ a, InFromSpace sample_heap
                                    (sample_load ∅ a) = false)
                            (recorded OLD_TO_NEW chunk))
           (chunks sample_heap)
  ∧ ∃ heap' logs,
      RememberedSet.IterateWithWrapper sample_load sample_relocate
        OLD_TO_NEW sample_heap ∅ = Ok (heap', ∅)
      ∧ run (RememberedSet.Wrapper sample_load sample_relocate OLD_TO_NEW
               sample_heap) ∅ (mjoin logs) ∅
      ∧ Forall (λ v, visit_pre v = ∅ ∧ visit_result v = REMOVE_SLOT
                     ∧ visit_post v = ∅) (mjoin logs)
      ∧ Forall3 (chunk_scanned OLD_TO_NEW)
                (chunks sample_heap) (chunks heap') logs
      ∧ chunks heap'
        = (λ chunk, if scanned OLD_TO_NEW chunk
                    then MemoryChunk.ReleaseOldToNewSlots chunk else chunk)
          <$> chunks sample_heap.
Proof.
  assert (0 < kPageSize) as Hpos by reflexivity.
  assert (heap_ok OLD_TO_NEW sample_heap) as Hheap by by_computation.
  assert (Forall (λ chunk, scanned OLD_TO_NEW chunk = true →
                           Forall (λ a, InFromSpace sample_heap
                                          (sample_load ∅ a) = false)
                                  (recorded OLD_TO_NEW chunk))
                 (chunks sample_heap)) as Hold by by_computation.
  split; [exact Hpos|]. split; [reflexivity|]. split; [exact Hheap|].
  split; [exact Hold|].
  exact (IterateWithWrapper_nothing_in_from_space Hpos sample_load
           sample_relocate sample_heap ∅ eq_refl Hheap Hold).
Defined.
End ReleaseBuildSamples.
